(** * Verification of [tools/stats/upload_test_stats.py] and [torch/cuda/random.py]

    The development embeds the two Python modules shallowly:

    - Python values are an inductive type [val]; string-keyed [dict]s are
      [gmap string val]; tuple-keyed dicts whose iteration order is observable
      are insertion-ordered association lists ([odict]);
    - exceptions are an error monad [res];
    - the CUDA runtime state (lazy-initialisation gate, queued callbacks,
      per-device generators, tensor storage) is an explicit record threaded
      through every function of [torch.cuda.random];
    - for the purity statements a second, store-based embedding of the report
      parser and of the aggregator allocates and mutates Python objects in an
      explicit heap.

    Builtins of the Python runtime that are not code of the repository and
    whose result depends on IEEE arithmetic ([float()], float addition) are
    parameters of the development; a reference instance over exact rationals
    is given for evaluation on concrete inputs. *)

From stdpp Require Import functions gmap strings list fin_maps.
From Stdlib Require Import ZArith QArith Ascii.
From Stdlib.Strings Require Import Byte.

#[local] Set Warnings "-register-all".
#[local] Open Scope Z_scope.
#[local] Open Scope string_scope.
#[local] Open Scope list_scope.

(** ** Exceptions *)

Inductive exn :=
| KeyError
| TypeError
| ValueError
| IndexError
| AssertionError
| OverflowError
| RuntimeError
| RecursionError.

Inductive res (A : Type) :=
| Ok (a : A)
| Raise (e : exn).
Arguments Ok {A} a.
Arguments Raise {A} e.

#[global] Instance res_ret : MRet res := λ A a, Ok a.
#[global] Instance res_bind : MBind res := λ A B k m,
  match m with
  | Ok a => k a
  | Raise e => Raise e
  end.

Definition is_ok {A} (m : res A) : bool :=
  match m with Ok _ => true | Raise _ => false end.

(** [for x in l: acc = body(acc, x)] with exceptions leaving the loop. *)
Fixpoint foldM {A B} (body : B → A → res B) (l : list A) (acc : B) : res B :=
  match l with
  | [] => Ok acc
  | x :: l' => acc' ← body acc x; foldM body l' acc'
  end.

(** ** Strings: the [str] methods and the [int()] builtin used by the code

    Strings are sequences of ASCII code points. *)

Module PyStr.

(** [str.isspace] on one ASCII code point: TAB, LF, VT, FF, CR, the four
    separators FS/GS/RS/US, and SPACE. *)
Definition is_space (c : ascii) : bool :=
  let n := nat_of_ascii c in
  ((9 <=? n) && (n <=? 13) || (28 <=? n) && (n <=? 32))%nat.

Fixpoint lstrip (s : string) : string :=
  match s with
  | String c s' => if is_space c then lstrip s' else s
  | EmptyString => EmptyString
  end.

Fixpoint rstrip (s : string) : string :=
  match s with
  | String c s' =>
      match rstrip s' with
      | EmptyString => if is_space c then EmptyString else String c EmptyString
      | r => String c r
      end
  | EmptyString => EmptyString
  end.

(** [s.strip()] *)
Definition strip (s : string) : string := rstrip (lstrip s).

(** Truthiness of a string: non-empty. *)
Definition truthy (s : string) : bool :=
  match s with EmptyString => false | _ => true end.

(** [s.rpartition(sep)] for a one-character separator: split at the last
    occurrence; without an occurrence the result is [("", "", s)]. *)
Fixpoint rpartition_aux (sep : ascii) (s : string) : option (string * string) :=
  match s with
  | EmptyString => None
  | String c s' =>
      match rpartition_aux sep s' with
      | Some (a, b) => Some (String c a, b)
      | None => if Ascii.eqb c sep then Some (EmptyString, s') else None
      end
  end.

Definition rpartition (sep : ascii) (s : string) : string * string * string :=
  match rpartition_aux sep s with
  | Some (a, b) => (a, String sep EmptyString, b)
  | None => (EmptyString, EmptyString, s)
  end.

Definition is_digit (c : ascii) : bool :=
  let n := nat_of_ascii c in ((48 <=? n) && (n <=? 57))%nat.

Definition digit_val (c : ascii) : Z := Z.of_nat (nat_of_ascii c) - 48.

(** The digit part of an integer literal, read left to right with an
    accumulator.  A single underscore is allowed between two digits.
    [prev] tells whether the previous character was a digit. *)
Fixpoint int_digits (s : string) (prev : bool) (acc : Z) : option Z :=
  match s with
  | EmptyString => if prev then Some acc else None
  | String c s' =>
      if is_digit c then int_digits s' true (10 * acc + digit_val c)
      else if Ascii.eqb c "_" then
        if prev then
          match s' with
          | String d _ => if is_digit d then int_digits s' false acc else None
          | EmptyString => None
          end
        else None
      else None
  end.

(** The characters that [int()] and [float()] skip around a numeral:
    TAB, LF, VT, FF, CR and SPACE, and not the four separators that
    [str.isspace] accepts as well. *)
Definition is_numeral_space (c : ascii) : bool :=
  let n := nat_of_ascii c in
  ((9 <=? n) && (n <=? 13) || (n =? 32))%nat.

Fixpoint lskip (s : string) : string :=
  match s with
  | String c s' => if is_numeral_space c then lskip s' else s
  | EmptyString => EmptyString
  end.

Fixpoint rskip (s : string) : string :=
  match s with
  | String c s' =>
      match rskip s' with
      | EmptyString =>
          if is_numeral_space c then EmptyString else String c EmptyString
      | r => String c r
      end
  | EmptyString => EmptyString
  end.

(** The numeral inside [s]. *)
Definition numeral (s : string) : string := rskip (lskip s).

(** [int(s)] in base 10: surrounding whitespace is ignored, then an
    optional sign, then the digits.  [None] stands for [ValueError]. *)
Definition py_int (s : string) : option Z :=
  match numeral s with
  | String "+" t => int_digits t false 0
  | String "-" t => Z.opp <$> int_digits t false 0
  | t => int_digits t false 0
  end.

End PyStr.

(** ** Python values

    The floating-point part of the runtime: the type of floats, [0.0],
    addition, the conversion of an integer operand ([None] stands for the
    [OverflowError] of an integer beyond the range of the floats), the
    integer that a float is equal to under [==], if there is one ([1.0]
    equals [1], both zeros equal [0]), the test for a nan, and the [float()]
    builtin on strings ([None] stands for [ValueError]).  Two floats of
    the type are the same float exactly when they are the same IEEE value. *)

Class FloatRuntime := {
  float : Type;
  float_eq_dec :: EqDecision float;
  fzero : float;
  fadd : float → float → float;
  float_of_int : Z → option float;
  float_int_value : float → option Z;
  float_is_nan : float → bool;
  py_float : string → option float;
}.

Section values.
Context `{FloatRuntime}.

(** Immutable scalars; these are also the hashable values that occur as
    components of dictionary keys. *)
Inductive atom :=
| ANone
| AInt (z : Z)
| AFloat (f : float)
| AStr (s : string).

#[global] Instance atom_eq_dec : EqDecision atom.
Proof. solve_decision. Defined.

Inductive val :=
| VAtom (a : atom)
| VDict (d : gmap string val)
| VList (l : list val).

(** The conversion of the integer operand of a mixed addition. *)
Definition int_to_float (z : Z) : res float :=
  match float_of_int z with
  | Some f => Ok f
  | None => Raise OverflowError
  end.

(** [a + b] on numbers; [int + int] stays an integer, any float operand
    makes the result a float, after the integer operand has been
    converted.  Every other combination that the code can reach is a
    [TypeError]. *)
Definition atom_add (a b : atom) : res atom :=
  match a, b with
  | AInt x, AInt y => Ok (AInt (x + y))
  | AInt x, AFloat y => x' ← int_to_float x; Ok (AFloat (fadd x' y))
  | AFloat x, AInt y => y' ← int_to_float y; Ok (AFloat (fadd x y'))
  | AFloat x, AFloat y => Ok (AFloat (fadd x y))
  | _, _ => Raise TypeError
  end.

Definition py_add (a b : val) : res val :=
  match a, b with
  | VAtom x, VAtom y => r ← atom_add x y; Ok (VAtom r)
  | _, _ => Raise TypeError
  end.

(** [hash(v)]: containers are unhashable. *)
Definition py_hash (v : val) : res atom :=
  match v with
  | VAtom a => Ok a
  | _ => Raise TypeError
  end.

(** A dictionary finds a key by its hash and by [==].  Under [==] an
    integer and a float of the same value are one key: [key_atom] takes
    a scalar to the representative of its class, so that two scalars
    other than nans are equal under [==] exactly when their
    representatives are the same.  A nan is equal to no other object. *)
Definition key_atom (a : atom) : atom :=
  match a with
  | AFloat f => match float_int_value f with
                | Some z => AInt z
                | None => a
                end
  | _ => a
  end.

Definition atom_is_nan (a : atom) : bool :=
  match a with
  | AFloat f => float_is_nan f
  | _ => false
  end.

(** The key that a dictionary holds for a tuple of scalars: the
    representatives of the components and, for a tuple with a nan among
    its components, a mark.  Such a tuple is equal to no tuple built from
    another record, which holds float objects of its own; it is found
    again through its identity by the statements that follow its
    insertion.  The mark is the number of keys that the dictionary had
    when the tuple was built, which no key built before or after shares. *)
Definition tuple_key {T} (mark : nat) (fields : list atom) (reps : T)
  : option nat * T :=
  (if existsb atom_is_nan fields then Some mark else None, reps).

(** [d[k]] and [d.get(k)] *)
Definition getitem (d : gmap string val) (k : string) : res val :=
  match d !! k with
  | Some v => Ok v
  | None => Raise KeyError
  end.

Definition dict_get (d : gmap string val) (k : string) : val :=
  default (VAtom ANone) (d !! k).

(** [k in d] *)
Definition contains (d : gmap string val) (k : string) : bool :=
  bool_decide (is_Some (d !! k)).

End values.

Abbreviation VNone := (VAtom ANone).
Abbreviation VInt z := (VAtom (AInt z)).
Abbreviation VFloat f := (VAtom (AFloat f)).
Abbreviation VStr s := (VAtom (AStr s)).

(** ** Insertion-ordered dictionaries

    A Python [dict] whose iteration order is observed ([ret.values()],
    [ret.items()]): a list of bindings with pairwise distinct keys, in order
    of first insertion.  The keys are the representatives of the Python
    keys under [==] (see [key_atom] and [tuple_key]), so that two keys are
    one key of the dictionary exactly when they are the same. *)

Section odict.
Context {K V : Type} `{EqDecision K}.

Fixpoint od_get (k : K) (d : list (K * V)) : option V :=
  match d with
  | [] => None
  | (k', v) :: d' => if decide (k = k') then Some v else od_get k d'
  end.

(** [d[k] = v]: an existing key keeps its position. *)
Fixpoint od_set (k : K) (v : V) (d : list (K * V)) : list (K * V) :=
  match d with
  | [] => [(k, v)]
  | (k', v') :: d' =>
      if decide (k = k') then (k, v) :: d' else (k', v') :: od_set k v d'
  end.

Definition od_getitem (k : K) (d : list (K * V)) : res V :=
  match od_get k d with
  | Some v => Ok v
  | None => Raise KeyError
  end.

Definition od_keys (d : list (K * V)) : list K := d.*1.
Definition od_values (d : list (K * V)) : list V := d.*2.

(** The dictionary with the keys [ks], in that order, and the values that
    [g] gives them. *)
Definition od_tabulate (ks : list K) (g : K → V) : list (K * V) :=
  (λ k, (k, g k)) <$> ks.

End odict.

(** ** [tools/stats/upload_test_stats.py] *)

Module UploadTestStats.

(** [xml.etree.ElementTree.Element]: tag, attribute dictionary, inner text,
    tail text and the child elements in document order. *)
Inductive Element := mkElement {
  tag : string;
  attrib : gmap string string;
  text : option string;
  tail : option string;
  children : list Element;
}.

(** [Element.iter(tag)]: the element and its descendants in document
    order, filtered by tag; ["*"] selects every element. *)
Fixpoint iter (t : string) (e : Element) : list Element :=
  (if bool_decide (t = "*" ∨ tag e = t) then [e] else [])
    ++ flat_map (iter t) (children e).

(** [pathlib.Path], relative, as the sequence of its components. *)
Definition Path := list string.
Definition parts (p : Path) : list string := p.
Definition parent (p : Path) : Path := removelast p.
Definition name (p : Path) : string := default "" (last p).

(** Job id in artifacts: the report path looks like
    [unzipped-test-reports-foo_5596745227/test/test-reports/foo/TEST-foo.xml]
    and the job id is what follows the last underscore of the first
    component. *)
Definition get_job_id (report : Path) : res Z :=
  match parts report !! 0%nat with
  | None => Raise IndexError
  | Some p0 =>
      match PyStr.py_int (PyStr.rpartition "_" p0).2 with
      | Some z => Ok z
      | None => Raise ValueError
      end
  end.

(** A decimal numeral and the integer it denotes, digit by digit with the
    weight of each position. *)
Fixpoint all_digits (s : string) : bool :=
  match s with
  | EmptyString => true
  | String c s' => PyStr.is_digit c && all_digits s'
  end.

Fixpoint decimal_value (s : string) : Z :=
  match s with
  | EmptyString => 0
  | String c s' =>
      PyStr.digit_val c * 10 ^ Z.of_nat (String.length s') + decimal_value s'
  end.

Section with_runtime.
Context `{FloatRuntime}.

(** The two [try] blocks of the attribute loop, applied to the original
    string [v]: the integer conversion stores first, the float conversion
    stores afterwards when it succeeds as well. *)
Definition coerce (v : string) : val :=
  let r := match PyStr.py_int v with
           | Some z => VInt z
           | None => VStr v
           end in
  match py_float v with
  | Some f => VFloat f
  | None => r
  end.

(** [s and s.strip()] for an optional string *)
Definition nonblank (o : option string) : bool :=
  match o with
  | Some s => PyStr.truthy s && PyStr.truthy (PyStr.strip s)
  | None => false
  end.

(** The body of [for child in element], given the converted child. *)
Definition add_child (ret : gmap string val) (c : string * gmap string val)
  : gmap string val :=
  match ret !! c.1 with
  | None => <[c.1 := VDict c.2]> ret
  | Some old =>
      let l := match old with
               | VList l => l
               | _ => [old]
               end in
      <[c.1 := VList (l ++ [VDict c.2])]> ret
  end.

(** The mapping after the attribute, text and tail steps, before the
    children are visited. *)
Definition element_base (e : Element) : gmap string val :=
  let ret := coerce <$> attrib e in
  let ret := if nonblank (text e)
             then <["text" := VStr (default "" (text e))]> ret else ret in
  if nonblank (tail e)
  then <["tail" := VStr (default "" (tail e))]> ret else ret.

Fixpoint process_xml_element (e : Element) : gmap string val :=
  fold_left add_child
    (map (λ child, (tag child, process_xml_element child)) (children e))
    (element_base e).

(** The collaborators of [parse_xml_report] outside this file: reading
    and parsing a report, and the rerun-disabled-tests check. *)
Context (ET_parse : Path → res Element).
Context (is_rerun_disabled_tests : Element → bool).

Definition parse_xml_report (tag : string) (report : Path)
    (workflow_id workflow_run_attempt : val) : res (list (gmap string val)) :=
  let job_id := match get_job_id report with
                | Ok j => VInt j
                | Raise _ => VNone
                end in
  root ← ET_parse report;
  if is_rerun_disabled_tests root then Ok []
  else
    Ok (map (λ test_case,
               let case := process_xml_element test_case in
               let case := <["workflow_id" := workflow_id]> case in
               let case := <["workflow_run_attempt" := workflow_run_attempt]> case in
               let case := <["job_id" := job_id]> case in
               <["invoking_file" := VStr (name (parent report))]> case)
            (iter tag root)).

(** [get_pytest_parallel_times], over the reports that the glob
    [**/python-pytest/**/*.xml] yields. *)
Definition get_pytest_parallel_times (reports : list Path)
  : res (list (atom * atom * val)) :=
  foldM (λ pytest_parallel_times report,
           let invoking_file := name (parent report) in
           root ← ET_parse report;
           if is_rerun_disabled_tests root then Ok pytest_parallel_times
           else
             match iter "testsuite" root with
             | [test_suite] =>
                 match attrib test_suite !! "time" with
                 | Some t =>
                     job_id ← get_job_id report;
                     Ok (od_set (AStr invoking_file, AInt job_id) (VStr t)
                           pytest_parallel_times)
                 | None => Raise KeyError
                 end
             | _ => Raise AssertionError
             end)
        reports [].


(** [Path(".").glob(pattern)]: the report files that the working
    directory holds, in the order in which the glob yields them. *)
Context (glob : string → list Path).

(** [get_tests_for_circleci]: the test cases of all reports, and the
    pytest parallel times. *)
Definition get_tests_for_circleci (workflow_run_id workflow_run_attempt : val)
  : res (list (gmap string val) * list (atom * atom * val)) :=
  test_cases ← foldM (λ test_cases xml_report,
                        cases ← parse_xml_report "testcase" xml_report
                                  workflow_run_id workflow_run_attempt;
                        Ok (test_cases ++ cases))
                 (glob "**/test/test-reports/**/*.xml") [];
  pytest_parallel_times ←
    get_pytest_parallel_times (glob "**/python-pytest/**/*.xml");
  Ok (test_cases, pytest_parallel_times).

(** [ret[key][field] += x] *)
Definition od_iadd {K} `{EqDecision K} (key : K) (field : string) (x : val)
    (ret : list (K * gmap string val)) : res (list (K * gmap string val)) :=
  entry ← od_getitem key ret;
  old ← getitem entry field;
  new ← py_add old x;
  Ok (od_set key (<[field := new]> entry) ret).

(** *** [get_invoking_file_times] *)

Definition ift_get_key (summary : gmap string val) : res (val * val) :=
  invoking_file ← getitem summary "invoking_file";
  job_id ← getitem summary "job_id";
  Ok (invoking_file, job_id).

(** The dictionary key of the tuple [key]. *)
Definition ift_hash (mark : nat) (key : val * val)
  : res (option nat * (atom * atom)) :=
  a ← py_hash key.1;
  b ← py_hash key.2;
  Ok (tuple_key mark [a; b] (key_atom a, key_atom b)).

Definition ift_init_value (summary : gmap string val) : res (gmap string val) :=
  job_id ← getitem summary "job_id";
  workflow_id ← getitem summary "workflow_id";
  workflow_run_attempt ← getitem summary "workflow_run_attempt";
  invoking_file ← getitem summary "invoking_file";
  Ok (<["job_id" := job_id]>
      (<["workflow_id" := workflow_id]>
      (<["workflow_run_attempt" := workflow_run_attempt]>
      (<["invoking_file" := invoking_file]>
      (<["time" := VFloat fzero]> ∅))))).

Definition ift_step (ret : list (option nat * (atom * atom) * gmap string val))
    (summary : gmap string val)
  : res (list (option nat * (atom * atom) * gmap string val)) :=
  key ← ift_get_key summary;
  key ← ift_hash (length ret) key;
  ret ← match od_get key ret with
        | None => v ← ift_init_value summary; Ok (od_set key v ret)
        | Some _ => Ok ret
        end;
  t ← getitem summary "time";
  od_iadd key "time" t ret.

(** [pytest_parallel_times[key]] for a key of [ret]: the entry whose
    key is equal to [key] under [==], if there is one. *)
Definition ppt_get (key : option nat * (atom * atom))
    (pytest_parallel_times : list (atom * atom * val)) : option val :=
  match key.1 with
  | Some _ => None
  | None =>
      od_get key.2
        ((λ item, (key_atom item.1.1, key_atom item.1.2, item.2))
           <$> pytest_parallel_times)
  end.

(** The second loop: a file that ran in parallel under pytest takes the
    time reported by its testsuite. *)
Definition ift_override (pytest_parallel_times : list (atom * atom * val))
    (item : option nat * (atom * atom) * gmap string val)
  : option nat * (atom * atom) * gmap string val :=
  match ppt_get item.1 pytest_parallel_times with
  | Some t => (item.1, <["time" := t]> item.2)
  | None => item
  end.

Definition get_invoking_file_times
    (test_case_summaries : list (gmap string val))
    (pytest_parallel_times : list (atom * atom * val))
  : res (list (gmap string val)) :=
  ret ← foldM ift_step test_case_summaries [];
  Ok (od_values (map (ift_override pytest_parallel_times) ret)).

(** *** [summarize_test_cases] *)

Definition stc_get_key (test_case : gmap string val)
  : res (val * val * val * val * val * val) :=
  job_id ← getitem test_case "job_id";
  workflow_id ← getitem test_case "workflow_id";
  workflow_run_attempt ← getitem test_case "workflow_run_attempt";
  invoking_file ← getitem test_case "invoking_file";
  Ok (dict_get test_case "file", dict_get test_case "classname",
      job_id, workflow_id, workflow_run_attempt, invoking_file).

(** The dictionary key of the tuple [key]. *)
Definition stc_hash (mark : nat) (key : val * val * val * val * val * val)
  : res (option nat * (atom * atom * atom * atom * atom * atom)) :=
  let '(a, b, c, d, e, f) := key in
  a ← py_hash a; b ← py_hash b; c ← py_hash c;
  d ← py_hash d; e ← py_hash e; f ← py_hash f;
  Ok (tuple_key mark [a; b; c; d; e; f]
        (key_atom a, key_atom b, key_atom c,
         key_atom d, key_atom e, key_atom f)).

Definition stc_init_value (test_case : gmap string val) : res (gmap string val) :=
  job_id ← getitem test_case "job_id";
  workflow_id ← getitem test_case "workflow_id";
  workflow_run_attempt ← getitem test_case "workflow_run_attempt";
  invoking_file ← getitem test_case "invoking_file";
  Ok (<["file" := dict_get test_case "file"]>
      (<["classname" := dict_get test_case "classname"]>
      (<["job_id" := job_id]>
      (<["workflow_id" := workflow_id]>
      (<["workflow_run_attempt" := workflow_run_attempt]>
      (<["invoking_file" := invoking_file]>
      (<["tests" := VInt 0]>
      (<["failures" := VInt 0]>
      (<["errors" := VInt 0]>
      (<["skipped" := VInt 0]>
      (<["successes" := VInt 0]>
      (<["time" := VFloat fzero]> ∅)))))))))))).

Definition stc_step
    (ret : list (option nat * (atom * atom * atom * atom * atom * atom)
                 * gmap string val))
    (test_case : gmap string val)
  : res (list (option nat * (atom * atom * atom * atom * atom * atom)
               * gmap string val)) :=
  key ← stc_get_key test_case;
  key ← stc_hash (length ret) key;
  ret ← match od_get key ret with
        | None => v ← stc_init_value test_case; Ok (od_set key v ret)
        | Some _ => Ok ret
        end;
  ret ← od_iadd key "tests" (VInt 1) ret;
  ret ← (if contains test_case "failure" then od_iadd key "failures" (VInt 1) ret
         else if contains test_case "error" then od_iadd key "errors" (VInt 1) ret
         else if contains test_case "skipped" then od_iadd key "skipped" (VInt 1) ret
         else od_iadd key "successes" (VInt 1) ret);
  t ← getitem test_case "time";
  od_iadd key "time" t ret.

Definition summarize_test_cases (test_cases : list (gmap string val))
  : res (list (gmap string val)) :=
  ret ← foldM stc_step test_cases [];
  Ok (od_values ret).

(** The loop of the script that separates out the failed test cases
    before they are uploaded. *)
Definition failed_tests_cases (test_cases : list (gmap string val))
  : list (gmap string val) :=
  filter (λ test_case,
            contains test_case "rerun" || contains test_case "failure"
            || contains test_case "error" = true) test_cases.


(** *** The vocabulary of the aggregator statements *)

(** The order in which the keys of a sequence first occur. *)
Definition first_occurrences {K} `{EqDecision K} (l : list K) : list K :=
  fold_left (λ acc k, if decide (k ∈ acc) then acc else acc ++ [k]) l [].

Definition count {A} (p : A → bool) (l : list A) : Z :=
  Z.of_nat (length (filter (λ x, p x = true) l)).

Definition is_number (v : val) : bool :=
  match v with
  | VInt _ | VFloat _ => true
  | _ => false
  end.

Definition is_atom (v : val) : bool :=
  match v with
  | VAtom _ => true
  | _ => false
  end.

(** A number that can be added to a float: a float, or an integer
    within the range of the floats. *)
Definition is_addend (v : val) : bool :=
  match v with
  | VInt z => bool_decide (is_Some (float_of_int z))
  | VFloat _ => true
  | _ => false
  end.

(** The [time] field as a float operand. *)
Definition time_of (record : gmap string val) : float :=
  match record !! "time" with
  | Some (VInt z) => default fzero (float_of_int z)
  | Some (VFloat f) => f
  | _ => fzero
  end.

(** The running sum [0.0 + t1 + t2 + ...], in list order. *)
Definition total_time (group : list (gmap string val)) : float :=
  fold_left (λ acc record, fadd acc (time_of record)) group fzero.

(** The outcome of a test case, by the priority of its markers. *)
Definition is_failure (tc : gmap string val) : bool :=
  contains tc "failure".
Definition is_error (tc : gmap string val) : bool :=
  negb (contains tc "failure") && contains tc "error".
Definition is_skipped (tc : gmap string val) : bool :=
  negb (contains tc "failure") && negb (contains tc "error")
  && contains tc "skipped".
Definition is_success (tc : gmap string val) : bool :=
  negb (contains tc "failure") && negb (contains tc "error")
  && negb (contains tc "skipped").

(** The composite key of a test case, when it has one: the key that an
    empty dictionary would hold for it.  Without a nan among the key
    fields this is the key that any dictionary holds for it. *)
Definition stc_key (tc : gmap string val)
  : option (option nat * (atom * atom * atom * atom * atom * atom)) :=
  match stc_get_key tc ≫= stc_hash 0 with
  | Ok k => Some k
  | Raise _ => None
  end.

(** A test case on which [summarize_test_cases] is defined: the four
    indexed keys are present, the six key components are hashable
    scalars, and [time] is a number that can be added to a float. *)
Definition has_atom (d : gmap string val) (k : string) : bool :=
  match d !! k with
  | Some (VAtom _) => true
  | _ => false
  end.

Definition has_atom_or_nothing (d : gmap string val) (k : string) : bool :=
  match d !! k with
  | Some v => is_atom v
  | None => true
  end.

Definition has_number (d : gmap string val) (k : string) : bool :=
  match d !! k with
  | Some v => is_number v
  | None => false
  end.

Definition has_addend (d : gmap string val) (k : string) : bool :=
  match d !! k with
  | Some v => is_addend v
  | None => false
  end.

Definition stc_well_formed (tc : gmap string val) : bool :=
  forallb (has_atom tc)
    ["job_id"; "workflow_id"; "workflow_run_attempt"; "invoking_file"]
  && forallb (has_atom_or_nothing tc) ["file"; "classname"]
  && has_addend tc "time".

(** No nan under the key [k]. *)
Definition no_nan (d : gmap string val) (k : string) : bool :=
  match d !! k with
  | Some (VAtom a) => negb (atom_is_nan a)
  | _ => true
  end.

(** A test case whose composite key is compared by [==] alone: none of
    the six key fields is a nan. *)
Definition stc_plain (tc : gmap string val) : bool :=
  forallb (no_nan tc)
    ["file"; "classname"; "job_id"; "workflow_id"; "workflow_run_attempt";
     "invoking_file"].

Definition stc_group (test_cases : list (gmap string val))
    (key : option nat * (atom * atom * atom * atom * atom * atom))
  : list (gmap string val) :=
  filter (λ tc, stc_key tc = Some key) test_cases.

(** A summary: the key fields are those of the test case [first], with
    which the summary was created. *)
Definition stc_record (first : gmap string val)
    (tests failures errors skipped successes : Z) (time : float)
  : gmap string val :=
  <["file" := dict_get first "file"]>
  (<["classname" := dict_get first "classname"]>
  (<["job_id" := dict_get first "job_id"]>
  (<["workflow_id" := dict_get first "workflow_id"]>
  (<["workflow_run_attempt" := dict_get first "workflow_run_attempt"]>
  (<["invoking_file" := dict_get first "invoking_file"]>
  (<["tests" := VInt tests]>
  (<["failures" := VInt failures]>
  (<["errors" := VInt errors]>
  (<["skipped" := VInt skipped]>
  (<["successes" := VInt successes]>
  (<["time" := VFloat time]> ∅))))))))))).

(** The summary of the test cases that share [key]: the key fields are
    those of the first of them. *)
Definition stc_summary (test_cases : list (gmap string val))
    (key : option nat * (atom * atom * atom * atom * atom * atom))
  : gmap string val :=
  let group := stc_group test_cases key in
  stc_record (default ∅ (head group)) (Z.of_nat (length group))
    (count is_failure group) (count is_error group)
    (count is_skipped group) (count is_success group)
    (total_time group).

(** The same for [get_invoking_file_times]. *)
Definition ift_key (summary : gmap string val)
  : option (option nat * (atom * atom)) :=
  match ift_get_key summary ≫= ift_hash 0 with
  | Ok k => Some k
  | Raise _ => None
  end.

Definition ift_well_formed (summary : gmap string val) : bool :=
  forallb (has_atom summary) ["invoking_file"; "job_id"]
  && forallb (contains summary) ["workflow_id"; "workflow_run_attempt"]
  && has_addend summary "time".

Definition ift_plain (summary : gmap string val) : bool :=
  forallb (no_nan summary) ["invoking_file"; "job_id"].

Definition ift_group (summaries : list (gmap string val))
    (key : option nat * (atom * atom)) : list (gmap string val) :=
  filter (λ s, ift_key s = Some key) summaries.

(** The record of the pair [key]: its fields other than the time are
    those of the first summary with that pair. *)
Definition ift_record (summaries : list (gmap string val))
    (key : option nat * (atom * atom)) (time : val) : gmap string val :=
  let first := default ∅ (head (ift_group summaries key)) in
  <["job_id" := dict_get first "job_id"]>
  (<["workflow_id" := dict_get first "workflow_id"]>
  (<["workflow_run_attempt" := dict_get first "workflow_run_attempt"]>
  (<["invoking_file" := dict_get first "invoking_file"]>
  (<["time" := time]> ∅)))).

End with_runtime.
End UploadTestStats.

(** ** The same two functions over an explicit object store

    Python objects that the functions create or receive live in a heap of
    cells addressed by their identity; a value is an immutable scalar or a
    reference to a cell.  Allocation takes the next free address.  A raised
    exception leaves the heap as it is at that point. *)

Module Store.
Import UploadTestStats.

Section with_runtime.
Context `{FloatRuntime}.

Inductive hval :=
| HAtom (a : atom)
| HRef (l : nat).

Inductive obj :=
| ODict (d : gmap string hval)
| OList (l : list hval)
| OElem (tag : string) (attrib : gmap string string)
    (text tail : option string) (children : list nat).

Definition M (A : Type) : Type := list obj → res A * list obj.

#[global] Instance M_ret : MRet M := λ A a h, (Ok a, h).
#[global] Instance M_bind : MBind M := λ A B k m h,
  match m h with
  | (Ok a, h') => k a h'
  | (Raise e, h') => (Raise e, h')
  end.

Definition raise {A} (e : exn) : M A := λ h, (Raise e, h).
Definition pass : M () := mret ().

Definition alloc (o : obj) : M nat := λ h, (Ok (length h), h ++ [o]).

Definition read (l : nat) : M obj := λ h,
  match h !! l with
  | Some o => (Ok o, h)
  | None => (Raise RuntimeError, h)
  end.

Definition write (l : nat) (o : obj) : M () := λ h,
  match h !! l with
  | Some _ => (Ok (), <[l := o]> h)
  | None => (Raise RuntimeError, h)
  end.

Definition read_dict (v : hval) : M (gmap string hval) :=
  match v with
  | HRef l => o ← read l;
              match o with
              | ODict d => mret d
              | _ => raise TypeError
              end
  | HAtom _ => raise TypeError
  end.

Definition read_list (v : hval) : M (list hval) :=
  match v with
  | HRef l => o ← read l;
              match o with
              | OList xs => mret xs
              | _ => raise TypeError
              end
  | HAtom _ => raise TypeError
  end.

(** [d[k] = v] on the dict object at [l] *)
Definition dict_setitem (l : nat) (k : string) (v : hval) : M () :=
  d ← read_dict (HRef l); write l (ODict (<[k := v]> d)).

(** [d[k]] *)
Definition dict_getitem (o : hval) (k : string) : M hval :=
  d ← read_dict o;
  match d !! k with
  | Some v => mret v
  | None => raise KeyError
  end.

(** [d.get(k)] *)
Definition dict_get (o : hval) (k : string) : M hval :=
  d ← read_dict o;
  mret (default (HAtom ANone) (d !! k)).

(** [k in d] *)
Definition dict_contains (o : hval) (k : string) : M bool :=
  d ← read_dict o;
  mret (bool_decide (is_Some (d !! k))).

(** [isinstance(v, list)] *)
Definition isinstance_list (v : hval) : M bool :=
  match v with
  | HRef l => o ← read l;
              mret (match o with OList _ => true | _ => false end)
  | HAtom _ => mret false
  end.

(** [v.append(x)] *)
Definition list_append (v : hval) (x : hval) : M () :=
  match v with
  | HRef l => xs ← read_list v; write l (OList (xs ++ [x]))
  | HAtom _ => raise TypeError
  end.

(** [for x in l: body(x)] *)
Fixpoint for_each {A} (body : A → M ()) (l : list A) : M () :=
  match l with
  | [] => pass
  | x :: l' => _ ← body x; for_each body l'
  end.

(** The scalar that the two [try] blocks leave for an attribute. *)
Definition coerce_atom (v : string) : atom :=
  let r := match PyStr.py_int v with
           | Some z => AInt z
           | None => AStr v
           end in
  match py_float v with
  | Some f => AFloat f
  | None => r
  end.

Definition read_elem (element : nat)
  : M (string * gmap string string * option string * option string * list nat) :=
  o ← read element;
  match o with
  | OElem t a tx tl cs => mret (t, a, tx, tl, cs)
  | _ => raise TypeError
  end.

(** [process_xml_element]; [fuel] bounds the depth of the recursion. *)
Fixpoint process_xml_element (fuel : nat) (element : nat) : M nat :=
  match fuel with
  | O => raise RecursionError
  | S fuel =>
      '(_, attrib, text, tail, children) ← read_elem element;
      ret ← alloc (ODict ∅);
      d ← read_dict (HRef ret);
      _ ← write ret (ODict (((λ v, HAtom (AStr v)) <$> attrib) ∪ d));
      d ← read_dict (HRef ret);
      _ ← write ret (ODict ((λ v, match v with
                                  | HAtom (AStr s) => HAtom (coerce_atom s)
                                  | _ => v
                                  end) <$> d));
      _ ← (if nonblank text
           then dict_setitem ret "text" (HAtom (AStr (default "" text)))
           else pass);
      _ ← (if nonblank tail
           then dict_setitem ret "tail" (HAtom (AStr (default "" tail)))
           else pass);
      _ ← for_each (λ child,
             '(child_tag, _, _, _, _) ← read_elem child;
             d ← read_dict (HRef ret);
             match d !! child_tag with
             | None =>
                 r ← process_xml_element fuel child;
                 dict_setitem ret child_tag (HRef r)
             | Some old =>
                 is_list ← isinstance_list old;
                 _ ← (if (is_list : bool) then pass
                      else l ← alloc (OList [old]);
                           dict_setitem ret child_tag (HRef l));
                 cur ← dict_getitem (HRef ret) child_tag;
                 r ← process_xml_element fuel child;
                 list_append cur (HRef r)
             end) children;
      mret ret
  end.


(** *** [summarize_test_cases] *)

(** [hash(v)]; the objects that a test case refers to are dicts and
    lists, which are unhashable. *)
Definition hash (v : hval) : M atom :=
  match v with
  | HAtom a => mret a
  | HRef _ => raise TypeError
  end.

Definition add (a b : hval) : M hval :=
  match a, b with
  | HAtom x, HAtom y =>
      match atom_add x y with
      | Ok r => mret (HAtom r)
      | Raise e => raise e
      end
  | _, _ => raise TypeError
  end.

(** [target[field] += x] *)
Definition dict_iadd (target : hval) (field : string) (x : hval) : M () :=
  old ← dict_getitem target field;
  new ← add old x;
  match target with
  | HRef l => dict_setitem l field new
  | HAtom _ => raise TypeError
  end.

Fixpoint fold_M {A B} (body : B → A → M B) (l : list A) (acc : B) : M B :=
  match l with
  | [] => mret acc
  | x :: l' => acc' ← body acc x; fold_M body l' acc'
  end.

Definition stc_get_key (test_case : hval)
  : M (hval * hval * hval * hval * hval * hval) :=
  file ← dict_get test_case "file";
  classname ← dict_get test_case "classname";
  job_id ← dict_getitem test_case "job_id";
  workflow_id ← dict_getitem test_case "workflow_id";
  workflow_run_attempt ← dict_getitem test_case "workflow_run_attempt";
  invoking_file ← dict_getitem test_case "invoking_file";
  mret (file, classname, job_id, workflow_id, workflow_run_attempt, invoking_file).

Definition stc_hash (mark : nat)
    (key : hval * hval * hval * hval * hval * hval)
  : M (option nat * (atom * atom * atom * atom * atom * atom)) :=
  let '(a, b, c, d, e, f) := key in
  a ← hash a; b ← hash b; c ← hash c;
  d ← hash d; e ← hash e; f ← hash f;
  mret (tuple_key mark [a; b; c; d; e; f]
          (key_atom a, key_atom b, key_atom c,
           key_atom d, key_atom e, key_atom f)).

(** The dict display of [init_value] creates a new object. *)
Definition stc_init_value (test_case : hval) : M nat :=
  file ← dict_get test_case "file";
  classname ← dict_get test_case "classname";
  job_id ← dict_getitem test_case "job_id";
  workflow_id ← dict_getitem test_case "workflow_id";
  workflow_run_attempt ← dict_getitem test_case "workflow_run_attempt";
  invoking_file ← dict_getitem test_case "invoking_file";
  alloc (ODict
    (<["file" := file]>
    (<["classname" := classname]>
    (<["job_id" := job_id]>
    (<["workflow_id" := workflow_id]>
    (<["workflow_run_attempt" := workflow_run_attempt]>
    (<["invoking_file" := invoking_file]>
    (<["tests" := HAtom (AInt 0)]>
    (<["failures" := HAtom (AInt 0)]>
    (<["errors" := HAtom (AInt 0)]>
    (<["skipped" := HAtom (AInt 0)]>
    (<["successes" := HAtom (AInt 0)]>
    (<["time" := HAtom (AFloat fzero)]> ∅))))))))))))).

(** The local dictionary [ret] maps a key to the identity of its summary
    object; it is not reachable from outside the function. *)
Definition stc_step
    (ret : list (option nat * (atom * atom * atom * atom * atom * atom)
                 * nat))
    (test_case : hval)
  : M (list (option nat * (atom * atom * atom * atom * atom * atom)
             * nat)) :=
  key ← stc_get_key test_case;
  key ← stc_hash (length ret) key;
  ret ← match od_get key ret with
        | None => v ← stc_init_value test_case; mret (od_set key v ret)
        | Some _ => mret ret
        end;
  match od_get key ret with
  | None => raise KeyError
  | Some entry =>
      _ ← dict_iadd (HRef entry) "tests" (HAtom (AInt 1));
      failure ← dict_contains test_case "failure";
      error ← dict_contains test_case "error";
      skipped ← dict_contains test_case "skipped";
      _ ← (if (failure : bool) then dict_iadd (HRef entry) "failures" (HAtom (AInt 1))
           else if (error : bool) then dict_iadd (HRef entry) "errors" (HAtom (AInt 1))
           else if (skipped : bool) then dict_iadd (HRef entry) "skipped" (HAtom (AInt 1))
           else dict_iadd (HRef entry) "successes" (HAtom (AInt 1)));
      t ← dict_getitem test_case "time";
      _ ← dict_iadd (HRef entry) "time" t;
      mret ret
  end.

Definition summarize_test_cases (test_cases : hval) : M nat :=
  tcs ← read_list test_cases;
  ret ← fold_M stc_step tcs [];
  alloc (OList (HRef <$> od_values ret)).

(** *** What a store represents *)

(** [hrepr P h v w]: in the heap [h] the value [v] denotes the tree [w],
    through cells that satisfy [P] only. *)
Inductive hrepr (P : nat → Prop) (h : list obj) : hval → val → Prop :=
| hrepr_atom a : hrepr P h (HAtom a) (VAtom a)
| hrepr_dict l d dv :
    P l → h !! l = Some (ODict d) →
    (∀ k, option_Forall2 (hrepr P h) (d !! k) (dv !! k)) →
    hrepr P h (HRef l) (VDict dv)
| hrepr_list l xs vs :
    P l → h !! l = Some (OList xs) →
    Forall2 (hrepr P h) xs vs →
    hrepr P h (HRef l) (VList vs).

(** [erepr h l e]: the cell [l] holds the root of the element tree [e]. *)
Inductive erepr (h : list obj) : nat → Element → Prop :=
| erepr_elem l e cs :
    h !! l = Some (OElem (tag e) (attrib e) (text e) (tail e) cs) →
    Forall2 (erepr h) cs (children e) →
    erepr h l e.

Fixpoint depth (e : Element) : nat :=
  S (foldr (λ c, Nat.max (depth c)) 0%nat (children e)).

(** Every cell of [h] is still there, unchanged, in [h']. *)
Definition preserved (h h' : list obj) : Prop :=
  ∀ l o, h !! l = Some o → h' !! l = Some o.

End with_runtime.
End Store.

(** ** [torch/cuda/random.py] *)

Module CudaRandom.

(** [torch.device]: a device type and an optional index. *)
Record torch_device := mk_device {
  dev_type : string;
  dev_index : option nat;
}.

(** The argument [device: Union[int, str, torch.device]]. *)
Inductive device_arg :=
| DevInt (i : nat)
| DevStr (s : string)
| DevObj (d : torch_device).

(** Modelled from the spec: the generator of the native engine, which is
    not part of the examined files.  The spec describes its state as a byte
    buffer plus an offset, with get/set of the state, of the offset and of
    the seed, and a query of the seed.  It does not say what seeding does
    to the buffer and to the offset: [g_reseed] is what the engine makes
    of them for a seed. *)
Record Generator := mk_generator {
  g_seed : Z;
  g_state : list byte;
  g_offset : Z;
  g_reseed : Z → list byte * Z;
}.

Definition gen_set_state (new_state : list byte) (g : Generator) : Generator :=
  {| g_seed := g_seed g; g_state := new_state; g_offset := g_offset g;
     g_reseed := g_reseed g |}.
Definition gen_set_offset (offset : Z) (g : Generator) : Generator :=
  {| g_seed := g_seed g; g_state := g_state g; g_offset := offset;
     g_reseed := g_reseed g |}.
Definition gen_manual_seed (seed : Z) (g : Generator) : Generator :=
  {| g_seed := seed; g_state := (g_reseed g seed).1;
     g_offset := (g_reseed g seed).2; g_reseed := g_reseed g |}.
Definition gen_initial_seed (g : Generator) : Z := g_seed g.

(** The closures [cb] that the functions hand to [_lazy_call], with the
    variables they capture. *)
Inductive callback :=
| cb_set_rng_state (new_state_copy : nat) (final_device : torch_device)
| cb_set_rng_state_offset (offset : Z) (final_device : torch_device)
| cb_manual_seed (seed : Z)
| cb_manual_seed_all (seed : Z)
| cb_seed
| cb_seed_all.

(** The keyword argument of [_lazy_call]. *)
Inductive lazy_kind := Plain | Seed | SeedAll.

(** The state of the CUDA runtime that the module reads and writes: the
    initialisation flag and the queue of deferred calls, one default
    generator per device, the current device, the storage of the byte
    tensors (by object identity), and the source of non-deterministic
    seeds with the number of values drawn so far. *)
Record Cuda := mk_cuda {
  initialized : bool;
  queued_calls : list (callback * lazy_kind);
  default_generators : list Generator;
  cur_device : nat;
  tensors : gmap nat (list byte);
  entropy : nat → Z;
  draws : nat;
}.

Definition set_initialized (b : bool) (st : Cuda) : Cuda :=
  mk_cuda b (queued_calls st) (default_generators st) (cur_device st)
    (tensors st) (entropy st) (draws st).
Definition set_queued_calls (q : list (callback * lazy_kind)) (st : Cuda) : Cuda :=
  mk_cuda (initialized st) q (default_generators st) (cur_device st)
    (tensors st) (entropy st) (draws st).
Definition set_generators (gs : list Generator) (st : Cuda) : Cuda :=
  mk_cuda (initialized st) (queued_calls st) gs (cur_device st)
    (tensors st) (entropy st) (draws st).
Definition set_tensors (ts : gmap nat (list byte)) (st : Cuda) : Cuda :=
  mk_cuda (initialized st) (queued_calls st) (default_generators st)
    (cur_device st) ts (entropy st) (draws st).
Definition set_draws (n : nat) (st : Cuda) : Cuda :=
  mk_cuda (initialized st) (queued_calls st) (default_generators st)
    (cur_device st) (tensors st) (entropy st) n.

Definition device_count (st : Cuda) : nat := length (default_generators st).
Definition current_device (st : Cuda) : nat := cur_device st.

(** A method call on [torch.cuda.default_generators[idx]] that mutates the
    generator. *)
Definition with_generator (idx : nat) (f : Generator → Generator) (st : Cuda)
  : res Cuda :=
  match default_generators st !! idx with
  | Some _ => Ok (set_generators (alter f idx (default_generators st)) st)
  | None => Raise IndexError
  end.

(** [default_generator.seed()]: a fresh non-deterministic value becomes the
    seed. *)
Definition generator_seed (idx : nat) (st : Cuda) : res Cuda :=
  st ← with_generator idx (gen_manual_seed (entropy st (draws st))) st;
  Ok (set_draws (S (draws st)) st).

Definition generator_initial_seed (idx : nat) (st : Cuda) : res Z :=
  match default_generators st !! idx with
  | Some g => Ok (gen_initial_seed g)
  | None => Raise IndexError
  end.

(** [new_state.clone()]: a new tensor with the same contents. *)
Definition clone (t : nat) (st : Cuda) : res (nat * Cuda) :=
  match tensors st !! t with
  | Some bytes =>
      let copy := fresh (dom (tensors st)) in
      Ok (copy, set_tensors (<[copy := bytes]> (tensors st)) st)
  | None => Raise RuntimeError
  end.

Section with_device_parser.
(** [torch.device(s)] for a string such as ["cuda"] or ["cuda:1"]. *)
Context (torch_device_of_str : string → res torch_device).

Definition get_device (device : device_arg) : res torch_device :=
  match device with
  | DevStr s => torch_device_of_str s
  | DevInt i => Ok (mk_device "cuda" (Some i))
  | DevObj d => Ok d
  end.

(** The index of the generator that [get_generator] returns. *)
Definition get_generator (device : torch_device) (st : Cuda) : res nat :=
  let idx := match dev_index device with
             | None => current_device st
             | Some idx => idx
             end in
  match default_generators st !! idx with
  | Some _ => Ok idx
  | None => Raise IndexError
  end.

(** The loop of [seed_all]'s callback, with its two local variables. *)
Definition seed_all_step (acc : Z * bool * Cuda) (i : nat) : res (Z * bool * Cuda) :=
  let '(random_seed, seeded, st) := acc in
  if negb seeded then
    st ← generator_seed i st;
    random_seed ← generator_initial_seed i st;
    Ok (random_seed, true, st)
  else
    st ← with_generator i (gen_manual_seed random_seed) st;
    Ok (random_seed, seeded, st).

(** Running a callback. *)
Definition run_callback (cb : callback) (st : Cuda) : res Cuda :=
  match cb with
  | cb_set_rng_state new_state_copy final_device =>
      default_generator ← get_generator final_device st;
      match tensors st !! new_state_copy with
      | Some bytes => with_generator default_generator (gen_set_state bytes) st
      | None => Raise RuntimeError
      end
  | cb_set_rng_state_offset offset final_device =>
      default_generator ← get_generator final_device st;
      with_generator default_generator (gen_set_offset offset) st
  | cb_manual_seed seed =>
      with_generator (current_device st) (gen_manual_seed seed) st
  | cb_manual_seed_all seed =>
      foldM (λ st i, with_generator i (gen_manual_seed seed) st)
        (seq 0 (device_count st)) st
  | cb_seed => generator_seed (current_device st) st
  | cb_seed_all =>
      r ← foldM seed_all_step (seq 0 (device_count st)) (0, false, st);
      Ok r.2
  end.

(** Modelled from the spec: [_lazy_call], defined in the package's
    [__init__], queues a mutation behind the lazy one-time initialisation
    gate; once the runtime is initialised the call runs at once. *)
Definition _lazy_call (cb : callback) (kind : lazy_kind) (st : Cuda) : res Cuda :=
  if initialized st then run_callback cb st
  else Ok (set_queued_calls (queued_calls st ++ [(cb, kind)]) st).

(** Modelled from the spec: [_lazy_init], defined in the package's
    [__init__], performs the device setup at most once; it fails when no
    accelerator is available, and otherwise runs the queued calls in
    order before any other operation on the device. *)
Definition _lazy_init (st : Cuda) : res Cuda :=
  if initialized st then Ok st
  else if bool_decide (device_count st = 0%nat) then Raise RuntimeError
  else
    st' ← foldM (λ st c, run_callback c.1 st) (queued_calls st)
            (set_queued_calls [] st);
    Ok (set_initialized true st').

Definition get_rng_state (device : device_arg) (st : Cuda) : res (nat * Cuda) :=
  st ← _lazy_init st;
  device ← get_device device;
  default_generator ← get_generator device st;
  match default_generators st !! default_generator with
  | Some g =>
      let t := fresh (dom (tensors st)) in
      Ok (t, set_tensors (<[t := g_state g]> (tensors st)) st)
  | None => Raise IndexError
  end.

Definition set_rng_state (new_state : nat) (device : device_arg) (st : Cuda)
  : res Cuda :=
  '(new_state_copy, st) ← clone new_state st;
  final_device ← get_device device;
  _lazy_call (cb_set_rng_state new_state_copy final_device) Plain st.

Definition get_rng_state_all (st : Cuda) : res (list nat * Cuda) :=
  foldM (λ '(results, st) i,
           '(t, st) ← get_rng_state (DevInt i) st;
           Ok (results ++ [t], st))
    (seq 0 (device_count st)) ([], st).

Definition set_rng_state_offset (offset : Z) (device : device_arg) (st : Cuda)
  : res Cuda :=
  final_device ← get_device device;
  _lazy_call (cb_set_rng_state_offset offset final_device) Plain st.

(** [for i, state in enumerate(new_states)] *)
Definition set_rng_state_all (new_states : list nat) (st : Cuda) : res Cuda :=
  foldM (λ st '(i, state), set_rng_state state (DevInt i) st)
    (imap pair new_states) st.

(** [seed = int(seed)] is the identity on an integer argument. *)
Definition manual_seed (seed : Z) (st : Cuda) : res Cuda :=
  _lazy_call (cb_manual_seed seed) Seed st.

Definition manual_seed_all (seed : Z) (st : Cuda) : res Cuda :=
  _lazy_call (cb_manual_seed_all seed) SeedAll st.

Definition seed (st : Cuda) : res Cuda :=
  _lazy_call cb_seed Plain st.

Definition seed_all (st : Cuda) : res Cuda :=
  _lazy_call cb_seed_all Plain st.

Definition initial_seed (st : Cuda) : res (Z * Cuda) :=
  st ← _lazy_init st;
  s ← generator_initial_seed (current_device st) st;
  Ok (s, st).

End with_device_parser.

(** A program state is well formed when the initialisation gate has only
    been passed with at least one device present. *)
Definition wf (st : Cuda) : Prop :=
  initialized st = true → device_count st ≠ 0%nat.

(** What a program can observe of the devices: everything but the queue
    of deferred calls. *)
Definition same_devices (st st' : Cuda) : Prop :=
  initialized st' = initialized st
  ∧ default_generators st' = default_generators st
  ∧ cur_device st' = cur_device st
  ∧ tensors st' = tensors st
  ∧ entropy st' = entropy st
  ∧ draws st' = draws st.

(** The caller overwrites the contents of the tensor [t]. *)
Definition mutate_tensor (t : nat) (bytes : list byte) (st : Cuda) : Cuda :=
  set_tensors (<[t := bytes]> (tensors st)) st.

End CudaRandom.

(** ** A reference instance of the float runtime

    Exact rational arithmetic.  It agrees with binary64 on the values used
    in the examples of this file (small dyadic rationals), where no rounding
    occurs.  [float()] is covered for plain decimal literals: optional sign,
    digits, optional fraction. *)

Module RationalRuntime.

Fixpoint fraction (s : string) (num : Z) (den : positive) : option Q :=
  match s with
  | EmptyString => Some (Qred (num # den))
  | String c s' =>
      if PyStr.is_digit c
      then fraction s' (10 * num + PyStr.digit_val c) (10 * den)
      else None
  end.

Fixpoint decimal (s : string) (seen : bool) (acc : Z) : option Q :=
  match s with
  | EmptyString => if seen then Some (inject_Z acc) else None
  | String c s' =>
      if PyStr.is_digit c then decimal s' true (10 * acc + PyStr.digit_val c)
      else if Ascii.eqb c "." then
        if seen || PyStr.truthy s' then fraction s' acc 1 else None
      else None
  end.

Definition parse (s : string) : option Q :=
  match PyStr.numeral s with
  | String "+" t => decimal t false 0
  | String "-" t => Qopp <$> decimal t false 0
  | t => decimal t false 0
  end.

Definition Q_eqb (a b : Q) : bool :=
  (Qnum a =? Qnum b)%Z && (Qden a =? Qden b)%positive.

Lemma Q_eqb_eq a b : Q_eqb a b = true ↔ a = b.
Proof.
  destruct a as [an ad], b as [bn bd]. unfold Q_eqb. cbn.
  rewrite andb_true_iff, Z.eqb_eq, Pos.eqb_eq. split.
  - by intros [-> ->].
  - intros [= -> ->]. done.
Qed.

#[local] Instance Q_eq_dec : EqDecision Q := λ a b,
  match Q_eqb a b as c return (c = true ↔ a = b) → Decision (a = b) with
  | true => λ E, left (proj1 E eq_refl)
  | false => λ E, right (λ Hab, Bool.diff_false_true (proj2 E Hab))
  end (Q_eqb_eq a b).

#[export] Instance runtime : FloatRuntime := {|
  float := Q;
  fzero := 0%Q;
  fadd := λ a b, Qred (a + b);
  float_of_int := λ z, Some (inject_Z z);
  float_int_value := λ q, if (Qden (Qred q) =? 1)%positive
                          then Some (Qnum (Qred q)) else None;
  float_is_nan := λ _, false;
  py_float := parse;
|}.

End RationalRuntime.

(** * Proofs *)

Import UploadTestStats.

(** ** The job id of a report *)

Section job_id.

Lemma digit_not_space c :
  PyStr.is_digit c = true → PyStr.is_numeral_space c = false.
Proof. destruct c as [[] [] [] [] [] [] [] []]; vm_compute; congruence. Qed.

Lemma digit_not_underscore c : PyStr.is_digit c = true → Ascii.eqb c "_" = false.
Proof. destruct c as [[] [] [] [] [] [] [] []]; vm_compute; congruence. Qed.

Lemma lskip_digits s : all_digits s = true → PyStr.lskip s = s.
Proof.
  destruct s as [|c s]; [done|]. simpl. intros [Hc _]%andb_prop.
  by rewrite (digit_not_space _ Hc).
Qed.

Lemma rskip_digits s : all_digits s = true → PyStr.rskip s = s.
Proof.
  induction s as [|c s IH]; [done|]. simpl. intros [Hc Hs]%andb_prop.
  rewrite (IH Hs), (digit_not_space _ Hc). by destruct s.
Qed.

Lemma numeral_digits s : all_digits s = true → PyStr.numeral s = s.
Proof.
  intros Hs. unfold PyStr.numeral. by rewrite (lskip_digits _ Hs), rskip_digits.
Qed.

(** Horner accumulation against positional weights. *)
Lemma int_digits_value s prev acc :
  all_digits s = true → (prev = true ∨ s ≠ "") →
  PyStr.int_digits s prev acc
  = Some (acc * 10 ^ Z.of_nat (String.length s) + decimal_value s).
Proof.
  revert prev acc. induction s as [|c s IH]; intros prev acc Hs Hne.
  - destruct Hne as [-> | ?]; [|done]. simpl. f_equal. lia.
  - simpl in Hs. apply andb_prop in Hs as [Hc Hs].
    cbn [PyStr.int_digits]. rewrite Hc.
    rewrite (IH true _ Hs (or_introl eq_refl)). f_equal.
    cbn [String.length decimal_value].
    rewrite Nat2Z.inj_succ, Z.pow_succ_r by lia. lia.
Qed.

Lemma py_int_digits s :
  all_digits s = true → s ≠ "" → PyStr.py_int s = Some (decimal_value s).
Proof.
  intros Hs Hne. unfold PyStr.py_int. rewrite (numeral_digits _ Hs).
  destruct s as [|c s]; [done|].
  assert (Hc : PyStr.is_digit c = true) by (simpl in Hs; by apply andb_prop in Hs as [? _]).
  assert (E : PyStr.int_digits (String c s) false 0 = Some (decimal_value (String c s))).
  { rewrite (int_digits_value _ false 0 Hs (or_intror Hne)). f_equal; lia. }
  clear Hs Hne. revert Hc E.
  destruct c as [[] [] [] [] [] [] [] []]; intros Hc E;
    try (vm_compute in Hc; discriminate); exact E.
Qed.

Lemma rpartition_aux_none sep s :
  (∀ c, Ascii.eqb c sep = true → ¬ (∃ a b, s = a +:+ String c b)) →
  PyStr.rpartition_aux sep s = None.
Proof.
  induction s as [|c s IH]; [done|]. intros Hno. simpl.
  rewrite IH.
  - destruct (Ascii.eqb c sep) eqn:E; [|done].
    exfalso. apply (Hno c E). by exists "", s.
  - intros c' E [a [b ->]]. apply (Hno c' E). by exists (String c a), b.
Qed.

Lemma rpartition_aux_digits s :
  all_digits s = true → PyStr.rpartition_aux "_" s = None.
Proof.
  induction s as [|c s IH]; [done|]. simpl. intros [Hc Hs]%andb_prop.
  by rewrite (IH Hs), (digit_not_underscore _ Hc).
Qed.

Lemma rpartition_last p d :
  all_digits d = true → PyStr.rpartition "_" (p +:+ "_" +:+ d) = (p, "_", d).
Proof.
  intros Hd. unfold PyStr.rpartition.
  assert (PyStr.rpartition_aux "_" (p +:+ "_" +:+ d) = Some (p, d)) as ->; [|done].
  induction p as [|c p IH]; simpl.
  - change ("" +:+ d) with d. by rewrite (rpartition_aux_digits _ Hd).
  - by rewrite IH.
Qed.

Lemma get_job_id_digits p d rest :
  all_digits d = true → d ≠ "" →
  get_job_id ((p +:+ "_" +:+ d) :: rest) = Ok (decimal_value d).
Proof.
  intros Hd Hne. unfold get_job_id, parts. cbn [lookup list_lookup].
  simpl. rewrite (rpartition_last _ _ Hd). simpl.
  by rewrite (py_int_digits _ Hd Hne).
Qed.

Context `{FloatRuntime}.
Context (ET_parse : Path → res Element).
Context (is_rerun_disabled_tests : Element → bool).

Lemma parse_xml_report_ok tag report workflow_id workflow_run_attempt root :
  ET_parse report = Ok root →
  ∃ cases,
    parse_xml_report ET_parse is_rerun_disabled_tests tag report
      workflow_id workflow_run_attempt = Ok cases
    ∧ Forall (λ case : gmap string val,
        case !! "job_id"
        = Some (match get_job_id report with
                | Ok j => VInt j
                | Raise _ => VNone
                end)) cases
    ∧ (is_rerun_disabled_tests root = false →
       length cases = length (iter tag root)).
Proof.
  intros Hroot. unfold parse_xml_report. rewrite Hroot. cbn.
  destruct (is_rerun_disabled_tests root).
  - eexists. split; [done|]. split; [constructor | done].
  - eexists. split; [done|]. split; [|by rewrite length_map].
    apply Forall_map, Forall_forall. intros test_case _. cbn.
    rewrite lookup_insert_ne by done. by rewrite lookup_insert_eq.
Qed.

(** C5. When extracting the job id raises, [parse_xml_report] still
    returns the test cases of the report, each with [job_id] set to
    [None]; when the first path component ends in an underscore followed
    by a decimal numeral, the job id is the integer the numeral denotes,
    and it is what every returned test case carries. *)
Theorem parse_xml_report_job_id tag report workflow_id workflow_run_attempt :
  (∀ e root,
     get_job_id report = Raise e → ET_parse report = Ok root →
     ∃ cases,
       parse_xml_report ET_parse is_rerun_disabled_tests tag report
         workflow_id workflow_run_attempt = Ok cases
       ∧ Forall (λ case : gmap string val, case !! "job_id" = Some VNone) cases
       ∧ (is_rerun_disabled_tests root = false →
          length cases = length (iter tag root)))
  ∧ (∀ p d rest,
       report = (p +:+ "_" +:+ d) :: rest → all_digits d = true → d ≠ "" →
       get_job_id report = Ok (decimal_value d)
       ∧ ∀ root, ET_parse report = Ok root →
           ∃ cases,
             parse_xml_report ET_parse is_rerun_disabled_tests tag report
               workflow_id workflow_run_attempt = Ok cases
             ∧ Forall (λ case : gmap string val,
                 case !! "job_id" = Some (VInt (decimal_value d))) cases).
Proof.
  split.
  - intros e root Hjob Hroot.
    destruct (parse_xml_report_ok tag report workflow_id workflow_run_attempt
                root Hroot) as (cases & Hrun & Hall & Hlen).
    rewrite Hjob in Hall. eauto.
  - intros p d rest -> Hd Hne.
    pose proof (get_job_id_digits p d rest Hd Hne) as Hjob.
    split; [done|]. intros root Hroot.
    destruct (parse_xml_report_ok tag _ workflow_id workflow_run_attempt
                root Hroot) as (cases & Hrun & Hall & _).
    rewrite Hjob in Hall. eauto.
Qed.

End job_id.

Lemma parse_xml_report_job_id_witness :
  let ET_parse := λ _ : Path,
    Ok (mkElement "testsuite" ∅ None None
          [mkElement "testcase" {[ "name" := "test_foo" ]} None None []]) in
  (∃ cases,
     parse_xml_report (H := RationalRuntime.runtime) ET_parse (λ _, false)
       "testcase" ["reports"; "foo"; "TEST-foo.xml"] (VInt 7) (VInt 1) = Ok cases
     ∧ Forall (λ case : gmap string val, case !! "job_id" = Some VNone) cases
     ∧ length cases = 1%nat)
  ∧ get_job_id ["unzipped-test-reports-foo_5596745227"; "foo"; "TEST-foo.xml"]
    = Ok 5596745227.
Proof.
  intros ET_parse. split.
  - destruct (parse_xml_report_job_id (H := RationalRuntime.runtime) ET_parse
                (λ _, false) "testcase" ["reports"; "foo"; "TEST-foo.xml"]
                (VInt 7) (VInt 1)) as [Hfail _].
    destruct (Hfail ValueError _ eq_refl eq_refl) as (cases & Hrun & Hall & Hlen).
    exists cases. split; [exact Hrun|]. split; [exact Hall|].
    exact (Hlen eq_refl).
  - destruct (parse_xml_report_job_id (H := RationalRuntime.runtime) ET_parse
                (λ _, false) "testcase"
                ["unzipped-test-reports-foo_5596745227"; "foo"; "TEST-foo.xml"]
                (VInt 7) (VInt 1)) as [_ Hdigits].
    destruct (Hdigits "unzipped-test-reports-foo" "5596745227" ["foo"; "TEST-foo.xml"]
                eq_refl eq_refl) as [Hjob _]; [discriminate|].
    exact Hjob.
Defined.

(** ** The report parser *)

Section parser.
Context `{FloatRuntime}.

Lemma process_xml_element_unfold e :
  process_xml_element e
  = fold_left add_child
      (map (λ child, (tag child, process_xml_element child)) (children e))
      (element_base e).
Proof. by destruct e. Qed.

(** What the two conversions leave, by cases on the parsers. *)
Lemma coerce_cases v :
  coerce v = match py_float v, PyStr.py_int v with
             | Some f, _ => VFloat f
             | None, Some z => VInt z
             | None, None => VStr v
             end.
Proof. unfold coerce. by destruct (py_float v), (PyStr.py_int v). Qed.

Lemma add_child_lookup_ne ret c k :
  c.1 ≠ k → add_child ret c !! k = ret !! k.
Proof.
  intros Hne. unfold add_child.
  destruct (ret !! c.1); by rewrite lookup_insert_ne.
Qed.

Lemma add_child_is_Some ret c k :
  is_Some (ret !! k) → is_Some (add_child ret c !! k).
Proof.
  intros Hk. destruct (decide (c.1 = k)) as [<-|Hne].
  - unfold add_child. destruct (ret !! c.1); rewrite lookup_insert_eq; eauto.
  - by rewrite add_child_lookup_ne.
Qed.

Lemma fold_add_child_lookup_ne cs ret k :
  k ∉ cs.*1 → fold_left add_child cs ret !! k = ret !! k.
Proof.
  revert ret. induction cs as [|c cs IH]; intros ret Hk; [done|].
  apply not_elem_of_cons in Hk as [Hc Hcs]. cbn.
  rewrite (IH _ Hcs). by apply add_child_lookup_ne.
Qed.

Lemma fold_add_child_is_Some cs ret k :
  is_Some (ret !! k) → is_Some (fold_left add_child cs ret !! k).
Proof.
  revert ret. induction cs as [|c cs IH]; intros ret Hk; [done|].
  cbn. by apply IH, add_child_is_Some.
Qed.

(** The value that successive children with one tag build up, starting
    from what the mapping already holds under that tag. *)
Fixpoint merged (seen : option val) (cs : list (gmap string val)) : option val :=
  match cs with
  | [] => seen
  | c :: cs' =>
      merged (Some match seen with
                   | None => VDict c
                   | Some (VList l) => VList (l ++ [VDict c])
                   | Some old => VList ([old] ++ [VDict c])
                   end) cs'
  end.

Lemma add_child_lookup_eq ret c :
  add_child ret c !! c.1 = merged (ret !! c.1) [c.2].
Proof.
  unfold add_child. cbn. destruct (ret !! c.1) as [old|]; rewrite lookup_insert_eq; [|done].
  by destruct old.
Qed.

Lemma fold_add_child_lookup cs ret k :
  fold_left add_child cs ret !! k
  = merged (ret !! k) (filter (λ c, c.1 = k) cs).*2.
Proof.
  revert ret. induction cs as [|c cs IH]; intros ret; [done|].
  cbn [fold_left]. rewrite IH, filter_cons.
  destruct (decide (c.1 = k)) as [<-|Hne].
  - by rewrite add_child_lookup_eq.
  - by rewrite add_child_lookup_ne.
Qed.

Lemma merged_list l cs :
  merged (Some (VList l)) cs = Some (VList (l ++ (VDict <$> cs))).
Proof.
  revert l. induction cs as [|c cs IH]; intros l; cbn.
  - by rewrite app_nil_r.
  - rewrite IH. by rewrite <- app_assoc.
Qed.

Lemma merged_fresh_one c : merged None [c] = Some (VDict c).
Proof. done. Qed.

Lemma merged_fresh_many c1 c2 cs :
  merged None (c1 :: c2 :: cs) = Some (VList (VDict <$> c1 :: c2 :: cs)).
Proof. cbn. by rewrite merged_list. Qed.

Lemma filter_children_tags (t : string) cs :
  (filter (λ c : string * gmap string val, c.1 = t)
     (map (λ child, (tag child, process_xml_element child)) cs)).*2
  = process_xml_element <$> filter (λ c, tag c = t) cs.
Proof.
  induction cs as [|c cs IH]; [done|].
  cbn [map]. rewrite !filter_cons. cbn [fst].
  destruct (decide (tag c = t)); cbn; by rewrite IH.
Qed.

Lemma children_tags cs :
  (map (λ child, (tag child, process_xml_element child)) cs).*1 = tag <$> cs.
Proof. induction cs as [|c cs IH]; [done|]. cbn. by rewrite IH. Qed.

Lemma element_base_attrib e k v :
  attrib e !! k = Some v →
  ¬ (k = "text" ∧ nonblank (text e) = true) →
  ¬ (k = "tail" ∧ nonblank (tail e) = true) →
  element_base e !! k = Some (coerce v).
Proof.
  intros Hk Htext Htail. unfold element_base.
  assert ((coerce <$> attrib e) !! k = Some (coerce v)) as Hbase
    by (by rewrite lookup_fmap, Hk).
  destruct (nonblank (text e)) eqn:Etext, (nonblank (tail e)) eqn:Etail;
    rewrite ?lookup_insert_ne; try done; naive_solver.
Qed.

Lemma element_base_is_Some e k v :
  attrib e !! k = Some v → is_Some (element_base e !! k).
Proof.
  intros Hk. unfold element_base.
  assert (is_Some ((coerce <$> attrib e) !! k)) as Hbase
    by (rewrite lookup_fmap, Hk; eauto).
  destruct (nonblank (text e)), (nonblank (tail e)); try done;
    repeat (apply lookup_insert_is_Some'; right); done.
Qed.

(** C1, amended.  The returned mapping has a key for every attribute.  An
    attribute whose name is not taken over by the inner text, the tail or
    a child element maps to its converted value: the float when [float()]
    accepts the string, else the integer when [int()] accepts it, else the
    string itself. *)
Theorem process_xml_element_attributes e k v :
  attrib e !! k = Some v →
  is_Some (process_xml_element e !! k)
  ∧ (¬ (k = "text" ∧ nonblank (text e) = true) →
     ¬ (k = "tail" ∧ nonblank (tail e) = true) →
     k ∉ tag <$> children e →
     process_xml_element e !! k
     = Some match py_float v, PyStr.py_int v with
            | Some f, _ => VFloat f
            | None, Some z => VInt z
            | None, None => VStr v
            end).
Proof.
  intros Hk. rewrite process_xml_element_unfold. split.
  - eapply fold_add_child_is_Some, element_base_is_Some, Hk.
  - intros Htext Htail Hchild.
    rewrite fold_add_child_lookup_ne by (by rewrite children_tags).
    rewrite <- coerce_cases. by apply element_base_attrib.
Qed.

(** C3, amended.  For a tag that is not already a key of the mapping when
    the children are visited (no attribute has that name, and it is not
    the key of the inner text or of the tail): two or more children with
    the tag give the list of the converted children in document order, and
    exactly one child gives its converted mapping itself. *)
Theorem process_xml_element_children e t :
  element_base e !! t = None →
  (∀ c, filter (λ c, tag c = t) (children e) = [c] →
        process_xml_element e !! t = Some (VDict (process_xml_element c)))
  ∧ (∀ c1 c2 cs, filter (λ c, tag c = t) (children e) = c1 :: c2 :: cs →
        process_xml_element e !! t
        = Some (VList ((λ c, VDict (process_xml_element c)) <$> c1 :: c2 :: cs))).
Proof.
  intros Hbase. rewrite process_xml_element_unfold, fold_add_child_lookup.
  rewrite Hbase, filter_children_tags. split.
  - by intros c ->.
  - intros c1 c2 cs ->. rewrite fmap_cons, fmap_cons, merged_fresh_many.
    by rewrite <- !fmap_cons, <- list_fmap_compose.
Qed.

End parser.

(** Values over the reference runtime, for the concrete instances below. *)
Definition rational_float (q : Q) : val (H := RationalRuntime.runtime) :=
  VAtom (H := RationalRuntime.runtime) (AFloat (H := RationalRuntime.runtime) q).

Lemma process_xml_element_attributes_witness :
  let e := mkElement "testcase" {[ "name" := "test_foo"; "time" := "0.5" ]}
             None None [mkElement "skipped" ∅ None None []] in
  process_xml_element (H := RationalRuntime.runtime) e !! "time"
  = Some (rational_float (1 # 2)).
Proof.
  intros e.
  destruct (process_xml_element_attributes (H := RationalRuntime.runtime)
              e "time" "0.5" eq_refl) as [_ Hval].
  rewrite Hval.
  - reflexivity.
  - intros [Hk _]. discriminate Hk.
  - intros [Hk _]. discriminate Hk.
  - intros Hin%list_elem_of_In. destruct Hin as [Hin|[]]. discriminate Hin.
Defined.

(** C1 as stated fails: the inner text takes the key of an attribute named
    [text]. *)
Lemma process_xml_element_attributes_counterexample :
  let e := mkElement "testcase" {[ "text" := "5" ]} (Some "hello") None [] in
  attrib e !! "text" = Some "5"
  ∧ py_float (FloatRuntime := RationalRuntime.runtime) "5" = Some 5%Q
  ∧ process_xml_element (H := RationalRuntime.runtime) e !! "text"
    = Some (VStr "hello")
  ∧ Some (VStr "hello") ≠ Some (rational_float 5).
Proof. repeat split; discriminate. Qed.

Lemma process_xml_element_children_witness :
  let foo1 := mkElement "foo" ∅ (Some "hello") None [] in
  let foo2 := mkElement "foo" ∅ (Some "world") None [] in
  let bar := mkElement "bar" ∅ (Some "another") None [] in
  let e := mkElement "testcase" ∅ None None [foo1; foo2; bar] in
  process_xml_element (H := RationalRuntime.runtime) e !! "foo"
  = Some (VList [VDict {[ "text" := VStr "hello" ]}; VDict {[ "text" := VStr "world" ]}])
  ∧ process_xml_element (H := RationalRuntime.runtime) e !! "bar"
    = Some (VDict {[ "text" := VStr "another" ]}).
Proof.
  intros foo1 foo2 bar e.
  destruct (process_xml_element_children (H := RationalRuntime.runtime) e "foo"
              eq_refl) as [_ Hmany].
  destruct (process_xml_element_children (H := RationalRuntime.runtime) e "bar"
              eq_refl) as [Hone _].
  split.
  - exact (Hmany foo1 foo2 [] eq_refl).
  - exact (Hone bar eq_refl).
Defined.

(** C3 as stated fails: an attribute with the name of the only child of
    that tag turns the entry into a list that starts with the attribute. *)
Lemma process_xml_element_children_counterexample :
  let foo := mkElement "foo" ∅ None None [] in
  let e := mkElement "testcase" {[ "foo" := "x" ]} None None [foo] in
  filter (λ c, tag c = "foo") (children e) = [foo]
  ∧ process_xml_element (H := RationalRuntime.runtime) e !! "foo"
    = Some (VList [VStr "x"; VDict ∅])
  ∧ Some (VList [VStr "x"; VDict ∅])
    ≠ Some (VDict (process_xml_element (H := RationalRuntime.runtime) foo)).
Proof. repeat split; discriminate. Qed.

(** ** Exceptions and loops *)

Lemma bind_Ok {A B} (m : res A) (k : A → res B) b :
  m ≫= k = Ok b → ∃ a, m = Ok a ∧ k a = Ok b.
Proof. destruct m as [a|e]; [by exists a | done]. Qed.

Lemma foldM_app {A B} (body : B → A → res B) l1 l2 acc :
  foldM body (l1 ++ l2) acc = foldM body l1 acc ≫= foldM body l2.
Proof.
  revert acc. induction l1 as [|x l1 IH]; intros acc; [done|].
  cbn. destruct (body acc x); [apply IH | done].
Qed.

Lemma foldM_Ok_Forall {A B} (body : B → A → res B) (P : A → Prop) l acc r :
  (∀ acc x acc', body acc x = Ok acc' → P x) →
  foldM body l acc = Ok r → Forall P l.
Proof.
  intros Hbody. revert acc. induction l as [|x l IH]; intros acc Hrun; [constructor|].
  cbn in Hrun. apply bind_Ok in Hrun as (acc' & Hx & Hrest).
  constructor; [by eapply Hbody | by eapply IH].
Qed.

Lemma res_bind_Ok {A B} (a : A) (k : A → res B) : Ok a ≫= k = k a.
Proof. reflexivity. Qed.

Lemma res_bind_Raise {A B} e (k : A → res B) : Raise e ≫= k = Raise e.
Proof. reflexivity. Qed.

(** ** Insertion-ordered dictionaries *)

Section odict_lemmas.
Context {K V : Type} `{EqDecision K}.
Implicit Types (ks : list K) (g : K → V).

Lemma od_tabulate_cons k ks g :
  od_tabulate (k :: ks) g = (k, g k) :: od_tabulate ks g.
Proof. done. Qed.

Lemma od_tabulate_snoc k ks g :
  od_tabulate (ks ++ [k]) g = od_tabulate ks g ++ [(k, g k)].
Proof. unfold od_tabulate. by rewrite fmap_app. Qed.

Lemma od_get_tabulate k ks g :
  od_get k (od_tabulate ks g) = if decide (k ∈ ks) then Some (g k) else None.
Proof.
  induction ks as [|k' ks IH]; [done|]. rewrite od_tabulate_cons. cbn [od_get].
  destruct (decide (k = k')) as [->|Hne].
  - by rewrite decide_True by left.
  - rewrite IH. destruct (decide (k ∈ ks)) as [Hin|Hin].
    + by rewrite decide_True by (by right).
    + rewrite decide_False; [done|]. by intros [?|?]%elem_of_cons.
Qed.

Lemma od_tabulate_ext ks g g' :
  (∀ k, k ∈ ks → g k = g' k) → od_tabulate ks g = od_tabulate ks g'.
Proof.
  intros Hg. apply list_fmap_ext. intros i k Hk.
  by rewrite (Hg k) by (by eapply list_elem_of_lookup_2).
Qed.

Lemma od_set_tabulate_notin k v ks g :
  k ∉ ks → od_set k v (od_tabulate ks g) = od_tabulate (ks ++ [k]) (<[k := v]> g).
Proof.
  induction ks as [|k' ks IH]; intros Hk.
  - cbn. by rewrite fn_lookup_insert.
  - apply not_elem_of_cons in Hk as [Hne Hk].
    rewrite <- app_comm_cons, !od_tabulate_cons. cbn [od_set].
    rewrite decide_False by done. rewrite fn_lookup_insert_ne by done.
    f_equal. by apply IH.
Qed.

Lemma od_set_tabulate_in k v ks g :
  k ∈ ks → NoDup ks → od_set k v (od_tabulate ks g) = od_tabulate ks (<[k := v]> g).
Proof.
  induction ks as [|k' ks IH]; intros Hk Hnd; [by apply elem_of_nil in Hk|].
  apply NoDup_cons in Hnd as [Hk' Hnd].
  rewrite !od_tabulate_cons. cbn [od_set].
  destruct (decide (k = k')) as [->|Hne].
  - rewrite fn_lookup_insert. f_equal. apply od_tabulate_ext.
    intros k Hin. rewrite fn_lookup_insert_ne; [done|]. by intros ->.
  - rewrite fn_lookup_insert_ne by done. f_equal. apply IH; [|done].
    by apply elem_of_cons in Hk as [?|?].
Qed.

Lemma od_values_tabulate ks g : od_values (od_tabulate ks g) = g <$> ks.
Proof.
  unfold od_values, od_tabulate. rewrite <- list_fmap_compose.
  by apply list_fmap_ext.
Qed.

Lemma first_occurrences_snoc (l : list K) k :
  first_occurrences (l ++ [k])
  = if decide (k ∈ first_occurrences l)
    then first_occurrences l else first_occurrences l ++ [k].
Proof. unfold first_occurrences. by rewrite fold_left_app. Qed.

Lemma elem_of_first_occurrences (l : list K) k :
  k ∈ first_occurrences l ↔ k ∈ l.
Proof.
  induction l as [|x l IH] using rev_ind; [done|].
  rewrite first_occurrences_snoc, elem_of_app, list_elem_of_singleton, <- IH.
  destruct (decide (x ∈ first_occurrences l)) as [Hx|Hx].
  - split; [by left|]. by intros [?| ->].
  - by rewrite elem_of_app, list_elem_of_singleton.
Qed.

Lemma NoDup_first_occurrences (l : list K) : NoDup (first_occurrences l).
Proof.
  induction l as [|x l IH] using rev_ind; [constructor|].
  rewrite first_occurrences_snoc.
  destruct (decide (x ∈ first_occurrences l)) as [Hx|Hx]; [done|].
  apply NoDup_app. split; [done|]. split; [|apply NoDup_singleton].
  intros y Hy ->%list_elem_of_singleton. done.
Qed.

Lemma od_get_od_set (k k' : K) (v : V) d :
  od_get k' (od_set k v d) = if decide (k' = k) then Some v else od_get k' d.
Proof.
  induction d as [|[k0 v0] d IH]; cbn.
  - by destruct (decide (k' = k)).
  - destruct (decide (k = k0)) as [->|Hne]; cbn.
    + by destruct (decide (k' = k0)).
    + destruct (decide (k' = k0)) as [->|Hne'].
      * by rewrite decide_False by done.
      * apply IH.
Qed.

Lemma od_set_od_set (k : K) (v v' : V) d : od_set k v (od_set k v' d) = od_set k v d.
Proof.
  induction d as [|[k0 v0] d IH]; cbn.
  - by rewrite decide_True.
  - destruct (decide (k = k0)) as [->|Hne]; cbn.
    + by rewrite decide_True.
    + rewrite decide_False by done. by rewrite IH.
Qed.

Lemma od_get_values (k : K) (v : V) d : od_get k d = Some v → v ∈ od_values d.
Proof.
  induction d as [|[k0 v0] d IH]; [done|]. cbn.
  destruct (decide (k = k0)); [intros [= ->]; left | intros ?; right; auto].
Qed.

Lemma od_set_Forall (P : V → Prop) (k : K) (v : V) d :
  P v → Forall P (od_values d) → Forall P (od_values (od_set k v d)).
Proof.
  intros Hv. induction d as [|[k' v'] d IH]; intros Hd.
  - by repeat constructor.
  - apply Forall_cons in Hd as [Hv' Hd]. cbn.
    destruct (decide (k = k')); cbn; constructor; auto.
Qed.

End odict_lemmas.

(** ** The aggregators *)

Section aggregators.
Context `{FloatRuntime}.
Implicit Types (tc : gmap string val) (tcs : list (gmap string val)).

Lemma count_snoc {A} (p : A → bool) l x :
  count p (l ++ [x]) = count p l + (if p x then 1 else 0).
Proof.
  unfold count. rewrite filter_app, length_app, filter_cons, filter_nil.
  destruct (p x); [rewrite decide_True by done | rewrite decide_False by done];
    cbn; lia.
Qed.

Lemma count_cons {A} (p : A → bool) x l :
  count p (x :: l) = (if p x then 1 else 0) + count p l.
Proof.
  unfold count. rewrite filter_cons.
  destruct (p x); [rewrite decide_True by done | rewrite decide_False by done];
    cbn [length]; lia.
Qed.

Lemma filter_none {A} (P : A → Prop) `{∀ x, Decision (P x)} (l : list A) :
  (∀ x, x ∈ l → ¬ P x) → filter P l = [].
Proof.
  induction l as [|x l IH]; intros Hl; [done|].
  rewrite filter_cons_False by (apply Hl; left).
  apply IH. intros y Hy. apply Hl. by right.
Qed.

Lemma total_time_snoc group tc :
  total_time (group ++ [tc]) = fadd (total_time group) (time_of tc).
Proof. unfold total_time. by rewrite fold_left_app. Qed.

(** *** Addition and the update of a field *)

(** [x + t] for a float [x] and the [time] of a record. *)
Lemma py_add_float x tc t :
  tc !! "time" = Some t →
  py_add (VFloat x) t
  = if is_addend t then Ok (VFloat (fadd x (time_of tc)))
    else Raise (if is_number t then OverflowError else TypeError).
Proof.
  intros Htc. unfold time_of. rewrite Htc.
  destruct t as [[|z|f|s]| |]; try done.
  cbn. unfold int_to_float. destruct (float_of_int z) as [y|] eqn:Hz.
  - by rewrite bool_decide_eq_true_2 by eauto.
  - rewrite bool_decide_eq_false_2; [done|]. by intros [??].
Qed.

Lemma py_add_time x t :
  is_addend t = true →
  ∀ tc, tc !! "time" = Some t →
  py_add (VFloat x) t = Ok (VFloat (fadd x (time_of tc))).
Proof. intros Ht tc Htc. by rewrite (py_add_float x tc t Htc), Ht. Qed.

Lemma od_iadd_run {K} `{EqDecision K} (key : K) field x
    (ret : list (K * gmap string val)) entry old :
  od_get key ret = Some entry → entry !! field = Some old →
  od_iadd key field x ret
  = new ← py_add old x; Ok (od_set key (<[field := new]> entry) ret).
Proof.
  intros Hentry Hold. unfold od_iadd, od_getitem, getitem.
  by rewrite Hentry, res_bind_Ok, Hold.
Qed.

(** The sum of an integer field over a list of records. *)
Definition field_sum (field : string) (records : list (gmap string val)) : Z :=
  foldr (λ record acc, match record !! field with
                       | Some (VInt z) => z + acc
                       | _ => acc
                       end) 0 records.

Definition int_field (record : gmap string val) (field : string) : Z :=
  match record !! field with
  | Some (VInt z) => z
  | _ => 0
  end.

Lemma field_sum_cons field record records :
  field_sum field (record :: records)
  = int_field record field + field_sum field records.
Proof.
  unfold field_sum, int_field. cbn [foldr].
  destruct (record !! field) as [[[]| |]|]; lia.
Qed.

Lemma field_sum_od_set {K} `{EqDecision K} field (key : K) v
    (ret : list (K * gmap string val)) :
  field_sum field (od_values (od_set key v ret))
  = field_sum field (od_values ret) + int_field v field
    - from_option (λ old, int_field old field) 0 (od_get key ret).
Proof.
  induction ret as [|[k0 v0] ret IH].
  - cbn [od_set od_get from_option]. unfold od_values. cbn [fmap list_fmap snd].
    rewrite field_sum_cons. cbn. lia.
  - cbn [od_set od_get]. destruct (decide (key = k0)) as [->|Hne].
    + unfold od_values. cbn [fmap list_fmap snd from_option].
      rewrite !field_sum_cons. lia.
    + unfold od_values in *. cbn [fmap list_fmap snd].
      rewrite !field_sum_cons, IH. lia.
Qed.

(** *** [summarize_test_cases] *)

Section record.
Context (first : gmap string val).
Context (n f e s u : Z) (t : float).

Lemma stc_record_tests : stc_record first n f e s u t !! "tests" = Some (VInt n).
Proof. reflexivity. Qed.
Lemma stc_record_failures : stc_record first n f e s u t !! "failures" = Some (VInt f).
Proof. reflexivity. Qed.
Lemma stc_record_errors : stc_record first n f e s u t !! "errors" = Some (VInt e).
Proof. reflexivity. Qed.
Lemma stc_record_skipped : stc_record first n f e s u t !! "skipped" = Some (VInt s).
Proof. reflexivity. Qed.
Lemma stc_record_successes : stc_record first n f e s u t !! "successes" = Some (VInt u).
Proof. reflexivity. Qed.
Lemma stc_record_time : stc_record first n f e s u t !! "time" = Some (VFloat t).
Proof. reflexivity. Qed.

Lemma stc_record_set_tests n' :
  <["tests" := VInt n']> (stc_record first n f e s u t) = stc_record first n' f e s u t.
Proof. reflexivity. Qed.
Lemma stc_record_set_failures f' :
  <["failures" := VInt f']> (stc_record first n f e s u t) = stc_record first n f' e s u t.
Proof. reflexivity. Qed.
Lemma stc_record_set_errors e' :
  <["errors" := VInt e']> (stc_record first n f e s u t) = stc_record first n f e' s u t.
Proof. reflexivity. Qed.
Lemma stc_record_set_skipped s' :
  <["skipped" := VInt s']> (stc_record first n f e s u t) = stc_record first n f e s' u t.
Proof. reflexivity. Qed.
Lemma stc_record_set_successes u' :
  <["successes" := VInt u']> (stc_record first n f e s u t) = stc_record first n f e s u' t.
Proof. reflexivity. Qed.
Lemma stc_record_set_time t' :
  <["time" := VFloat t']> (stc_record first n f e s u t) = stc_record first n f e s u t'.
Proof. reflexivity. Qed.
End record.

Lemma has_atom_inv (d : gmap string val) k :
  has_atom d k = true → ∃ a, d !! k = Some (VAtom a).
Proof. unfold has_atom. destruct (d !! k) as [[]|]; naive_solver. Qed.

Lemma has_atom_or_nothing_inv (d : gmap string val) k :
  has_atom_or_nothing d k = true → ∃ a, dict_get d k = VAtom a.
Proof.
  unfold has_atom_or_nothing, dict_get.
  destruct (d !! k) as [[]|]; naive_solver.
Qed.

Lemma has_addend_inv (d : gmap string val) k :
  has_addend d k = true → ∃ t, d !! k = Some t ∧ is_addend t = true.
Proof. unfold has_addend. destruct (d !! k); naive_solver. Qed.

(** The key part of [stc_well_formed]. *)
Definition stc_keyed (tc : gmap string val) : bool :=
  forallb (has_atom tc)
    ["job_id"; "workflow_id"; "workflow_run_attempt"; "invoking_file"]
  && forallb (has_atom_or_nothing tc) ["file"; "classname"].

(** What [summarize_test_cases] raises at a test case that is not well
    formed: [KeyError] when one of the four indexed keys is missing,
    [TypeError] when a key field is not hashable, and otherwise at the
    [time] step [KeyError] for a missing [time], [TypeError] for a [time]
    that is not a number and [OverflowError] for an integer beyond the
    range of the floats. *)
Definition stc_error (tc : gmap string val) : exn :=
  if negb (forallb (contains tc)
             ["job_id"; "workflow_id"; "workflow_run_attempt"; "invoking_file"])
  then KeyError
  else if negb (stc_keyed tc) then TypeError
  else match tc !! "time" with
       | None => KeyError
       | Some t => if is_number t then OverflowError else TypeError
       end.

(** The key that a dictionary with [n] keys holds for a test case. *)
Definition stc_key_at (n : nat) (tc : gmap string val)
  : option (option nat * (atom * atom * atom * atom * atom * atom)) :=
  match stc_get_key tc ≫= stc_hash n with
  | Ok k => Some k
  | Raise _ => None
  end.

Lemma stc_hash_keyed n tc :
  match stc_get_key tc ≫= stc_hash n with
  | Ok key => stc_keyed tc = true
              ∧ stc_init_value tc = Ok (stc_record tc 0 0 0 0 0 fzero)
  | Raise e => stc_keyed tc = false ∧ e = stc_error tc
               ∧ ∀ m, stc_get_key tc ≫= stc_hash m = Raise e
  end.
Proof.
  unfold stc_get_key, stc_init_value, stc_keyed, stc_error, stc_keyed,
    stc_record, getitem, dict_get, has_atom, has_atom_or_nothing, contains.
  cbn [forallb].
  destruct (tc !! "job_id") as [v3|]; [|done].
  destruct (tc !! "workflow_id") as [v4|]; [|by cbn; rewrite ?andb_false_r].
  destruct (tc !! "workflow_run_attempt") as [v5|];
    [|by cbn; rewrite ?andb_false_r].
  destruct (tc !! "invoking_file") as [v6|]; [|by cbn; rewrite ?andb_false_r].
  cbn [mbind res_bind stc_hash].
  destruct (tc !! "file") as [[a1| |]|]; cbn;
    destruct (tc !! "classname") as [[a2| |]|]; cbn;
    destruct v3 as [a3| |]; cbn; try (by rewrite ?andb_false_r);
    destruct v4 as [a4| |]; cbn; try (by rewrite ?andb_false_r);
    destruct v5 as [a5| |]; cbn; try (by rewrite ?andb_false_r);
    destruct v6 as [a6| |]; cbn; by rewrite ?andb_false_r.
Qed.

Lemma stc_keyed_contains tc :
  stc_keyed tc = true →
  forallb (contains tc)
    ["job_id"; "workflow_id"; "workflow_run_attempt"; "invoking_file"] = true.
Proof.
  unfold stc_keyed. cbn [forallb]. rewrite !andb_true_iff.
  intros [(H3 & H4 & H5 & H6 & _) _].
  apply has_atom_inv in H3 as [a3 E3], H4 as [a4 E4], H5 as [a5 E5], H6 as [a6 E6].
  unfold contains. rewrite E3, E4, E5, E6. done.
Qed.

Lemma stc_step_key_error ret tc e :
  stc_get_key tc ≫= stc_hash (length ret) = Raise e → stc_step ret tc = Raise e.
Proof.
  unfold stc_step, mbind, res_bind.
  destruct (stc_get_key tc) as [raw|]; [|by intros [= ->]].
  destruct (stc_hash (length ret) raw) as [key|]; [done | by intros [= ->]].
Qed.

(** The entries of the dictionary [ret] are summaries whose [tests] is the
    sum of the four outcome counters. *)
Definition stc_shaped (v : gmap string val) : Prop :=
  ∃ first n f e s u x,
    v = stc_record first n f e s u x ∧ n = f + e + s + u.

(** The counter that a test case increments. *)
Definition stc_outcome (tc : gmap string val) : string :=
  if contains tc "failure" then "failures"
  else if contains tc "error" then "errors"
  else if contains tc "skipped" then "skipped"
  else "successes".

(** What the body of the loop does to the summary [v] of the key of
    [tc]. *)
Definition stc_bump (tc v : gmap string val) : gmap string val :=
  match v !! "time" with
  | Some (VFloat x) =>
      <["time" := VFloat (fadd x (time_of tc))]>
        (<[stc_outcome tc := VInt (int_field v (stc_outcome tc) + 1)]>
           (<["tests" := VInt (int_field v "tests" + 1)]> v))
  | _ => v
  end.

Lemma stc_bump_record tc first n f e s u x :
  stc_bump tc (stc_record first n f e s u x)
  = stc_record first (n + 1)
      (f + Z.b2z (is_failure tc)) (e + Z.b2z (is_error tc))
      (s + Z.b2z (is_skipped tc)) (u + Z.b2z (is_success tc))
      (fadd x (time_of tc)).
Proof.
  unfold stc_bump, stc_outcome, is_failure, is_error, is_skipped, is_success.
  rewrite stc_record_time.
  destruct (contains tc "failure"), (contains tc "error"),
    (contains tc "skipped"); cbn [negb andb Z.b2z]; rewrite ?Z.add_0_r;
    reflexivity.
Qed.

Lemma stc_shaped_bump tc v : stc_shaped v → stc_shaped (stc_bump tc v).
Proof.
  intros (first & n & f & e & s & u & x & -> & Hsum).
  rewrite stc_bump_record. do 7 eexists. split; [reflexivity|].
  unfold is_failure, is_error, is_skipped, is_success.
  destruct (contains tc "failure"), (contains tc "error"),
    (contains tc "skipped"); cbn; lia.
Qed.

Lemma stc_shaped_init tc : stc_shaped (stc_record tc 0 0 0 0 0 fzero).
Proof. by do 7 eexists. Qed.

(** The part of the loop body before the [time] step. *)
Definition stc_pre
    (ret : list (option nat * (atom * atom * atom * atom * atom * atom)
                 * gmap string val))
    (test_case : gmap string val) :=
  key ← stc_get_key test_case;
  key ← stc_hash (length ret) key;
  ret ← match od_get key ret with
        | None => v ← stc_init_value test_case; Ok (od_set key v ret)
        | Some _ => Ok ret
        end;
  ret ← od_iadd key "tests" (VInt 1) ret;
  ret ← (if contains test_case "failure" then od_iadd key "failures" (VInt 1) ret
         else if contains test_case "error" then od_iadd key "errors" (VInt 1) ret
         else if contains test_case "skipped" then od_iadd key "skipped" (VInt 1) ret
         else od_iadd key "successes" (VInt 1) ret);
  Ok (key, ret).

Lemma stc_step_pre ret tc :
  stc_step ret tc
  = p ← stc_pre ret tc; t ← getitem tc "time"; od_iadd p.1 "time" t p.2.
Proof.
  unfold stc_step, stc_pre, mbind, res_bind.
  destruct (stc_get_key tc) as [raw|]; [|reflexivity].
  destruct (stc_hash (length ret) raw) as [key|]; [|reflexivity].
  destruct (match od_get key ret with
            | Some _ => Ok ret
            | None => _
            end) as [ret1|]; [|reflexivity].
  destruct (od_iadd key "tests" (VInt 1) ret1) as [ret2|]; [|reflexivity].
  destruct (if contains tc "failure" then _ else _) as [ret3|]; reflexivity.
Qed.

(** The entry of the key of a test case when its turn comes: the summary
    that the dictionary has for the key, or a new one. *)
Definition stc_entry
    (ret : list (option nat * (atom * atom * atom * atom * atom * atom)
                 * gmap string val))
    (key : option nat * (atom * atom * atom * atom * atom * atom))
    (tc : gmap string val) : gmap string val :=
  default (stc_record tc 0 0 0 0 0 fzero) (od_get key ret).

Lemma stc_entry_shaped ret key tc :
  Forall stc_shaped (od_values ret) → stc_shaped (stc_entry ret key tc).
Proof.
  intros Hret. unfold stc_entry.
  destruct (od_get key ret) as [v|] eqn:Hv; cbn; [|apply stc_shaped_init].
  apply od_get_values in Hv. by eapply Forall_forall in Hret.
Qed.

Lemma stc_pre_run ret tc key :
  stc_get_key tc ≫= stc_hash (length ret) = Ok key →
  Forall stc_shaped (od_values ret) →
  ∃ first n f e s u x,
    stc_entry ret key tc = stc_record first n f e s u x
    ∧ stc_pre ret tc
      = Ok (key, od_set key
                   (stc_record first (n + 1)
                      (f + Z.b2z (is_failure tc)) (e + Z.b2z (is_error tc))
                      (s + Z.b2z (is_skipped tc)) (u + Z.b2z (is_success tc)) x)
                   ret).
Proof.
  intros Hkey Hret.
  pose proof (stc_hash_keyed (length ret) tc) as Hk. rewrite Hkey in Hk.
  destruct Hk as [_ Hinit].
  destruct (stc_entry_shaped ret key tc Hret)
    as (first & n & f & e & s & u & x & Hentry & _).
  exists first, n, f, e, s, u, x. split; [done|].
  unfold stc_pre. apply bind_Ok in Hkey as (raw & -> & Hhash).
  rewrite res_bind_Ok, Hhash, res_bind_Ok.
  set (r0 := stc_record first n f e s u x) in *.
  set (ret1 := match od_get key ret with
               | Some _ => ret
               | None => od_set key r0 ret
               end).
  assert (Hret1 : match od_get key ret with
                  | None => v ← stc_init_value tc; Ok (od_set key v ret)
                  | Some _ => Ok ret
                  end = Ok ret1).
  { unfold ret1, stc_entry in *. destruct (od_get key ret); [done|].
    rewrite Hinit. cbn in Hentry. by rewrite Hentry. }
  assert (Hget1 : od_get key ret1 = Some r0).
  { unfold ret1, stc_entry in *. destruct (od_get key ret) eqn:E.
    - rewrite E. cbn in Hentry. by rewrite Hentry.
    - rewrite od_get_od_set. by rewrite decide_True. }
  assert (Hset1 : ∀ v, od_set key v ret1 = od_set key v ret).
  { intros v. unfold ret1. destruct (od_get key ret); [done|].
    apply od_set_od_set. }
  rewrite Hret1, res_bind_Ok.
  rewrite (od_iadd_run key "tests" _ ret1 r0 (VInt n) Hget1)
    by apply stc_record_tests.
  cbn [py_add atom_add mbind res_bind]. unfold r0.
  rewrite stc_record_set_tests, Hset1.
  set (r1 := stc_record first (n + 1) f e s u x).
  assert (Hget2 : od_get key (od_set key r1 ret) = Some r1)
    by (rewrite od_get_od_set; by rewrite decide_True).
  unfold is_failure, is_error, is_skipped, is_success.
  destruct (contains tc "failure"); [|destruct (contains tc "error");
    [|destruct (contains tc "skipped")]].
  all: cbn [negb andb Z.b2z]; rewrite ?Z.add_0_r.
  - rewrite (od_iadd_run key "failures" _ _ r1 (VInt f) Hget2)
      by apply stc_record_failures.
    cbn [py_add atom_add mbind res_bind]. unfold r1.
    by rewrite stc_record_set_failures, od_set_od_set.
  - rewrite (od_iadd_run key "errors" _ _ r1 (VInt e) Hget2)
      by apply stc_record_errors.
    cbn [py_add atom_add mbind res_bind]. unfold r1.
    by rewrite stc_record_set_errors, od_set_od_set.
  - rewrite (od_iadd_run key "skipped" _ _ r1 (VInt s) Hget2)
      by apply stc_record_skipped.
    cbn [py_add atom_add mbind res_bind]. unfold r1.
    by rewrite stc_record_set_skipped, od_set_od_set.
  - rewrite (od_iadd_run key "successes" _ _ r1 (VInt u) Hget2)
      by apply stc_record_successes.
    cbn [py_add atom_add mbind res_bind]. unfold r1.
    by rewrite stc_record_set_successes, od_set_od_set.
Qed.

(** The body of the loop, for every dictionary that the loop can have
    built and every test case. *)
Lemma stc_step_cases ret tc :
  Forall stc_shaped (od_values ret) →
  if stc_well_formed tc
  then ∃ key,
         stc_key_at (length ret) tc = Some key
         ∧ stc_step ret tc
           = Ok (od_set key (stc_bump tc (stc_entry ret key tc)) ret)
  else stc_step ret tc = Raise (stc_error tc).
Proof.
  intros Hret.
  assert (Hwf : stc_well_formed tc = stc_keyed tc && has_addend tc "time") by done.
  pose proof (stc_hash_keyed (length ret) tc) as Hk.
  destruct (stc_get_key tc ≫= stc_hash (length ret)) as [key|e] eqn:Hkey.
  - destruct Hk as [Hkeyed _]. rewrite Hwf, Hkeyed. cbn [andb].
    destruct (stc_pre_run ret tc key Hkey Hret)
      as (first & n & f & e & s & u & x & Hentry & Hpre).
    rewrite stc_step_pre, Hpre, res_bind_Ok. cbn [fst snd].
    unfold getitem, has_addend, stc_error.
    rewrite (stc_keyed_contains tc Hkeyed), Hkeyed. cbn [negb].
    destruct (tc !! "time") as [t|] eqn:Ht; [|done].
    rewrite res_bind_Ok.
    erewrite od_iadd_run;
      [|rewrite od_get_od_set; by rewrite decide_True|apply stc_record_time].
    rewrite (py_add_float _ tc t Ht).
    destruct (is_addend t); [|done].
    rewrite res_bind_Ok, stc_record_set_time, od_set_od_set.
    exists key. split; [unfold stc_key_at; by rewrite Hkey|].
    by rewrite Hentry, stc_bump_record.
  - destruct Hk as (Hkeyed & -> & _). rewrite Hwf, Hkeyed. cbn [andb].
    by apply stc_step_key_error.
Qed.

Lemma stc_step_shaped ret tc ret' :
  Forall stc_shaped (od_values ret) → stc_step ret tc = Ok ret' →
  stc_well_formed tc = true ∧ Forall stc_shaped (od_values ret').
Proof.
  intros Hret Hstep. pose proof (stc_step_cases ret tc Hret) as Hcases.
  destruct (stc_well_formed tc); [|congruence]. split; [done|].
  destruct Hcases as (key & _ & Hrun). rewrite Hrun in Hstep.
  injection Hstep as <-. apply od_set_Forall; [|done].
  by apply stc_shaped_bump, stc_entry_shaped.
Qed.

(** The sums of the counters over the entries of the dictionary. *)
Definition stc_sums (records : list (gmap string val)) : Z * Z * Z * Z * Z :=
  (field_sum "tests" records, field_sum "failures" records,
   field_sum "errors" records, field_sum "skipped" records,
   field_sum "successes" records).

Definition stc_counts (tcs : list (gmap string val)) : Z * Z * Z * Z * Z :=
  (Z.of_nat (length tcs), count is_failure tcs, count is_error tcs,
   count is_skipped tcs, count is_success tcs).

Lemma stc_step_sums ret tc ret' (n f e s u : Z) :
  Forall stc_shaped (od_values ret) → stc_step ret tc = Ok ret' →
  stc_sums (od_values ret) = (n, f, e, s, u) →
  stc_sums (od_values ret')
  = (n + 1, f + Z.b2z (is_failure tc), e + Z.b2z (is_error tc),
     s + Z.b2z (is_skipped tc), u + Z.b2z (is_success tc)).
Proof.
  intros Hret Hstep Hsums. pose proof (stc_step_cases ret tc Hret) as Hcases.
  destruct (stc_well_formed tc); [|congruence].
  destruct Hcases as (key & _ & Hrun). rewrite Hrun in Hstep.
  injection Hstep as <-.
  unfold stc_sums in *. rewrite !field_sum_od_set.
  injection Hsums as <- <- <- <- <-.
  pose proof (stc_entry_shaped ret key tc Hret) as Hshaped.
  unfold stc_entry in *.
  destruct (od_get key ret) as [r|]; cbn [default from_option id] in *.
  - destruct Hshaped as (first & n0 & f0 & e0 & s0 & u0 & x & Hr & _). subst r.
    rewrite stc_bump_record. unfold int_field.
    rewrite !stc_record_tests, !stc_record_failures, !stc_record_errors,
      !stc_record_skipped, !stc_record_successes.
    repeat (apply pair_equal_spec; split); lia.
  - rewrite stc_bump_record. unfold int_field.
    rewrite !stc_record_tests, !stc_record_failures, !stc_record_errors,
      !stc_record_skipped, !stc_record_successes.
    repeat (apply pair_equal_spec; split); lia.
Qed.

Lemma count_b2z {A} (p : A → bool) l x :
  count p (l ++ [x]) = count p l + Z.b2z (p x).
Proof. rewrite count_snoc. by destruct (p x). Qed.

(** The loop, from any dictionary that it can have built: it returns
    exactly on well-formed test cases, and then the sums of the counters
    have grown by the numbers of test cases with each outcome; otherwise it
    raises what the first test case that is not well formed raises. *)
Lemma stc_fold_cases tcs :
  ∀ ret, Forall stc_shaped (od_values ret) →
  match foldM stc_step tcs ret with
  | Ok ret' =>
      forallb stc_well_formed tcs = true
      ∧ Forall stc_shaped (od_values ret')
      ∧ ∀ n f e s u, stc_sums (od_values ret) = (n, f, e, s, u) →
          stc_sums (od_values ret')
          = (n + Z.of_nat (length tcs), f + count is_failure tcs,
             e + count is_error tcs, s + count is_skipped tcs,
             u + count is_success tcs)
  | Raise err =>
      ∃ good bad rest,
        tcs = good ++ bad :: rest
        ∧ forallb stc_well_formed good = true
        ∧ stc_well_formed bad = false
        ∧ err = stc_error bad
  end.
Proof.
  induction tcs as [|tc tcs IH]; intros ret Hret.
  - cbn. split; [done|]. split; [done|].
    intros n f e s u ->. unfold count. cbn. repeat (apply pair_equal_spec; split); lia.
  - cbn [foldM]. pose proof (stc_step_cases ret tc Hret) as Hcases.
    destruct (stc_well_formed tc) eqn:Hwf.
    + destruct Hcases as (key & _ & Hrun).
      destruct (stc_step_shaped ret tc _ Hret Hrun) as [_ Hret'].
      pose proof (λ n f e s u, stc_step_sums ret tc _ n f e s u Hret Hrun) as Hsum.
      rewrite Hrun, res_bind_Ok. specialize (IH _ Hret').
      destruct (foldM stc_step tcs _) as [ret''|err].
      * destruct IH as (Hwfs & Hshaped & Hsums). cbn [forallb].
        rewrite Hwf, Hwfs. split; [done|]. split; [done|].
        intros n f e s u Hs.
        rewrite (Hsums _ _ _ _ _ (Hsum _ _ _ _ _ Hs)).
        rewrite !count_cons. cbn [length].
        destruct (is_failure tc), (is_error tc), (is_skipped tc),
          (is_success tc); cbn [Z.b2z]; repeat (apply pair_equal_spec; split); lia.
      * destruct IH as (good & bad & rest & -> & Hgood & Hbad & ->).
        exists (tc :: good), bad, rest. cbn [forallb]. by rewrite Hwf, Hgood.
    + rewrite Hcases, res_bind_Raise. by exists [], tc, tcs.
Qed.

(** [summarize_test_cases] on every input. *)
Lemma summarize_test_cases_cases tcs :
  match summarize_test_cases tcs with
  | Ok out =>
      forallb stc_well_formed tcs = true
      ∧ Forall stc_shaped out
      ∧ stc_sums out = stc_counts tcs
  | Raise err =>
      ∃ good bad rest,
        tcs = good ++ bad :: rest
        ∧ forallb stc_well_formed good = true
        ∧ stc_well_formed bad = false
        ∧ err = stc_error bad
  end.
Proof.
  unfold summarize_test_cases.
  pose proof (stc_fold_cases tcs [] ltac:(constructor)) as Hfold.
  destruct (foldM stc_step tcs []) as [ret|err]; [|done].
  rewrite res_bind_Ok. destruct Hfold as (Hwf & Hshaped & Hsums).
  split; [done|]. split; [done|].
  by rewrite (Hsums 0 0 0 0 0 eq_refl).
Qed.

Lemma summarize_test_cases_Ok_well_formed tcs out :
  summarize_test_cases tcs = Ok out → forallb stc_well_formed tcs = true.
Proof.
  intros Hrun. pose proof (summarize_test_cases_cases tcs) as Hcases.
  rewrite Hrun in Hcases. tauto.
Qed.

(** *** Test cases without a nan among the key fields *)

Lemma no_nan_get (d : gmap string val) k a :
  dict_get d k = VAtom a → no_nan d k = negb (atom_is_nan a).
Proof.
  unfold dict_get, no_nan.
  destruct (d !! k) as [v|]; cbn; [by intros ->|by intros [= <-]].
Qed.

Lemma dict_get_lookup (d : gmap string val) k v :
  d !! k = Some v → dict_get d k = v.
Proof. unfold dict_get. by intros ->. Qed.

(** The six key fields of a test case that has a key. *)
Lemma stc_keyed_atoms tc :
  stc_keyed tc = true →
  ∃ a1 a2 a3 a4 a5 a6,
    (dict_get tc "file" = VAtom a1 ∧ dict_get tc "classname" = VAtom a2
     ∧ tc !! "job_id" = Some (VAtom a3) ∧ tc !! "workflow_id" = Some (VAtom a4)
     ∧ tc !! "workflow_run_attempt" = Some (VAtom a5)
     ∧ tc !! "invoking_file" = Some (VAtom a6))
    ∧ (∀ n, stc_get_key tc ≫= stc_hash n
            = Ok (tuple_key n [a1; a2; a3; a4; a5; a6]
                    (key_atom a1, key_atom a2, key_atom a3,
                     key_atom a4, key_atom a5, key_atom a6)))
    ∧ stc_plain tc = negb (existsb atom_is_nan [a1; a2; a3; a4; a5; a6]).
Proof.
  unfold stc_keyed. cbn [forallb]. rewrite !andb_true_iff.
  intros [(H3 & H4 & H5 & H6 & _) (H1 & H2 & _)].
  apply has_atom_inv in H3 as [a3 E3], H4 as [a4 E4], H5 as [a5 E5], H6 as [a6 E6].
  apply has_atom_or_nothing_inv in H1 as [a1 E1], H2 as [a2 E2].
  exists a1, a2, a3, a4, a5, a6. split; [done|]. split.
  - intros n. unfold stc_get_key, getitem. by rewrite E1, E2, E3, E4, E5, E6.
  - unfold stc_plain. cbn [forallb existsb].
    rewrite (no_nan_get _ _ _ E1), (no_nan_get _ _ _ E2),
      (no_nan_get _ _ _ (dict_get_lookup _ _ _ E3)),
      (no_nan_get _ _ _ (dict_get_lookup _ _ _ E4)),
      (no_nan_get _ _ _ (dict_get_lookup _ _ _ E5)),
      (no_nan_get _ _ _ (dict_get_lookup _ _ _ E6)).
    by destruct (atom_is_nan a1), (atom_is_nan a2), (atom_is_nan a3),
      (atom_is_nan a4), (atom_is_nan a5), (atom_is_nan a6).
Qed.

Lemma stc_key_keyed tc key : stc_key tc = Some key → stc_keyed tc = true.
Proof.
  unfold stc_key. pose proof (stc_hash_keyed 0 tc) as Hk.
  destruct (stc_get_key tc ≫= stc_hash 0); [tauto | done].
Qed.

(** Without a nan the key does not depend on the dictionary. *)
Lemma stc_key_at_plain n tc :
  stc_plain tc = true → stc_key_at n tc = stc_key tc.
Proof.
  intros Hp. unfold stc_key_at, stc_key. destruct (stc_keyed tc) eqn:Hk.
  - destruct (stc_keyed_atoms tc Hk)
      as (a1 & a2 & a3 & a4 & a5 & a6 & _ & Hkey & Hplain).
    rewrite !Hkey. unfold tuple_key. rewrite Hp in Hplain.
    symmetry in Hplain. apply negb_true_iff in Hplain. by rewrite Hplain.
  - pose proof (stc_hash_keyed n tc) as Hn.
    destruct (stc_get_key tc ≫= stc_hash n) as [key|e];
      [destruct Hn; congruence|].
    destruct Hn as (_ & _ & Hall). by rewrite (Hall 0%nat).
Qed.

(** A summary has the key of the test case it was created with. *)
Lemma stc_key_record first n f e s u x :
  stc_keyed first = true →
  stc_key (stc_record first n f e s u x) = stc_key first.
Proof.
  intros Hk.
  destruct (stc_keyed_atoms first Hk)
    as (a1 & a2 & a3 & a4 & a5 & a6 & (E1 & E2 & E3 & E4 & E5 & E6) & Hkey & _).
  unfold stc_key. rewrite Hkey. unfold stc_record.
  rewrite E1, E2, (dict_get_lookup _ _ _ E3), (dict_get_lookup _ _ _ E4),
    (dict_get_lookup _ _ _ E5), (dict_get_lookup _ _ _ E6).
  reflexivity.
Qed.

Lemma stc_group_snoc tcs tc key :
  stc_group (tcs ++ [tc]) key
  = if decide (stc_key tc = Some key)
    then stc_group tcs key ++ [tc] else stc_group tcs key.
Proof.
  unfold stc_group. rewrite filter_app, filter_cons, filter_nil.
  destruct (decide (stc_key tc = Some key)); [done|]. by rewrite app_nil_r.
Qed.

Lemma stc_group_key tcs key tc : tc ∈ stc_group tcs key → stc_key tc = Some key.
Proof. unfold stc_group. by intros [? _]%list_elem_of_filter. Qed.

Lemma stc_group_nonempty tcs key :
  key ∈ first_occurrences (omap stc_key tcs) →
  ∃ first rest, stc_group tcs key = first :: rest ∧ stc_key first = Some key.
Proof.
  intros Hin. apply elem_of_first_occurrences, list_elem_of_omap in Hin
    as (tc & Htc & Hkey).
  assert (Hg : tc ∈ stc_group tcs key) by (by apply list_elem_of_filter).
  destruct (stc_group tcs key) as [|first rest] eqn:E;
    [by apply elem_of_nil in Hg|].
  exists first, rest. split; [done|].
  apply (stc_group_key tcs key). rewrite E. by left.
Qed.

Lemma stc_group_empty tcs key :
  key ∉ first_occurrences (omap stc_key tcs) → stc_group tcs key = [].
Proof.
  intros Hnew. apply filter_none. intros tc Htc Hk.
  apply Hnew, elem_of_first_occurrences, list_elem_of_omap. eauto.
Qed.

(** Every test case has exactly one of the four outcomes. *)
Lemma outcome_partition (group : list (gmap string val)) :
  Z.of_nat (length group)
  = count is_failure group + count is_error group
    + count is_skipped group + count is_success group.
Proof.
  induction group as [|tc group IH] using rev_ind; [done|].
  rewrite !count_snoc, length_app, Nat2Z.inj_add, IH. cbn.
  unfold is_failure, is_error, is_skipped, is_success.
  destruct (contains tc "failure"), (contains tc "error"),
    (contains tc "skipped"); cbn; lia.
Qed.

Lemma stc_summary_shaped tcs key : stc_shaped (stc_summary tcs key).
Proof. do 7 eexists. split; [reflexivity|]. apply outcome_partition. Qed.

(** The summary of a key that occurs has that key. *)
Lemma stc_key_summary tcs key :
  key ∈ first_occurrences (omap stc_key tcs) →
  stc_key (stc_summary tcs key) = Some key.
Proof.
  intros (first & rest & Hg & Hfirst)%stc_group_nonempty.
  unfold stc_summary. rewrite Hg. cbn [head default from_option id].
  rewrite stc_key_record; [done|]. by eapply stc_key_keyed.
Qed.

(** The dictionary [ret] after the test cases [done] have been visited. *)
Definition stc_state (done : list (gmap string val))
  : list (option nat * (atom * atom * atom * atom * atom * atom)
          * gmap string val) :=
  od_tabulate (first_occurrences (omap stc_key done)) (stc_summary done).

Lemma stc_state_shaped done : Forall stc_shaped (od_values (stc_state done)).
Proof.
  unfold stc_state. rewrite od_values_tabulate. apply Forall_fmap, Forall_forall.
  intros key _. apply stc_summary_shaped.
Qed.

Lemma stc_step_spec done tc :
  stc_well_formed tc = true → stc_plain tc = true →
  stc_step (stc_state done) tc = Ok (stc_state (done ++ [tc])).
Proof.
  intros Hwf Hp.
  pose proof (stc_step_cases (stc_state done) tc (stc_state_shaped done)) as Hc.
  rewrite Hwf in Hc. destruct Hc as (key & Hk & ->).
  rewrite stc_key_at_plain in Hk by done. f_equal.
  unfold stc_entry, stc_state.
  set (ks := first_occurrences (omap stc_key done)).
  assert (Hks' : first_occurrences (omap stc_key (done ++ [tc]))
                 = if decide (key ∈ ks) then ks else ks ++ [key]).
  { unfold ks. rewrite omap_app. cbn. rewrite Hk. cbn.
    apply first_occurrences_snoc. }
  rewrite Hks', od_get_tabulate.
  assert (Hother : ∀ k, k ≠ key → stc_summary done k = stc_summary (done ++ [tc]) k).
  { intros k Hne. unfold stc_summary.
    rewrite stc_group_snoc, decide_False; [done|]. congruence. }
  destruct (decide (key ∈ ks)) as [Hold|Hnew]; cbn [default from_option id].
  - rewrite od_set_tabulate_in by (done || apply NoDup_first_occurrences).
    apply od_tabulate_ext. intros k _.
    destruct (decide (k = key)) as [->|Hne];
      [|by rewrite fn_lookup_insert_ne, Hother].
    rewrite fn_lookup_insert. unfold stc_summary.
    rewrite stc_bump_record, stc_group_snoc, decide_True by done.
    destruct (stc_group_nonempty done key Hold) as (first & rest & Hg & _).
    rewrite !count_b2z, total_time_snoc, length_app, Nat2Z.inj_add, Hg.
    reflexivity.
  - rewrite od_set_tabulate_notin by done.
    apply od_tabulate_ext. intros k _.
    destruct (decide (k = key)) as [->|Hne];
      [|by rewrite fn_lookup_insert_ne, Hother].
    rewrite fn_lookup_insert. unfold stc_summary.
    rewrite stc_bump_record, stc_group_snoc, decide_True by done.
    rewrite (stc_group_empty done key Hnew).
    rewrite !count_b2z, total_time_snoc. reflexivity.
Qed.

Lemma stc_fold_spec done tcs :
  forallb stc_well_formed tcs = true → forallb stc_plain tcs = true →
  foldM stc_step tcs (stc_state done) = Ok (stc_state (done ++ tcs)).
Proof.
  revert done. induction tcs as [|tc tcs IH]; intros done Hwf Hp.
  - by rewrite app_nil_r.
  - cbn in Hwf, Hp. apply andb_prop in Hwf as [Htc Htcs].
    apply andb_prop in Hp as [Hptc Hptcs]. cbn [foldM].
    rewrite stc_step_spec, res_bind_Ok by done.
    rewrite IH by done. by rewrite <- app_assoc.
Qed.

Lemma summarize_test_cases_total tcs :
  forallb stc_well_formed tcs = true → forallb stc_plain tcs = true →
  summarize_test_cases tcs
  = Ok (stc_summary tcs <$> first_occurrences (omap stc_key tcs)).
Proof.
  intros Hwf Hp. unfold summarize_test_cases.
  change (@nil (option nat * (atom * atom * atom * atom * atom * atom)
                * gmap string val))
    with (stc_state []).
  rewrite stc_fold_spec, res_bind_Ok by done.
  unfold stc_state. by rewrite od_values_tabulate.
Qed.


(** C8.  [summarize_test_cases] counts every test case once, under the
    first of failure, error, skipped and success that applies to it.  In
    every summary that it returns, [tests] is the sum of the four outcome
    counters.  Over all the summaries, [tests] adds up to the number of
    test cases, [failures] to the number of those with a [failure]
    marker, [errors] to the number of those with an [error] marker and no
    [failure] marker, [skipped] to the number of those with a [skipped]
    marker and neither of the other two, and [successes] to the number of
    those without any marker.  When no key field is a nan, the summaries
    are those of the composite keys in the order of their first
    occurrence, and the counters of each summary are these numbers among
    the test cases of its key. *)
Theorem summarize_test_cases_counts tcs out :
  summarize_test_cases tcs = Ok out →
  Forall (λ summary,
            ∃ tests failures errors skipped successes,
              summary !! "tests" = Some (VInt tests)
              ∧ summary !! "failures" = Some (VInt failures)
              ∧ summary !! "errors" = Some (VInt errors)
              ∧ summary !! "skipped" = Some (VInt skipped)
              ∧ summary !! "successes" = Some (VInt successes)
              ∧ tests = failures + errors + skipped + successes) out
  ∧ field_sum "tests" out = Z.of_nat (length tcs)
  ∧ field_sum "failures" out = count (λ tc, contains tc "failure") tcs
  ∧ field_sum "errors" out
    = count (λ tc, negb (contains tc "failure") && contains tc "error") tcs
  ∧ field_sum "skipped" out
    = count (λ tc, negb (contains tc "failure") && negb (contains tc "error")
                   && contains tc "skipped") tcs
  ∧ field_sum "successes" out
    = count (λ tc, negb (contains tc "failure") && negb (contains tc "error")
                   && negb (contains tc "skipped")) tcs
  ∧ (forallb stc_plain tcs = true →
     Forall2 (λ key summary,
                let group := filter (λ tc, stc_key tc = Some key) tcs in
                stc_key summary = Some key
                ∧ summary !! "tests" = Some (VInt (Z.of_nat (length group)))
                ∧ summary !! "failures"
                  = Some (VInt (count (λ tc, contains tc "failure") group))
                ∧ summary !! "errors"
                  = Some (VInt (count (λ tc, negb (contains tc "failure")
                                             && contains tc "error") group))
                ∧ summary !! "skipped"
                  = Some (VInt (count (λ tc, negb (contains tc "failure")
                                             && negb (contains tc "error")
                                             && contains tc "skipped") group))
                ∧ summary !! "successes"
                  = Some (VInt (count (λ tc, negb (contains tc "failure")
                                             && negb (contains tc "error")
                                             && negb (contains tc "skipped"))
                                  group)))
       (first_occurrences (omap stc_key tcs)) out).
Proof.
  intros Hrun. pose proof (summarize_test_cases_cases tcs) as Hcases.
  rewrite Hrun in Hcases. destruct Hcases as (Hwf & Hshaped & Hsums).
  split.
  { eapply Forall_impl; [exact Hshaped|].
    intros summary (first & n & f & e & s & u & x & -> & Hsum).
    exists n, f, e, s, u. repeat split; try reflexivity. exact Hsum. }
  unfold stc_sums, stc_counts in Hsums.
  injection Hsums as Hn Hf He Hs Hu.
  do 5 (split; [assumption|]).
  intros Hp. rewrite (summarize_test_cases_total tcs Hwf Hp) in Hrun.
  injection Hrun as <-. apply Forall2_fmap_r, Forall_Forall2_diag, Forall_forall.
  intros key Hkey. split; [by apply stc_key_summary|].
  repeat split; reflexivity.
Qed.

End aggregators.

(** A test case with both a [failure] and a [skipped] marker, and a passing
    one, in the same job. *)
Definition example_failed_case : gmap string (val (H := RationalRuntime.runtime)) :=
  <["job_id" := VInt 1]> (<["workflow_id" := VInt 7]>
  (<["workflow_run_attempt" := VInt 1]> (<["invoking_file" := VStr "test_ops"]>
  (<["time" := rational_float (1 # 2)]>
  (<["failure" := VDict ∅]> (<["skipped" := VDict ∅]> ∅)))))).

Definition example_passed_case : gmap string (val (H := RationalRuntime.runtime)) :=
  <["job_id" := VInt 1]> (<["workflow_id" := VInt 7]>
  (<["workflow_run_attempt" := VInt 1]> (<["invoking_file" := VStr "test_ops"]>
  (<["time" := rational_float (1 # 4)]> ∅)))).



Lemma summarize_test_cases_counts_witness :
  let tcs := [example_failed_case; example_passed_case; example_failed_case] in
  ∃ summary,
    summarize_test_cases tcs = Ok [summary]
    ∧ field_sum "tests" [summary] = 3
    ∧ field_sum "failures" [summary] = 2
    ∧ field_sum "skipped" [summary] = 0
    ∧ field_sum "successes" [summary] = 1.
Proof.
  intros tcs.
  assert (∃ summary, summarize_test_cases tcs = Ok [summary]) as [summary Hrun]
    by (eexists; reflexivity).
  destruct (summarize_test_cases_counts tcs [summary] Hrun)
    as (_ & Hn & Hf & _ & Hs & Hu & _).
  exists summary. split; [exact Hrun|].
  split; [exact Hn|]. split; [exact Hf|]. split; [exact Hs|]. exact Hu.
Defined.

(** *** [get_invoking_file_times] *)

Section invoking_file_times.
Context `{FloatRuntime}.
Implicit Types (summary : gmap string val) (done : list (gmap string val)).

Lemma od_iadd_tabulate {K} `{EqDecision K} (key : K) field x ks
    (g : K → gmap string val) old new :
  key ∈ ks → NoDup ks → g key !! field = Some old → py_add old x = Ok new →
  od_iadd key field x (od_tabulate ks g)
  = Ok (od_tabulate ks (<[key := <[field := new]> (g key)]> g)).
Proof.
  intros Hin Hnd Hold Hadd.
  erewrite od_iadd_run; [|by rewrite od_get_tabulate, decide_True|done].
  rewrite Hadd, res_bind_Ok. by rewrite od_set_tabulate_in.
Qed.

Lemma ift_record_time done key time :
  ift_record done key time !! "time" = Some time.
Proof. reflexivity. Qed.

Lemma ift_record_set_time done key time time' :
  <["time" := time']> (ift_record done key time) = ift_record done key time'.
Proof. reflexivity. Qed.

Lemma contains_inv (d : gmap string val) k :
  contains d k = true → ∃ v, d !! k = Some v.
Proof. unfold contains. intros [v Hv]%bool_decide_eq_true. eauto. Qed.

(** A summary on which the first loop is defined and whose pair has no
    nan: the pair does not depend on the dictionary. *)
Lemma ift_well_formed_inv summary :
  ift_well_formed summary = true → ift_plain summary = true →
  ∃ key t,
    (∀ n, ift_get_key summary ≫= ift_hash n = Ok key)
    ∧ ift_init_value summary = Ok (ift_record [summary] key (VFloat fzero))
    ∧ summary !! "time" = Some t ∧ is_addend t = true.
Proof.
  unfold ift_well_formed, ift_plain. cbn [forallb]. rewrite !andb_true_iff.
  intros [[(H1 & H2 & _) (H3 & H4 & _)] Ht] (Hp1 & Hp2 & _).
  apply has_atom_inv in H1 as [a1 E1], H2 as [a2 E2].
  apply contains_inv in H3 as [v3 E3], H4 as [v4 E4].
  apply has_addend_inv in Ht as (t & Et & Hnum).
  unfold no_nan in Hp1, Hp2. rewrite E1 in Hp1. rewrite E2 in Hp2.
  apply negb_true_iff in Hp1, Hp2.
  exists (None, (key_atom a1, key_atom a2)), t.
  assert (Hkey : ∀ n, ift_get_key summary ≫= ift_hash n
                      = Ok (None, (key_atom a1, key_atom a2))).
  { intros n. unfold ift_get_key, getitem. rewrite E1, E2.
    cbn [mbind res_bind ift_hash py_hash fst snd]. unfold tuple_key.
    cbn [existsb]. by rewrite Hp1, Hp2. }
  split; [done|]. split; [|done].
  unfold ift_init_value, getitem. rewrite E1, E2, E3, E4.
  cbn [mbind res_bind]. unfold ift_record, ift_group.
  rewrite filter_cons_True by (unfold ift_key; by rewrite Hkey).
  cbn [head default from_option id]. unfold dict_get.
  by rewrite E1, E2, E3, E4.
Qed.

Lemma ift_group_snoc done summary key :
  ift_group (done ++ [summary]) key
  = if decide (ift_key summary = Some key)
    then ift_group done key ++ [summary] else ift_group done key.
Proof.
  unfold ift_group. rewrite filter_app, filter_cons, filter_nil.
  destruct (decide (ift_key summary = Some key)); [done|]. by rewrite app_nil_r.
Qed.

Lemma ift_group_key done key s1 :
  s1 ∈ ift_group done key → ift_key s1 = Some key.
Proof. by intros [? _]%list_elem_of_filter. Qed.

Lemma ift_group_nonempty done key :
  key ∈ first_occurrences (omap ift_key done) →
  ∃ first rest, ift_group done key = first :: rest ∧ ift_key first = Some key.
Proof.
  intros Hin. apply elem_of_first_occurrences, list_elem_of_omap in Hin
    as (s0 & Hs0 & Hkey).
  assert (Hg : s0 ∈ ift_group done key) by (by apply list_elem_of_filter).
  destruct (ift_group done key) as [|first rest] eqn:E;
    [by apply elem_of_nil in Hg|].
  exists first, rest. split; [done|].
  apply (ift_group_key done key). rewrite E. by left.
Qed.

Lemma ift_record_first done key time s1 :
  head (ift_group done key) = Some s1 →
  ift_record done key time = ift_record [s1] key time.
Proof.
  intros Hhead.
  assert (ift_key s1 = Some key) as Hs1.
  { apply (ift_group_key done). destruct (ift_group done key); [done|].
    injection Hhead as ->. left. }
  assert (Hg : ift_group [s1] key = [s1])
    by (unfold ift_group; by rewrite filter_cons_True).
  unfold ift_record. by rewrite Hhead, Hg.
Qed.

(** The record of a pair has the pair of the summary it was created
    with. *)
Lemma ift_key_record done key time :
  key ∈ first_occurrences (omap ift_key done) →
  ift_key (ift_record done key time) = Some key.
Proof.
  intros (first & rest & Hg & Hfirst)%ift_group_nonempty.
  unfold ift_record. rewrite Hg. cbn [head default from_option id].
  rewrite <- Hfirst. unfold ift_key, ift_get_key, getitem, dict_get in *.
  destruct (first !! "invoking_file") as [v1|]; [|done].
  destruct (first !! "job_id") as [v2|]; [|done]. reflexivity.
Qed.

(** The record of a pair while the first loop runs: the time is the
    running sum. *)
Definition ift_partial (done : list (gmap string val))
    (key : option nat * (atom * atom)) : gmap string val :=
  ift_record done key (VFloat (total_time (ift_group done key))).

Definition ift_state (done : list (gmap string val))
  : list (option nat * (atom * atom) * gmap string val) :=
  od_tabulate (first_occurrences (omap ift_key done)) (ift_partial done).

Lemma ift_step_spec done summary :
  ift_well_formed summary = true → ift_plain summary = true →
  ift_step (ift_state done) summary = Ok (ift_state (done ++ [summary])).
Proof.
  intros Hwf Hp.
  destruct (ift_well_formed_inv summary Hwf Hp)
    as (key & t & Hkey & Hinit & Htime & Hnum).
  assert (Hk : ift_key summary = Some key) by (unfold ift_key; by rewrite Hkey).
  unfold ift_step. specialize (Hkey (length (ift_state done))).
  apply bind_Ok in Hkey as (raw & Hraw & Hhash).
  rewrite Hraw, res_bind_Ok, Hhash, res_bind_Ok.
  set (ks := first_occurrences (omap ift_key done)).
  set (ks' := first_occurrences (omap ift_key (done ++ [summary]))).
  assert (Hks' : ks' = if decide (key ∈ ks) then ks else ks ++ [key]).
  { unfold ks', ks. rewrite omap_app. cbn. rewrite Hk. cbn.
    apply first_occurrences_snoc. }
  assert (Hin : key ∈ ks') by (apply elem_of_first_occurrences;
    rewrite omap_app, elem_of_app; right; cbn; rewrite Hk; set_solver).
  assert (Hnd : NoDup ks') by apply NoDup_first_occurrences.
  set (grp := ift_group done key).
  set (first := default summary (head grp)).
  assert (Hfirst : head (ift_group (done ++ [summary]) key) = Some first).
  { rewrite ift_group_snoc, decide_True by done. fold grp. unfold first.
    by destruct grp. }
  (* the record of [key] after the optional initialisation *)
  set (g1 := λ k, if decide (k = key)
                  then ift_record [first] key (VFloat (total_time grp))
                  else ift_partial done k).
  assert (Hret1 :
    match od_get key (ift_state done) with
    | None => v ← ift_init_value summary; Ok (od_set key v (ift_state done))
    | Some _ => Ok (ift_state done)
    end = Ok (od_tabulate ks' g1)).
  { unfold ift_state. fold ks. rewrite od_get_tabulate, Hks'.
    destruct (decide (key ∈ ks)) as [Hold|Hnew].
    - f_equal. apply od_tabulate_ext. intros k _. unfold g1.
      destruct (decide (k = key)) as [->|Hne]; [|done].
      unfold ift_partial. fold grp. apply ift_record_first.
      destruct (ift_group_nonempty done key Hold) as (s0 & rest & Hg & _).
      unfold first, grp. by rewrite Hg.
    - assert (Hnil : grp = []).
      { apply filter_none. intros s0 Hs0 Hk0.
        apply Hnew, elem_of_first_occurrences, list_elem_of_omap. eauto. }
      rewrite Hinit, res_bind_Ok. rewrite od_set_tabulate_notin by done.
      f_equal. apply od_tabulate_ext. intros k _. unfold g1.
      destruct (decide (k = key)) as [->|Hne].
      + rewrite fn_lookup_insert. unfold first. by rewrite Hnil.
      + by rewrite fn_lookup_insert_ne. }
  rewrite Hret1, res_bind_Ok. unfold getitem. rewrite Htime, res_bind_Ok.
  erewrite od_iadd_tabulate; [|done|done| |by eapply py_add_time].
  2:{ unfold g1. rewrite decide_True by done. apply ift_record_time. }
  f_equal. unfold ift_state. fold ks'. apply od_tabulate_ext. intros k _.
  destruct (decide (k = key)) as [->|Hne].
  - rewrite fn_lookup_insert. unfold g1. rewrite decide_True by done.
    rewrite ift_record_set_time. unfold ift_partial.
    rewrite (ift_record_first _ _ _ _ Hfirst).
    rewrite ift_group_snoc, decide_True by done.
    by rewrite total_time_snoc.
  - rewrite fn_lookup_insert_ne by done. unfold g1. rewrite decide_False by done.
    unfold ift_partial, ift_record.
    rewrite ift_group_snoc, decide_False; [done|]. congruence.
Qed.

Lemma ift_fold_spec done summaries :
  forallb ift_well_formed summaries = true →
  forallb ift_plain summaries = true →
  foldM ift_step summaries (ift_state done) = Ok (ift_state (done ++ summaries)).
Proof.
  revert done. induction summaries as [|s summaries IH]; intros done Hwf Hp.
  - by rewrite app_nil_r.
  - cbn in Hwf, Hp. apply andb_prop in Hwf as [Hs Hrest].
    apply andb_prop in Hp as [Hps Hprest]. cbn [foldM].
    rewrite ift_step_spec, res_bind_Ok by done.
    rewrite IH by done. by rewrite <- app_assoc.
Qed.

Lemma get_invoking_file_times_total summaries
    (pytest_parallel_times : list (atom * atom * val)) :
  forallb ift_well_formed summaries = true →
  forallb ift_plain summaries = true →
  get_invoking_file_times summaries pytest_parallel_times
  = Ok ((λ key,
           ift_record summaries key
             match ppt_get key pytest_parallel_times with
             | Some t => t
             | None => VFloat (total_time (ift_group summaries key))
             end) <$> first_occurrences (omap ift_key summaries)).
Proof.
  intros Hwf Hp. unfold get_invoking_file_times.
  change (@nil (option nat * (atom * atom) * gmap string val))
    with (ift_state []).
  rewrite ift_fold_spec, res_bind_Ok by done. f_equal.
  unfold ift_state, od_values, od_tabulate. cbn [app].
  rewrite <- !list_fmap_compose. apply list_fmap_ext. intros i key _.
  unfold compose, ift_override. cbn [fst snd].
  unfold ift_partial.
  destruct (ppt_get key pytest_parallel_times) as [t|]; cbn [snd]; [|reflexivity].
  apply ift_record_set_time.
Qed.


(** What [get_pytest_parallel_times] records are attribute strings. *)
Lemma get_pytest_parallel_times_strings ET_parse is_rerun_disabled_tests reports times :
  get_pytest_parallel_times ET_parse is_rerun_disabled_tests reports = Ok times →
  Forall (λ v, ∃ s, v = VStr s) (od_values times).
Proof.
  unfold get_pytest_parallel_times.
  assert (Forall (λ v : val, ∃ s, v = VStr s) (od_values (K := atom * atom) []))
    as Hnil by constructor.
  revert Hnil. generalize (@nil (atom * atom * val)). revert times.
  induction reports as [|report reports IH]; intros times acc Hacc Hrun.
  - by injection Hrun as <-.
  - cbn in Hrun. apply bind_Ok in Hrun as (acc' & Hstep & Hrest).
    eapply IH; [|exact Hrest].
    apply bind_Ok in Hstep as (root & _ & Hstep).
    destruct (is_rerun_disabled_tests root); [by injection Hstep as <-|].
    destruct (iter "testsuite" root) as [|suite [|]]; try done.
    destruct (attrib suite !! "time") as [t|]; [|done].
    apply bind_Ok in Hstep as (job & _ & Hstep). injection Hstep as <-.
    apply od_set_Forall; eauto.
Qed.

End invoking_file_times.




(** ** The CUDA random number generator wrapper *)

Section cuda_random.
Import CudaRandom.
Implicit Types (st : Cuda) (cb : callback).

(** *** Seed setters without a device *)

Lemma lazy_call_queues cb kind st :
  initialized st = false →
  _lazy_call cb kind st = Ok (set_queued_calls (queued_calls st ++ [(cb, kind)]) st).
Proof. intros Hinit. unfold _lazy_call. by rewrite Hinit. Qed.

Lemma same_devices_queue q st : same_devices st (set_queued_calls q st).
Proof. by repeat split. Qed.

Lemma lazy_init_without_device st :
  wf st → device_count st = 0%nat → _lazy_init st = Raise RuntimeError.
Proof.
  intros Hwf Hnone. unfold _lazy_init.
  destruct (initialized st) eqn:Hinit; [by destruct (Hwf Hinit)|].
  by rewrite bool_decide_eq_true_2.
Qed.

(** C6.  Without a CUDA device (in a well-formed state, where the gate
    can then not have been passed), each of [manual_seed],
    [manual_seed_all], [seed] and [seed_all] returns without an error and
    leaves the generators, the tensors and every other observable part of
    the state as they are; a second call does so again, so that calling
    twice leaves what calling once leaves.  The deferred calls are never
    run: initialisation fails for lack of a device. *)
Theorem seed_setters_without_device (s : Z) st setter :
  wf st → device_count st = 0%nat →
  setter ∈ [manual_seed s; manual_seed_all s; seed; seed_all] →
  ∃ st1 st2,
    setter st = Ok st1 ∧ setter st1 = Ok st2
    ∧ same_devices st st1 ∧ same_devices st1 st2
    ∧ default_generators st1 = default_generators st
    ∧ default_generators st2 = default_generators st1
    ∧ wf st1 ∧ wf st2
    ∧ _lazy_init st1 = Raise RuntimeError
    ∧ _lazy_init st2 = Raise RuntimeError.
Proof.
  intros Hwf Hnone Hsetter.
  assert (Hinit : initialized st = false).
  { destruct (initialized st) eqn:E; [by destruct (Hwf E) | done]. }
  assert (∃ cb kind, setter = _lazy_call cb kind) as (cb & kind & ->).
  { repeat (apply elem_of_cons in Hsetter as [-> | Hsetter]; [by eexists _, _|]).
    by apply elem_of_nil in Hsetter. }
  set (st1 := set_queued_calls (queued_calls st ++ [(cb, kind)]) st).
  set (st2 := set_queued_calls (queued_calls st1 ++ [(cb, kind)]) st1).
  assert (Hwf1 : wf st1) by (intros E; cbn in E; congruence).
  assert (Hwf2 : wf st2) by (intros E; cbn in E; congruence).
  exists st1, st2.
  split; [by apply lazy_call_queues|]. split; [by apply lazy_call_queues|].
  split; [apply same_devices_queue|]. split; [apply same_devices_queue|].
  split; [done|]. split; [done|]. split; [done|]. split; [done|].
  split; by apply lazy_init_without_device.
Qed.

(** *** Callbacks only touch the generators and the entropy counter *)

Lemma foldM_preserves {A B} (P : B → Prop) (body : B → A → res B) l acc r :
  (∀ acc x acc', P acc → body acc x = Ok acc' → P acc') →
  P acc → foldM body l acc = Ok r → P r.
Proof.
  intros Hbody. revert acc. induction l as [|x l IH]; intros acc Hacc Hrun.
  - by injection Hrun as <-.
  - cbn in Hrun. apply bind_Ok in Hrun as (acc' & Hx & Hrest). eauto.
Qed.

Definition frame (st st' : Cuda) : Prop :=
  initialized st' = initialized st
  ∧ queued_calls st' = queued_calls st
  ∧ cur_device st' = cur_device st
  ∧ tensors st' = tensors st
  ∧ entropy st' = entropy st
  ∧ length (default_generators st') = length (default_generators st).

Lemma frame_refl st : frame st st.
Proof. by repeat split. Qed.

Lemma frame_trans st1 st2 st3 : frame st1 st2 → frame st2 st3 → frame st1 st3.
Proof.
  intros (?&?&?&?&?&?) (?&?&?&?&?&?). repeat split; congruence.
Qed.

Lemma with_generator_Some idx f st g :
  default_generators st !! idx = Some g →
  with_generator idx f st
  = Ok (set_generators (alter f idx (default_generators st)) st).
Proof. intros Hg. unfold with_generator. by rewrite Hg. Qed.

Lemma with_generator_frame idx f st st' :
  with_generator idx f st = Ok st' → frame st st'.
Proof.
  unfold with_generator. destruct (default_generators st !! idx); [|done].
  intros [= <-]. repeat split. cbn. by rewrite length_alter.
Qed.

Lemma generator_seed_frame idx st st' :
  generator_seed idx st = Ok st' → frame st st'.
Proof.
  unfold generator_seed. intros (st1 & H1 & [= <-])%bind_Ok.
  apply with_generator_frame in H1. destruct H1 as (?&?&?&?&?&?).
  by repeat split.
Qed.

Lemma run_callback_frame cb st st' :
  run_callback cb st = Ok st' → frame st st'.
Proof.
  destruct cb as [copy dev|offset dev|s|s| |]; cbn [run_callback].
  - intros (idx & _ & Hrun)%bind_Ok.
    destruct (tensors st !! copy); [|done]. by eapply with_generator_frame.
  - intros (idx & _ & Hrun)%bind_Ok. by eapply with_generator_frame.
  - apply with_generator_frame.
  - apply foldM_preserves; [|apply frame_refl].
    intros acc i acc' Hacc Hi. eapply frame_trans; [done|].
    by eapply with_generator_frame.
  - apply generator_seed_frame.
  - intros (r & Hrun & [= <-])%bind_Ok. revert Hrun.
    apply (foldM_preserves (λ acc, frame st acc.2)); [|apply frame_refl].
    intros [[r0 b0] st0] i [[r1 b1] st1] Hacc. cbn in Hacc. unfold seed_all_step.
    destruct (negb b0).
    + intros (st2 & H2 & Hrest)%bind_Ok.
      apply bind_Ok in Hrest as (s2 & _ & [= _ _ <-]).
      eapply frame_trans; [done|]. by eapply generator_seed_frame.
    + intros (st2 & H2 & [= _ _ <-])%bind_Ok.
      eapply frame_trans; [done|]. by eapply with_generator_frame.
Qed.

Lemma run_queue_frame q st st' :
  foldM (λ st (c : callback * lazy_kind), run_callback c.1 st) q st = Ok st' →
  frame st st'.
Proof.
  apply foldM_preserves; [|apply frame_refl].
  intros acc c acc' Hacc Hc. eapply frame_trans; [done|].
  by eapply run_callback_frame.
Qed.

(** *** [set_rng_state] *)

Section set_rng_state.
Context (torch_device_of_str : string → res torch_device).

Lemma set_rng_state_queued new_state device st st1 bytes :
  initialized st = false →
  tensors st !! new_state = Some bytes →
  set_rng_state torch_device_of_str new_state device st = Ok st1 →
  ∃ final_device copy,
    get_device torch_device_of_str device = Ok final_device
    ∧ copy ≠ new_state
    ∧ st1 = set_queued_calls
              (queued_calls st ++ [(cb_set_rng_state copy final_device, Plain)])
              (set_tensors (<[copy := bytes]> (tensors st)) st).
Proof.
  intros Hinit Hbytes. unfold set_rng_state, clone. rewrite Hbytes. cbn.
  destruct (get_device torch_device_of_str device) as [final_device|] eqn:Hdev;
    [|done].
  cbn. rewrite lazy_call_queues by done. intros [= <-].
  exists final_device, (fresh (dom (tensors st))).
  split; [done|]. split; [|done].
  intros Heq. apply (is_fresh (dom (tensors st))). rewrite Heq.
  apply elem_of_dom. eauto.
Qed.

(** C9.  [set_rng_state] clones the tensor before it queues the
    callback: while the runtime is not initialised, whatever the caller
    writes into the tensor after the call, the callback installs, when
    the initialisation runs the queue, the contents that the tensor had
    at the call.  With an empty queue and a valid device the
    initialisation succeeds. *)
Theorem set_rng_state_copies new_state device st st1 bytes :
  initialized st = false →
  tensors st !! new_state = Some bytes →
  set_rng_state torch_device_of_str new_state device st = Ok st1 →
  ∃ final_device,
    get_device torch_device_of_str device = Ok final_device
    ∧ let idx := default (cur_device st) (dev_index final_device) in
      (∀ bytes' st3,
         _lazy_init (mutate_tensor new_state bytes' st1) = Ok st3 →
         ∃ g, default_generators st3 !! idx = Some g ∧ g_state g = bytes)
      ∧ (queued_calls st = [] → (idx < device_count st)%nat →
         ∀ bytes', ∃ st3, _lazy_init (mutate_tensor new_state bytes' st1) = Ok st3).
Proof.
  intros Hinit Hbytes Hset.
  destruct (set_rng_state_queued _ _ _ _ _ Hinit Hbytes Hset)
    as (final_device & copy & Hdev & Hcopy & ->).
  exists final_device. split; [done|]. intros idx.
  assert (Hread : ∀ bytes' sA,
    tensors sA = <[new_state := bytes']> (<[copy := bytes]> (tensors st)) →
    cur_device sA = cur_device st →
    run_callback (cb_set_rng_state copy final_device) sA
    = with_generator idx (gen_set_state bytes) sA
      ≫= λ sB, match default_generators sA !! idx with
               | Some _ => Ok sB
               | None => Raise IndexError
               end).
  { intros bytes' sA HtA HcA. cbn [run_callback]. unfold get_generator, current_device.
    rewrite HcA. fold idx.
    change (match dev_index final_device with
            | Some idx0 => idx0
            | None => cur_device st
            end) with idx.
    unfold with_generator.
    rewrite HtA, lookup_insert_ne by congruence. rewrite lookup_insert_eq.
    destruct (default_generators sA !! idx) eqn:E; cbn; by rewrite ?E. }
  split.
  - intros bytes' st3. unfold _lazy_init, mutate_tensor. cbn -[foldM].
    rewrite Hinit. destruct (bool_decide _); [done|].
    intros (sB & Hrun & [= <-])%bind_Ok.
    rewrite foldM_app in Hrun. apply bind_Ok in Hrun as (sA & HqA & Hlast).
    apply run_queue_frame in HqA as (_ & _ & HcA & HtA & _).
    cbn [foldM fst] in Hlast. apply bind_Ok in Hlast as (sB' & Hlast & [= ->]).
    rewrite (Hread bytes') in Hlast by done.
    unfold with_generator in Hlast.
    destruct (default_generators sA !! idx) as [g|] eqn:Hg; [|done].
    cbn in Hlast. injection Hlast as <-. cbn.
    exists (gen_set_state bytes g). split; [|reflexivity].
    by rewrite list_lookup_alter_eq, Hg.
  - intros Hq Hidx bytes'. unfold _lazy_init, mutate_tensor. cbn -[foldM].
    rewrite Hinit, Hq. rewrite bool_decide_eq_false_2 by (unfold device_count in *; lia).
    cbn [app foldM fst]. rewrite (Hread bytes') by done.
    apply lookup_lt_is_Some_2 in Hidx as [g Hg].
    unfold with_generator. simpl (default_generators _).
    rewrite Hg. cbn [mbind res_bind]. eauto.
Qed.

End set_rng_state.

(** *** [seed_all] *)

Lemma seed_all_rest r m :
  ∀ k st, (k + m ≤ device_count st)%nat →
  ∃ st',
    foldM seed_all_step (seq k m) (r, true, st) = Ok (r, true, st')
    ∧ frame st st' ∧ draws st' = draws st
    ∧ ∀ j, default_generators st' !! j
           = if decide (k ≤ j < k + m)%nat
             then gen_manual_seed r <$> default_generators st !! j
             else default_generators st !! j.
Proof.
  induction m as [|m IH]; intros k st Hlen.
  - exists st. split; [done|]. split; [apply frame_refl|]. split; [done|].
    intros j. rewrite decide_False by lia. done.
  - assert (is_Some (default_generators st !! k)) as [g Hg]
      by (apply lookup_lt_is_Some_2; unfold device_count in Hlen; lia).
    cbn [seq foldM seed_all_step negb]. rewrite (with_generator_Some _ _ _ _ Hg).
    cbn [mbind res_bind].
    set (st1 := set_generators _ st).
    destruct (IH (S k) st1) as (st' & Hrun & Hframe & Hdraws & Hgens).
    { unfold device_count, st1. cbn. rewrite length_alter.
      unfold device_count in Hlen. lia. }
    exists st'. split; [done|]. split; [|split; [done|]].
    + eapply frame_trans; [|done]. repeat split. cbn. by rewrite length_alter.
    + intros j. rewrite Hgens. unfold st1. simpl (default_generators _).
      destruct (decide (k = j)) as [<-|Hne].
      * rewrite decide_False by lia. rewrite decide_True by lia.
        by rewrite list_lookup_alter_eq.
      * rewrite list_lookup_alter_ne by done.
        destruct (decide (S k ≤ j < S k + m)%nat);
          [rewrite decide_True by lia | rewrite decide_False by lia]; done.
Qed.

Lemma seed_all_callback st :
  (1 ≤ device_count st)%nat →
  ∃ st',
    run_callback cb_seed_all st = Ok st'
    ∧ frame st st' ∧ draws st' = S (draws st)
    ∧ default_generators st'
      = gen_manual_seed (entropy st (draws st)) <$> default_generators st.
Proof.
  intros Hn. cbn [run_callback].
  destruct (device_count st) as [|n] eqn:Hcount; [lia|].
  assert (is_Some (default_generators st !! 0%nat)) as [g0 Hg0]
    by (apply lookup_lt_is_Some_2; unfold device_count in Hcount; lia).
  set (r := entropy st (draws st)).
  cbn [seq foldM seed_all_step negb]. unfold generator_seed.
  rewrite (with_generator_Some _ _ _ _ Hg0). cbn [mbind res_bind].
  set (sa := set_draws _ _).
  assert (Hseed : generator_initial_seed 0 sa = Ok r).
  { unfold generator_initial_seed, sa. simpl (default_generators _).
    by rewrite list_lookup_alter_eq, Hg0. }
  rewrite Hseed. cbn [mbind res_bind].
  destruct (seed_all_rest r n 1 sa) as (st' & Hrun & Hframe & Hdraws & Hgens).
  { unfold device_count, sa. cbn. rewrite length_alter.
    unfold device_count in Hcount. lia. }
  rewrite Hrun. cbn [mbind res_bind snd]. exists st'.
  split; [done|]. split; [|split; [done|]].
  - eapply frame_trans; [|done]. repeat split. cbn. by rewrite length_alter.
  - apply list_eq. intros j. rewrite Hgens, list_lookup_fmap.
    unfold sa. simpl (default_generators _).
    destruct (decide (0%nat = j)) as [<-|Hne].
    + rewrite decide_False by lia. by rewrite list_lookup_alter_eq.
    + rewrite list_lookup_alter_ne by done.
      destruct (decide (1 ≤ j < 1 + n)%nat) as [Hj|Hj]; [done|].
      rewrite lookup_ge_None_2; [done|]. unfold device_count in Hcount. lia.
Qed.

(** C10.  With at least one device, the callback of [seed_all] succeeds
    and leaves the same seed in every generator: a fresh value from the
    non-deterministic source, with which the first generator is seeded
    and to which every other generator is set by [manual_seed]; nothing
    else of the generators changes.  When [seed_all] is called before the
    initialisation, on an empty queue, the initialisation runs that
    callback with the same result. *)
Theorem seed_all_same_seed st :
  (1 ≤ device_count st)%nat →
  let fresh_seed := entropy st (draws st) in
  ∃ st',
    run_callback cb_seed_all st = Ok st'
    ∧ device_count st' = device_count st
    ∧ (∀ i g, default_generators st' !! i = Some g →
              gen_initial_seed g = fresh_seed)
    ∧ default_generators st'
      = gen_manual_seed fresh_seed <$> default_generators st
    ∧ draws st' = S (draws st)
    ∧ (initialized st = false → queued_calls st = [] →
       ∃ st1 st2,
         seed_all st = Ok st1 ∧ _lazy_init st1 = Ok st2
         ∧ default_generators st2 = default_generators st').
Proof.
  intros Hn fresh_seed.
  destruct (seed_all_callback st Hn) as (st' & Hrun & Hframe & Hdraws & Hgens).
  exists st'. split; [done|]. split; [by destruct Hframe as (_&_&_&_&_&?)|].
  split; [|split; [done|split; [done|]]].
  - intros i g. rewrite Hgens, list_lookup_fmap.
    destruct (default_generators st !! i); [|done]. by intros [= <-].
  - intros Hinit Hq.
    set (st1 := set_queued_calls (queued_calls st ++ [(cb_seed_all, Plain)]) st).
    set (s0 := set_queued_calls [] st1).
    destruct (seed_all_callback s0) as (s' & Hrun0 & _ & _ & Hgens0);
      [unfold device_count in *; cbn; lia|].
    exists st1, (set_initialized true s').
    split; [by apply lazy_call_queues|]. split.
    + unfold _lazy_init. change (initialized st1) with (initialized st).
      rewrite Hinit.
      rewrite bool_decide_eq_false_2 by (unfold device_count in *; cbn; lia).
      change (queued_calls st1) with (queued_calls st ++ [(cb_seed_all, Plain)]).
      rewrite Hq. cbn [app foldM fst]. fold s0. by rewrite Hrun0.
    + cbn. by rewrite Hgens0, Hgens.
Qed.

End cuda_random.

(** A machine with [n] devices, not initialised, holding one tensor. *)
Definition example_cuda (n : nat) : CudaRandom.Cuda :=
  CudaRandom.mk_cuda false []
    (replicate n (CudaRandom.mk_generator 0 [] 0 (λ _, ([], 0)))) 0
    {[ 0%nat := [x01; x02; x03]%byte ]} (λ i, 42 + Z.of_nat i) 0.

Lemma seed_setters_without_device_witness :
  ∃ st1 st2,
    CudaRandom.manual_seed 5 (example_cuda 0) = Ok st1
    ∧ CudaRandom.manual_seed 5 st1 = Ok st2
    ∧ CudaRandom.default_generators st2
      = CudaRandom.default_generators (example_cuda 0)
    ∧ CudaRandom._lazy_init st2 = Raise RuntimeError.
Proof.
  destruct (seed_setters_without_device 5 (example_cuda 0) (CudaRandom.manual_seed 5))
    as (st1 & st2 & H1 & H2 & _ & _ & Hg1 & Hg2 & _ & _ & _ & Hinit).
  - intros E. discriminate E.
  - reflexivity.
  - left.
  - exists st1, st2. split; [exact H1|]. split; [exact H2|].
    split; [|exact Hinit]. rewrite Hg2. exact Hg1.
Defined.

Lemma set_rng_state_copies_witness :
  let parse := λ _ : string, Raise ValueError in
  ∃ st1 st3 g,
    CudaRandom.set_rng_state parse 0 (CudaRandom.DevInt 1) (example_cuda 2) = Ok st1
    ∧ CudaRandom._lazy_init (CudaRandom.mutate_tensor 0 [xff]%byte st1) = Ok st3
    ∧ CudaRandom.default_generators st3 !! 1%nat = Some g
    ∧ CudaRandom.g_state g = [x01; x02; x03]%byte.
Proof.
  intros parse.
  assert (∃ st1, CudaRandom.set_rng_state parse 0 (CudaRandom.DevInt 1)
                   (example_cuda 2) = Ok st1) as [st1 Hset]
    by (eexists; reflexivity).
  destruct (set_rng_state_copies parse 0 (CudaRandom.DevInt 1) (example_cuda 2)
              st1 [x01; x02; x03]%byte eq_refl eq_refl Hset)
    as (final_device & Hdev & Hinstalled & Htotal).
  injection Hdev as <-.
  destruct (Htotal eq_refl (le_n 2) [xff]%byte) as [st3 Hinit].
  destruct (Hinstalled [xff]%byte st3 Hinit) as (g & Hg & Hstate).
  exists st1, st3, g. split; [exact Hset|]. split; [exact Hinit|].
  split; [exact Hg | exact Hstate].
Defined.

Lemma seed_all_same_seed_witness :
  ∃ st',
    CudaRandom.run_callback CudaRandom.cb_seed_all (example_cuda 3) = Ok st'
    ∧ CudaRandom.default_generators st'
      = replicate 3 (CudaRandom.mk_generator 42 [] 0 (λ _, ([], 0))).
Proof.
  destruct (seed_all_same_seed (example_cuda 3)) as (st' & Hrun & _ & _ & Hgens & _).
  - cbn. lia.
  - exists st'. split; [exact Hrun | exact Hgens].
Defined.

(** ** The object store: what a call leaves untouched *)

Section store_frame.
Import Store.
Context `{FloatRuntime}.
Implicit Types (h : list obj) (v : hval).

(** The outcome and the final heap of a run satisfy [Q]. *)
Definition post {A} (m : M A) (h : list obj) (Q : res A → list obj → Prop) : Prop :=
  Q (m h).1 (m h).2.

Lemma post_mono {A} (m : M A) h (Q Q' : res A → list obj → Prop) :
  post m h Q → (∀ r h', Q r h' → Q' r h') → post m h Q'.
Proof. unfold post. auto. Qed.

Lemma post_ret {A} (a : A) h (Q : res A → list obj → Prop) :
  Q (Ok a) h → post (mret a) h Q.
Proof. done. Qed.

Lemma post_raise {A} e h (Q : res A → list obj → Prop) :
  Q (Raise e) h → post (raise e) h Q.
Proof. done. Qed.

Lemma post_bind {A B} (m : M A) (k : A → M B) h (Q : res B → list obj → Prop) :
  post m h (λ r h', match r with
                    | Ok a => post (k a) h' Q
                    | Raise e => Q (Raise e) h'
                    end) →
  post (m ≫= k) h Q.
Proof.
  unfold post, mbind, M_bind. by destruct (m h) as [[a|e] h'].
Qed.

Lemma post_alloc o h (Q : res nat → list obj → Prop) :
  Q (Ok (length h)) (h ++ [o]) → post (alloc o) h Q.
Proof. done. Qed.

(** Operations that only read: the heap stays, and a result tells what
    the heap holds. *)
Lemma post_read_dict v h (Q : res (gmap string hval) → list obj → Prop) :
  (∀ l d, v = HRef l → h !! l = Some (ODict d) → Q (Ok d) h) →
  (∀ e, Q (Raise e) h) →
  post (read_dict v) h Q.
Proof.
  intros Hok Herr. unfold post, read_dict. destruct v as [a|l]; [apply Herr|].
  unfold mbind, M_bind, read. destruct (h !! l) as [[d|xs|]|] eqn:E; cbn; eauto.
Qed.

Lemma post_read_list v h (Q : res (list hval) → list obj → Prop) :
  (∀ l xs, v = HRef l → h !! l = Some (OList xs) → Q (Ok xs) h) →
  (∀ e, Q (Raise e) h) →
  post (read_list v) h Q.
Proof.
  intros Hok Herr. unfold post, read_list. destruct v as [a|l]; [apply Herr|].
  unfold mbind, M_bind, read. destruct (h !! l) as [[d|xs|]|] eqn:E; cbn; eauto.
Qed.

Lemma post_read_elem l h
    (Q : res (string * gmap string string * option string * option string * list nat)
         → list obj → Prop) :
  (∀ t a tx tl cs, h !! l = Some (OElem t a tx tl cs) → Q (Ok (t, a, tx, tl, cs)) h) →
  (∀ e, Q (Raise e) h) →
  post (read_elem l) h Q.
Proof.
  intros Hok Herr. unfold post, read_elem.
  unfold mbind, M_bind, read. destruct (h !! l) as [[d|xs|]|] eqn:E; cbn; eauto.
Qed.

Lemma post_isinstance_list v h (Q : res bool → list obj → Prop) :
  (∀ b, (b = true → ∃ l xs, v = HRef l ∧ h !! l = Some (OList xs)) → Q (Ok b) h) →
  (∀ e, Q (Raise e) h) →
  post (isinstance_list v) h Q.
Proof.
  intros Hok Herr. unfold post, isinstance_list.
  destruct v as [a|l]; [by apply Hok|].
  unfold mbind, M_bind, read. destruct (h !! l) as [[d|xs|]|] eqn:E; cbn;
    [apply Hok|apply Hok|apply Hok|apply Herr]; try done. eauto.
Qed.

Lemma post_write l o h (Q : res () → list obj → Prop) :
  (l < length h → Q (Ok ()) (<[l := o]> h))%nat →
  (∀ e, Q (Raise e) h) →
  post (write l o) h Q.
Proof.
  intros Hok Herr. unfold post, write.
  destruct (h !! l) eqn:E; [|apply Herr]. apply Hok. by eapply lookup_lt_Some.
Qed.

Lemma post_dict_setitem l k v h (Q : res () → list obj → Prop) :
  (∀ d, h !! l = Some (ODict d) → Q (Ok ()) (<[l := ODict (<[k := v]> d)]> h)) →
  (∀ e, Q (Raise e) h) →
  post (dict_setitem l k v) h Q.
Proof.
  intros Hok Herr. unfold dict_setitem. apply post_bind, post_read_dict; [|done].
  intros l' d [= <-] Hd. apply post_write; [|done]. intros _. by apply Hok.
Qed.

Lemma post_dict_getitem v k h (Q : res hval → list obj → Prop) :
  (∀ l d x, v = HRef l → h !! l = Some (ODict d) → d !! k = Some x → Q (Ok x) h) →
  (∀ e, Q (Raise e) h) →
  post (dict_getitem v k) h Q.
Proof.
  intros Hok Herr. unfold dict_getitem. apply post_bind, post_read_dict; [|done].
  intros l d -> Hd. destruct (d !! k) eqn:E; [apply post_ret|apply post_raise]; eauto.
Qed.

Lemma post_list_append v x h (Q : res () → list obj → Prop) :
  (∀ l xs, v = HRef l → h !! l = Some (OList xs) →
           Q (Ok ()) (<[l := OList (xs ++ [x])]> h)) →
  (∀ e, Q (Raise e) h) →
  post (list_append v x) h Q.
Proof.
  intros Hok Herr. unfold list_append. destruct v as [a|l]; [by apply post_raise|].
  apply post_bind, post_read_list; [|done].
  intros l' xs [= <-] Hxs. apply post_write; [|done]. intros _. by eapply Hok.
Qed.

Lemma post_for_each {A} (I : list obj → Prop) (body : A → M ()) xs h :
  (∀ x h, x ∈ xs → I h → post (body x) h (λ _ h', I h')) →
  I h → post (for_each body xs) h (λ _ h', I h').
Proof.
  revert h. induction xs as [|x xs IH]; intros h Hbody Hh; [done|].
  cbn [for_each]. apply post_bind.
  eapply post_mono; [apply Hbody; [left|done]|].
  intros [[]|e] h' Hh'; [|done]. apply IH; [|done].
  intros y h'' Hy. apply Hbody. by right.
Qed.

(** *** Heaps that grow *)

Lemma preserved_refl h : preserved h h.
Proof. by intros l o. Qed.

Lemma preserved_trans h1 h2 h3 : preserved h1 h2 → preserved h2 h3 → preserved h1 h3.
Proof. intros H12 H23 l o Hl. eauto. Qed.

Lemma preserved_length h h' : preserved h h' → (length h ≤ length h')%nat.
Proof.
  intros Hp. destruct (decide (length h ≤ length h')%nat); [done|].
  destruct (lookup_lt_is_Some_2 h (length h')) as [o Ho]; [lia|].
  apply Hp, lookup_lt_Some in Ho. lia.
Qed.

Lemma preserved_alloc h o : preserved h (h ++ [o]).
Proof. intros l o' Hl. by apply lookup_app_l_Some. Qed.

Lemma preserved_write h0 h l o :
  preserved h0 h → (length h0 ≤ l)%nat → preserved h0 (<[l := o]> h).
Proof.
  intros Hp Hl l' o' Hl'. rewrite list_lookup_insert_ne; [by apply Hp|].
  apply lookup_lt_Some in Hl'. lia.
Qed.

(** *** [process_xml_element] writes to new cells only *)

(** No value of the dictionary refers to a cell at or below [n]. *)
Definition no_old_refs (n : nat) (d : gmap string hval) : Prop :=
  ∀ k l, d !! k = Some (HRef l) → (n < l)%nat.

(** The invariant of a call that started in [h0]: the cells of [h0] are
    as they were, and the dictionary [ret], allocated first, refers to
    cells allocated after it only. *)
Definition xml_inv (h0 h : list obj) : Prop :=
  preserved h0 h
  ∧ ∃ d, h !! length h0 = Some (ODict d) ∧ no_old_refs (length h0) d.

Lemma xml_inv_write_ret h0 h d :
  xml_inv h0 h → no_old_refs (length h0) d →
  xml_inv h0 (<[length h0 := ODict d]> h).
Proof.
  intros [Hp (d0 & Hd0 & _)] Hd. split; [by apply preserved_write|].
  exists d. split; [|done]. apply list_lookup_insert_eq. by eapply lookup_lt_Some.
Qed.

Lemma xml_inv_write_other h0 h l o :
  xml_inv h0 h → (length h0 < l)%nat → xml_inv h0 (<[l := o]> h).
Proof.
  intros [Hp (d0 & Hd0 & Hrefs)] Hl. split; [apply preserved_write; [done|lia]|].
  exists d0. split; [|done]. rewrite list_lookup_insert_ne by lia. done.
Qed.

Lemma xml_inv_preserved h0 h h' : xml_inv h0 h → preserved h h' → xml_inv h0 h'.
Proof.
  intros [Hp (d0 & Hd0 & Hrefs)] Hh. split; [by eapply preserved_trans|].
  exists d0. split; [by apply Hh | done].
Qed.

Lemma xml_inv_length h0 h : xml_inv h0 h → (length h0 < length h)%nat.
Proof. intros [_ (d & Hd & _)]. by eapply lookup_lt_Some. Qed.

Lemma no_old_refs_insert_atom n d k a :
  no_old_refs n d → no_old_refs n (<[k := HAtom a]> d).
Proof.
  intros Hd k' l. destruct (decide (k = k')) as [<-|Hne].
  - by rewrite lookup_insert_eq.
  - rewrite lookup_insert_ne by done. apply Hd.
Qed.

Lemma no_old_refs_insert_ref n d k l :
  no_old_refs n d → (n < l)%nat → no_old_refs n (<[k := HRef l]> d).
Proof.
  intros Hd Hl k' l'. destruct (decide (k = k')) as [<-|Hne].
  - rewrite lookup_insert_eq. by intros [= <-].
  - rewrite lookup_insert_ne by done. apply Hd.
Qed.

Lemma xml_inv_setitem h0 h k v (Q : res () → list obj → Prop) :
  xml_inv h0 h →
  (∀ l, v = HRef l → (length h0 < l)%nat) →
  (∀ r h', xml_inv h0 h' → Q r h') →
  post (dict_setitem (length h0) k v) h Q.
Proof.
  intros Hinv Hv HQ. apply post_dict_setitem; [|by intros; apply HQ].
  intros d Hd. apply HQ. apply xml_inv_write_ret; [done|].
  destruct Hinv as [_ (d' & Hd' & Hrefs)]. assert (d' = d) as -> by congruence.
  destruct v as [a|l]; [by apply no_old_refs_insert_atom|].
  apply no_old_refs_insert_ref; auto.
Qed.

Lemma process_xml_element_frame fuel :
  ∀ element h,
    post (process_xml_element fuel element) h
      (λ r h', preserved h h'
               ∧ ∀ a, r = Ok a → (length h ≤ a < length h')%nat).
Proof.
  induction fuel as [|fuel IH]; intros element h0.
  { apply post_raise. split; [apply preserved_refl | done]. }
  assert (Hfail : ∀ (e : exn) h, xml_inv h0 h →
            preserved h0 h ∧ ∀ a : nat, Raise e = Ok a → (length h0 ≤ a < length h)%nat)
    by (by intros e h [? _]).
  cbn [process_xml_element].
  apply post_bind, post_read_elem;
    [|intros; split; [apply preserved_refl | done]].
  intros t a tx tl cs _. cbv beta iota.
  apply post_bind, post_alloc.
  assert (Hinv1 : xml_inv h0 (h0 ++ [ODict ∅])).
  { split; [apply preserved_alloc|]. exists ∅. split; [|done].
    by rewrite lookup_app_r, Nat.sub_diag. }
  revert Hinv1. generalize (h0 ++ [ODict ∅]). intros h1 Hinv1.
  (* ret.update(element.attrib) *)
  apply post_bind, post_read_dict; [|by intros; apply Hfail].
  intros l d [= <-] Hd.
  apply post_bind, post_write; [|by intros; apply Hfail]. intros _.
  assert (Hinv2 : xml_inv h0 (<[length h0 :=
            ODict (((λ s : string, HAtom (AStr s)) <$> a) ∪ d)]> h1)).
  { apply xml_inv_write_ret; [done|].
    destruct Hinv1 as [_ (d' & Hd' & Hrefs)]. assert (d' = d) as -> by congruence.
    intros k l [Hk|[_ Hk]]%lookup_union_Some_raw; [|by eapply Hrefs].
    rewrite lookup_fmap in Hk. by destruct (a !! k). }
  revert Hinv2. generalize (<[length h0 :=
            ODict (((λ s : string, HAtom (AStr s)) <$> a) ∪ d)]> h1). clear dependent h1.
  clear d. intros h2 Hinv2.
  (* the conversion of the attribute values *)
  apply post_bind, post_read_dict; [|by intros; apply Hfail].
  intros l d [= <-] Hd.
  apply post_bind, post_write; [|by intros; apply Hfail]. intros _.
  match goal with |- context [<[length h0 := ODict ?d3]> h2] =>
    assert (Hinv3 : xml_inv h0 (<[length h0 := ODict d3]> h2));
    [|revert Hinv3; generalize (<[length h0 := ODict d3]> h2)] end.
  { apply xml_inv_write_ret; [done|].
    destruct Hinv2 as [_ (d' & Hd' & Hrefs)]. assert (d' = d) as -> by congruence.
    intros k l Hk. rewrite lookup_fmap in Hk.
    destruct (d !! k) as [[[]|l']|] eqn:E; try done.
    injection Hk as ->. by eapply Hrefs. }
  clear dependent h2. clear d. intros h3 Hinv3.
  (* text and tail *)
  apply post_bind.
  apply (post_mono _ _ (λ _ h', xml_inv h0 h')).
  { destruct (nonblank tx); [|done]. by apply xml_inv_setitem. }
  clear dependent h3. intros [[]|e] h4 Hinv4; [|by apply Hfail].
  apply post_bind.
  apply (post_mono _ _ (λ _ h', xml_inv h0 h')).
  { destruct (nonblank tl); [|done]. by apply xml_inv_setitem. }
  clear dependent h4. intros [[]|e] h5 Hinv5; [|by apply Hfail].
  (* the children *)
  apply post_bind.
  eapply post_mono; [apply (post_for_each (xml_inv h0)); [|done]|].
  2:{ intros [[]|e] h6 Hinv6; [|by apply Hfail]. apply post_ret.
      split; [apply Hinv6|]. intros r [= <-].
      apply xml_inv_length in Hinv6. lia. }
  clear dependent h5. intros child h _ Hinv.
  apply post_bind, post_read_elem; [|done].
  intros ct ca ctx ctl ccs _. cbv beta iota.
  apply post_bind, post_read_dict; [|done].
  intros l d [= <-] Hd.
  assert (Hrefs : no_old_refs (length h0) d).
  { destruct Hinv as [_ (d' & Hd' & Hrefs)]. by assert (d' = d) as -> by congruence. }
  pose proof (xml_inv_length _ _ Hinv) as Hlen.
  destruct (d !! ct) as [old|] eqn:Eold.
  - apply post_bind, post_isinstance_list; [|done]. intros is_list _.
    apply post_bind.
    apply (post_mono _ _ (λ _ h', xml_inv h0 h')).
    { destruct is_list; [done|].
      apply post_bind, post_alloc.
      apply xml_inv_setitem; [|by intros ? [= <-]|done].
      eapply xml_inv_preserved; [done | apply preserved_alloc]. }
    clear dependent h. clear dependent d. intros [[]|e] h Hinv; [|done].
    apply post_bind, post_dict_getitem; [|done].
    intros l d cur [= <-] Hd Hcur.
    assert (Hcur' : ∀ c, cur = HRef c → (length h0 < c)%nat).
    { intros c ->. destruct Hinv as [_ (d' & Hd' & Hrefs)].
      assert (d' = d) as -> by congruence. by eapply Hrefs. }
    apply post_bind. eapply post_mono; [apply IH|].
    intros [r|e] h' [Hp Hr]; [|by eapply xml_inv_preserved].
    apply post_list_append; [|by intros; eapply xml_inv_preserved].
    intros c xs -> _. apply xml_inv_write_other; [|by apply Hcur'].
    by eapply xml_inv_preserved.
  - apply post_bind. eapply post_mono; [apply IH|].
    intros [r|e] h' [Hp Hr]; [|by eapply xml_inv_preserved].
    apply xml_inv_setitem; [by eapply xml_inv_preserved| |done].
    intros l [= <-]. specialize (Hr r eq_refl). lia.
Qed.

(** *** [summarize_test_cases] writes to new cells only *)

(** A computation that does not change the heap. *)
Definition readonly {A} (m : M A) : Prop := ∀ h, (m h).2 = h.

Lemma readonly_ret {A} (a : A) : readonly (mret a : M A).
Proof. done. Qed.

Lemma readonly_raise {A} e : readonly (raise e : M A).
Proof. done. Qed.

Lemma readonly_bind {A B} (m : M A) (k : A → M B) :
  readonly m → (∀ a, readonly (k a)) → readonly (m ≫= k).
Proof.
  intros Hm Hk h. unfold mbind, M_bind. specialize (Hm h).
  destruct (m h) as [[a|e] h']; cbn in *; subst; [apply Hk | done].
Qed.

Lemma readonly_read l : readonly (read l).
Proof. intros h. unfold read. by destruct (h !! l). Qed.

Lemma readonly_read_dict v : readonly (read_dict v).
Proof.
  destruct v; [apply readonly_raise|].
  apply readonly_bind; [apply readonly_read|]. by intros [].
Qed.

Lemma readonly_read_list v : readonly (read_list v).
Proof.
  destruct v; [apply readonly_raise|].
  apply readonly_bind; [apply readonly_read|]. by intros [].
Qed.

Lemma readonly_dict_getitem v k : readonly (dict_getitem v k).
Proof.
  apply readonly_bind; [apply readonly_read_dict|]. intros d. by destruct (d !! k).
Qed.

Lemma readonly_dict_get v k : readonly (dict_get v k).
Proof. apply readonly_bind; [apply readonly_read_dict|]. done. Qed.

Lemma readonly_dict_contains v k : readonly (dict_contains v k).
Proof. apply readonly_bind; [apply readonly_read_dict|]. done. Qed.

Lemma readonly_hash v : readonly (hash v).
Proof. by destruct v. Qed.

Lemma readonly_add a b : readonly (add a b).
Proof. destruct a as [x|], b as [y|]; try done. cbn. by destruct (atom_add x y). Qed.

Lemma readonly_stc_get_key v : readonly (stc_get_key v).
Proof.
  unfold stc_get_key.
  repeat (apply readonly_bind;
          [first [apply readonly_dict_get | apply readonly_dict_getitem]|intros ?]).
  done.
Qed.

Lemma readonly_stc_hash mark key : readonly (stc_hash mark key).
Proof.
  destruct key as [[[[[k1 k2] k3] k4] k5] k6]. unfold stc_hash.
  repeat (apply readonly_bind; [apply readonly_hash|intros ?]). done.
Qed.

Lemma post_readonly {A} (m : M A) h (Q : res A → list obj → Prop) :
  readonly m → (∀ r, Q r h) → post m h Q.
Proof. intros Hm HQ. unfold post. rewrite Hm. apply HQ. Qed.

(** The invariant of a call that started in [h0]: the cells of [h0] are
    as they were, and the summaries that [ret] holds are new cells. *)
Definition stc_inv (h0 : list obj)
    (ret : list (option nat * (atom * atom * atom * atom * atom * atom)
                 * nat))
    (h : list obj) : Prop :=
  preserved h0 h
  ∧ ∀ key l, od_get key ret = Some l → (length h0 ≤ l)%nat.

Lemma post_dict_iadd_new h0 h l field x (Q : res () → list obj → Prop) :
  preserved h0 h → (length h0 ≤ l)%nat →
  (∀ r h', preserved h0 h' → Q r h') →
  post (dict_iadd (HRef l) field x) h Q.
Proof.
  intros Hp Hl HQ. unfold dict_iadd.
  apply post_bind, post_readonly; [apply readonly_dict_getitem|].
  intros [old|e]; [|by apply HQ].
  apply post_bind, post_readonly; [apply readonly_add|].
  intros [new|e]; [|by apply HQ].
  apply post_dict_setitem; [|by intros; apply HQ].
  intros d _. apply HQ. by apply preserved_write.
Qed.

Lemma stc_init_value_frame v h :
  post (stc_init_value v) h
    (λ r h', preserved h h' ∧ ∀ a, r = Ok a → (length h ≤ a)%nat).
Proof.
  unfold stc_init_value.
  repeat (apply post_bind, post_readonly;
          [first [apply readonly_dict_get | apply readonly_dict_getitem]|];
          intros [?|?]; [|split; [apply preserved_refl|done]]).
  apply post_alloc. split; [apply preserved_alloc|]. by intros l [= <-].
Qed.

Lemma stc_step_frame h0 ret tc h :
  stc_inv h0 ret h →
  post (stc_step ret tc) h
    (λ r h', preserved h0 h' ∧ ∀ ret', r = Ok ret' → stc_inv h0 ret' h').
Proof.
  intros [Hp Hret]. unfold stc_step.
  apply post_bind, post_readonly; [apply readonly_stc_get_key|].
  intros [raw|e]; [|done].
  apply post_bind, post_readonly; [apply readonly_stc_hash|].
  intros [key|e]; [|done].
  apply post_bind.
  apply (post_mono _ _ (λ r h', preserved h0 h'
                                ∧ ∀ ret', r = Ok ret' → stc_inv h0 ret' h')).
  { destruct (od_get key ret) as [l|] eqn:E.
    - apply post_ret. split; [done|]. by intros ret' [= <-].
    - apply post_bind. eapply post_mono; [apply stc_init_value_frame|].
      intros [l|e] h' [Hp' Hl]; [|by split; [eapply preserved_trans|]].
      apply post_ret.
      assert (preserved h0 h') by (by eapply preserved_trans).
      split; [done|]. intros ret' [= <-]. split; [done|].
      intros key' l'. rewrite od_get_od_set.
      destruct (decide (key' = key)); [|by apply Hret].
      intros [= <-]. specialize (Hl l eq_refl).
      apply preserved_length in Hp. lia. }
  clear dependent h. clear dependent ret.
  intros [ret|e] h [Hp Hinv]; [|done].
  destruct (Hinv ret eq_refl) as [_ Hret].
  destruct (od_get key ret) as [entry|] eqn:E; [|by apply post_raise].
  pose proof (Hret key entry E) as Hentry.
  apply post_bind, (post_dict_iadd_new h0); [done|done|].
  clear dependent h. intros [[]|e] h Hp; [|done].
  apply post_bind, post_readonly; [apply readonly_dict_contains|].
  intros [failure|e]; [|done].
  apply post_bind, post_readonly; [apply readonly_dict_contains|].
  intros [error|e]; [|done].
  apply post_bind, post_readonly; [apply readonly_dict_contains|].
  intros [skipped|e]; [|done].
  apply post_bind.
  apply (post_mono _ _ (λ _ h', preserved h0 h')).
  { destruct failure; [|destruct error; [|destruct skipped]];
      by apply (post_dict_iadd_new h0). }
  clear dependent h. intros [[]|e] h Hp; [|done].
  apply post_bind, post_readonly; [apply readonly_dict_getitem|].
  intros [t|e]; [|done].
  apply post_bind, (post_dict_iadd_new h0); [done|done|].
  clear dependent h. intros [[]|e] h Hp; [|done].
  apply post_ret. split; [done|]. intros ret' [= <-]. split; [done|].
  intros key' l' Hl'. by eapply Hret.
Qed.

Lemma stc_fold_frame h0 tcs :
  ∀ ret h, stc_inv h0 ret h →
  post (fold_M stc_step tcs ret) h (λ _ h', preserved h0 h').
Proof.
  induction tcs as [|tc tcs IH]; intros ret h Hinv; [by destruct Hinv|].
  cbn [fold_M]. apply post_bind.
  eapply post_mono; [by apply stc_step_frame|].
  intros [ret'|e] h' [Hp Hinv']; [|done]. by apply IH, Hinv'.
Qed.

Lemma summarize_test_cases_frame test_cases h :
  post (summarize_test_cases test_cases) h
    (λ r h', preserved h h'
             ∧ ∀ a, r = Ok a → (length h ≤ a < length h')%nat).
Proof.
  unfold summarize_test_cases.
  apply post_bind, post_readonly; [apply readonly_read_list|].
  intros [tcs|e]; [|split; [apply preserved_refl|done]].
  apply post_bind. eapply post_mono.
  { apply (stc_fold_frame h). split; [apply preserved_refl|done]. }
  intros [ret|e] h' Hp; [|by split].
  apply post_alloc. split; [eapply preserved_trans; [done|apply preserved_alloc]|].
  intros a [= <-]. apply preserved_length in Hp. rewrite length_app. cbn. lia.
Qed.

End store_frame.

(** ** The object store: what a call returns *)

Section store_refinement.
Import Store.
Context `{FloatRuntime}.
Implicit Types (h : list obj) (S : nat → Prop).

(** A representation only depends on the cells it goes through. *)
Lemma hrepr_ext P Q h h' :
  (∀ l, P l → Q l ∧ h' !! l = h !! l) →
  ∀ hv v, hrepr P h hv v → hrepr Q h' hv v.
Proof.
  intros HPQ. fix IH 3.
  intros hv v [a | l d dv Hl Hd Hentries | l xs vs Hl Hxs Helems].
  - constructor.
  - destruct (HPQ l Hl) as [HQ Heq].
    apply hrepr_dict with d; [done | by rewrite Heq |].
    intros k. destruct (Hentries k) as [x y Hxy|]; constructor. by apply IH.
  - destruct (HPQ l Hl) as [HQ Heq].
    apply hrepr_list with xs; [done | by rewrite Heq |].
    clear Hxs. revert xs vs Helems.
    fix go 3. intros xs vs [|x y xs' vs' Hxy Hrest]; constructor.
    + by apply IH.
    + by apply go.
Qed.

Lemma erepr_preserved h h' :
  preserved h h' → ∀ l e, erepr h l e → erepr h' l e.
Proof.
  intros Hp. fix IH 3. intros l e [l' e' cs Hl Hcs].
  apply erepr_elem with cs; [by apply Hp|].
  clear Hl. revert Hcs. generalize (children e'). revert cs.
  fix go 3. intros cs es [|c e0 cs' es' Hc Hrest]; constructor.
  - by apply IH.
  - by apply go.
Qed.

(** *** Runs of the primitive operations *)

Lemma post_bind_run {A B} (m : M A) (k : A → M B) h a h'
    (Q : res B → list obj → Prop) :
  m h = (Ok a, h') → post (k a) h' Q → post (m ≫= k) h Q.
Proof. intros Hm Hk. unfold post, mbind, M_bind. by rewrite Hm. Qed.

Lemma post_bind_post {A B} (m : M A) (k : A → M B) h
    (Q1 : res A → list obj → Prop) (Q : res B → list obj → Prop) :
  post m h Q1 →
  (∀ r h', Q1 r h' → match r with
                     | Ok a => post (k a) h' Q
                     | Raise e => Q (Raise e) h'
                     end) →
  post (m ≫= k) h Q.
Proof. intros Hm Hk. apply post_bind. eapply post_mono; [done|]. apply Hk. Qed.

Lemma post_and {A} (m : M A) h (Q1 Q2 : res A → list obj → Prop) :
  post m h Q1 → post m h Q2 → post m h (λ r h', Q1 r h' ∧ Q2 r h').
Proof. by split. Qed.

Lemma read_elem_run h l t a tx tl cs :
  h !! l = Some (OElem t a tx tl cs) → read_elem l h = (Ok (t, a, tx, tl, cs), h).
Proof. intros Hl. unfold read_elem, mbind, M_bind, read. by rewrite Hl. Qed.

Lemma read_dict_run h l d :
  h !! l = Some (ODict d) → read_dict (HRef l) h = (Ok d, h).
Proof. intros Hl. unfold read_dict, mbind, M_bind, read. by rewrite Hl. Qed.

Lemma read_list_run h l xs :
  h !! l = Some (OList xs) → read_list (HRef l) h = (Ok xs, h).
Proof. intros Hl. unfold read_list, mbind, M_bind, read. by rewrite Hl. Qed.

Lemma write_run h l o o' :
  h !! l = Some o' → write l o h = (Ok (), <[l := o]> h).
Proof. intros Hl. unfold write. by rewrite Hl. Qed.

Lemma dict_setitem_run h l d k v :
  h !! l = Some (ODict d) →
  dict_setitem l k v h = (Ok (), <[l := ODict (<[k := v]> d)]> h).
Proof.
  intros Hl. unfold dict_setitem, mbind, M_bind.
  rewrite (read_dict_run _ _ _ Hl). by eapply write_run.
Qed.

Lemma dict_getitem_run h l d k v :
  h !! l = Some (ODict d) → d !! k = Some v →
  dict_getitem (HRef l) k h = (Ok v, h).
Proof.
  intros Hl Hk. unfold dict_getitem, mbind, M_bind.
  rewrite (read_dict_run _ _ _ Hl). by rewrite Hk.
Qed.

Lemma list_append_run h l xs x :
  h !! l = Some (OList xs) →
  list_append (HRef l) x h = (Ok (), <[l := OList (xs ++ [x])]> h).
Proof.
  intros Hl. unfold list_append, mbind, M_bind.
  rewrite (read_list_run _ _ _ Hl). by eapply write_run.
Qed.

Lemma isinstance_list_atom h a : isinstance_list (HAtom a) h = (Ok false, h).
Proof. done. Qed.

Lemma isinstance_list_dict h l d :
  h !! l = Some (ODict d) → isinstance_list (HRef l) h = (Ok false, h).
Proof. intros Hl. unfold isinstance_list, mbind, M_bind, read. by rewrite Hl. Qed.

Lemma isinstance_list_list h l xs :
  h !! l = Some (OList xs) → isinstance_list (HRef l) h = (Ok true, h).
Proof. intros Hl. unfold isinstance_list, mbind, M_bind, read. by rewrite Hl. Qed.

Lemma coerce_coerce_atom s : coerce s = VAtom (coerce_atom s).
Proof.
  unfold coerce, coerce_atom. by destruct (py_float s), (PyStr.py_int s).
Qed.

(** *** The loop over the children *)

(** The body of [for child in element], for the dictionary at [ret]. *)
Definition visit_child (fuel ret : nat) (child : nat) : M () :=
  '(child_tag, _, _, _, _) ← read_elem child;
  d ← read_dict (HRef ret);
  match d !! child_tag with
  | None =>
      r ← process_xml_element fuel child;
      dict_setitem ret child_tag (HRef r)
  | Some old =>
      is_list ← isinstance_list old;
      _ ← (if (is_list : bool) then pass
           else l ← alloc (OList [old]);
                dict_setitem ret child_tag (HRef l));
      cur ← dict_getitem (HRef ret) child_tag;
      r ← process_xml_element fuel child;
      list_append cur (HRef r)
  end.

Section loop.
Context (n0 : nat).

(** How an entry of the dictionary at [n0] relates to the entry of the
    mapping of the functional model.  [S] are the cells that the calls
    on the children have allocated; a list of children lives in a cell
    outside [S]. *)
Definition entry_rel S h (x : option hval) (y : option val) : Prop :=
  match x, y with
  | None, None => True
  | Some (HAtom a), Some (VAtom b) => a = b
  | Some (HRef r), Some (VDict dv) => hrepr S h (HRef r) (VDict dv)
  | Some (HRef c), Some (VList vs) =>
      ¬ S c ∧ (n0 < c)%nat
      ∧ ∃ xs, h !! c = Some (OList xs) ∧ Forall2 (hrepr S h) xs vs
  | _, _ => False
  end.

Definition loop_inv S h (d : gmap string hval) (pret : gmap string val) : Prop :=
  h !! n0 = Some (ODict d)
  ∧ (∀ k, entry_rel S h (d !! k) (pret !! k))
  ∧ (∀ k k' c, d !! k = Some (HRef c) → d !! k' = Some (HRef c) → ¬ S c → k = k')
  ∧ (∀ l, S l → (n0 < l < length h)%nat).

Lemma hrepr_ref_inv S h l v :
  hrepr S h (HRef l) v → S l ∧ is_Some (h !! l).
Proof. inversion 1; eauto. Qed.

Lemma entry_rel_mono S S' h h' x y :
  entry_rel S h x y →
  (∀ l, S l → S' l ∧ h' !! l = h !! l) →
  (∀ c xs, x = Some (HRef c) → h !! c = Some (OList xs) → ¬ S c →
           ¬ S' c ∧ h' !! c = Some (OList xs)) →
  entry_rel S' h' x y.
Proof.
  intros Hrel HS Hlist.
  destruct x as [[a|r]|], y as [[b|dv|vs]|]; cbn in *; try done.
  - by eapply hrepr_ext.
  - destruct Hrel as (Hns & Hn0 & xs & Hc & Hall).
    destruct (Hlist r xs eq_refl Hc Hns) as [Hns' Hc'].
    split; [done|]. split; [done|]. exists xs. split; [done|].
    eapply Forall2_impl; [done|]. intros x y. by apply hrepr_ext.
Qed.

(** An entry that is not a list is the representation of its value. *)
Lemma entry_rel_scalar S h old oldv :
  entry_rel S h (Some old) (Some oldv) →
  (∀ vs, oldv ≠ VList vs) → hrepr S h old oldv.
Proof.
  destruct old as [a|r], oldv as [b|dv|vs]; cbn; try done.
  - intros -> _. constructor.
  - intros _ Hne. by destruct (Hne vs).
Qed.

Lemma entry_rel_cell S h c y :
  entry_rel S h (Some (HRef c)) y → (c < length h)%nat.
Proof.
  destruct y as [[b|dv|vs]|]; cbn; try done.
  - intros [_ [o Ho]]%hrepr_ref_inv. by eapply lookup_lt_Some.
  - intros (_ & _ & xs & Hc & _). by eapply lookup_lt_Some.
Qed.

(** The heap grows by the cells of a call on a child. *)
Lemma loop_inv_grow S S' h h' d pret :
  loop_inv S h d pret → preserved h h' →
  (∀ l, S' l ↔ S l ∨ (length h ≤ l < length h')%nat) →
  loop_inv S' h' d pret.
Proof.
  intros (Hd & Hrel & Hdist & Hcells) Hp HS'.
  pose proof (preserved_length _ _ Hp) as Hlen.
  split; [by apply Hp|]. split; [|split].
  - intros k. eapply entry_rel_mono; [apply Hrel| |].
    + intros l Hl. split; [apply HS'; by left|].
      destruct (Hcells l Hl) as [_ Hlt].
      apply lookup_lt_is_Some_2 in Hlt as [o Ho]. rewrite Ho. by apply Hp.
    + intros c xs _ Hc Hns. split; [|by apply Hp].
      intros [?|Hnew]%HS'; [done|]. apply lookup_lt_Some in Hc. lia.
  - intros k k' c Hk Hk' Hns. apply (Hdist k k' c Hk Hk').
    intros Hc. apply Hns, HS'. by left.
  - intros l [Hl|Hl]%HS'; [|apply lookup_lt_Some in Hd; lia].
    specialize (Hcells l Hl). lia.
Qed.

(** [ret[tag] = converted child], for a tag that is not a key yet. *)
Lemma loop_inv_set_dict S h d pret t r dv :
  loop_inv S h d pret → d !! t = None →
  hrepr S h (HRef r) (VDict dv) →
  loop_inv S (<[n0 := ODict (<[t := HRef r]> d)]> h) (<[t := HRef r]> d)
    (<[t := VDict dv]> pret).
Proof.
  intros (Hd & Hrel & Hdist & Hcells) Ht Hr.
  assert (Hn0 : (n0 < length h)%nat) by (by eapply lookup_lt_Some).
  assert (Hkeep : ∀ l, l ≠ n0 → <[n0 := ODict (<[t := HRef r]> d)]> h !! l = h !! l)
    by (intros l Hl; by rewrite list_lookup_insert_ne).
  assert (HS : ∀ l, S l → S l ∧ <[n0 := ODict (<[t := HRef r]> d)]> h !! l = h !! l).
  { intros l Hl. split; [done|]. apply Hkeep. specialize (Hcells l Hl). lia. }
  split; [by apply list_lookup_insert_eq|]. split; [|split].
  - intros k. destruct (decide (t = k)) as [<-|Hne].
    + rewrite !lookup_insert_eq. cbn. by eapply hrepr_ext.
    + rewrite !lookup_insert_ne by done.
      eapply entry_rel_mono; [apply Hrel|done|].
      intros c xs Hk Hc Hns. split; [done|]. rewrite Hkeep; [done|].
      specialize (Hrel k). rewrite Hk in Hrel.
      destruct (pret !! k) as [[b|dv'|vs]|]; cbn in Hrel; try done.
      * apply hrepr_ref_inv in Hrel as [? _]. done.
      * destruct Hrel as (_ & ? & _). lia.
  - apply hrepr_ref_inv in Hr as [Hr _].
    intros k k' c Hk Hk' Hns.
    destruct (decide (t = k)) as [<-|Hne], (decide (t = k')) as [<-|Hne'].
    + done.
    + rewrite lookup_insert_eq in Hk. injection Hk as <-. by destruct Hns.
    + rewrite lookup_insert_eq in Hk'. injection Hk' as <-. by destruct Hns.
    + rewrite lookup_insert_ne in Hk, Hk' by done. by eapply Hdist.
  - intros l Hl. rewrite length_insert. by apply Hcells.
Qed.

(** [ret[tag] = [ret[tag]]], into a new cell [c]. *)
Lemma loop_inv_wrap S h d pret t old oldv :
  loop_inv S h d pret → d !! t = Some old → pret !! t = Some oldv →
  (∀ vs, oldv ≠ VList vs) →
  let c := length h in
  loop_inv S (<[n0 := ODict (<[t := HRef c]> d)]> (h ++ [OList [old]]))
    (<[t := HRef c]> d) (<[t := VList [oldv]]> pret).
Proof.
  intros (Hd & Hrel & Hdist & Hcells) Ht Hpt Hscalar c.
  assert (Hn0 : (n0 < length h)%nat) by (by eapply lookup_lt_Some).
  set (h' := <[n0 := ODict (<[t := HRef c]> d)]> (h ++ [OList [old]])).
  assert (Hkeep : ∀ l, l ≠ n0 → (l < length h)%nat → h' !! l = h !! l).
  { intros l Hl Hlt. unfold h'. rewrite list_lookup_insert_ne by done.
    by apply lookup_app_l. }
  assert (HS : ∀ l, S l → S l ∧ h' !! l = h !! l).
  { intros l Hl. split; [done|]. specialize (Hcells l Hl). apply Hkeep; lia. }
  assert (Hc : h' !! c = Some (OList [old])).
  { unfold h', c. rewrite list_lookup_insert_ne by lia.
    by rewrite lookup_app_r, Nat.sub_diag. }
  assert (Hnc : ¬ S c) by (intros Hc'%Hcells; unfold c in Hc'; lia).
  split; [|split; [|split]].
  - apply list_lookup_insert_eq. rewrite length_app. lia.
  - intros k. destruct (decide (t = k)) as [<-|Hne].
    + rewrite !lookup_insert_eq. cbn. split; [done|]. split; [unfold c; lia|].
      exists [old]. split; [done|]. constructor; [|constructor].
      eapply hrepr_ext; [apply HS|]. apply entry_rel_scalar; [|done].
      specialize (Hrel t). by rewrite Ht, Hpt in Hrel.
    + rewrite !lookup_insert_ne by done.
      eapply entry_rel_mono; [apply Hrel|done|].
      intros c' xs Hk Hc' Hns. split; [done|].
      rewrite Hkeep; [done| |by eapply lookup_lt_Some].
      specialize (Hrel k). rewrite Hk in Hrel.
      destruct (pret !! k) as [[b|dv'|vs]|]; cbn in Hrel; try done.
      * apply hrepr_ref_inv in Hrel as [? _]. done.
      * destruct Hrel as (_ & ? & _). lia.
  - intros k k' c' Hk Hk' Hns.
    assert (Hold : ∀ k0, d !! k0 = Some (HRef c') → c' ≠ c).
    { intros k0 Hk0. specialize (Hrel k0). rewrite Hk0 in Hrel.
      apply entry_rel_cell in Hrel. unfold c. lia. }
    destruct (decide (t = k)) as [<-|Hne], (decide (t = k')) as [<-|Hne'].
    + done.
    + rewrite lookup_insert_eq in Hk. rewrite lookup_insert_ne in Hk' by done.
      injection Hk as <-. by destruct (Hold k').
    + rewrite lookup_insert_eq in Hk'. rewrite lookup_insert_ne in Hk by done.
      injection Hk' as <-. by destruct (Hold k).
    + rewrite lookup_insert_ne in Hk, Hk' by done. by eapply Hdist.
  - intros l Hl. unfold h'. rewrite length_insert, length_app.
    specialize (Hcells l Hl). lia.
Qed.

(** [ret[tag].append(converted child)] *)
Lemma loop_inv_append S h d pret t c vs r dv :
  loop_inv S h d pret → d !! t = Some (HRef c) → pret !! t = Some (VList vs) →
  hrepr S h (HRef r) (VDict dv) →
  ∃ xs, h !! c = Some (OList xs)
        ∧ loop_inv S (<[c := OList (xs ++ [HRef r])]> h) d
            (<[t := VList (vs ++ [VDict dv])]> pret).
Proof.
  intros (Hd & Hrel & Hdist & Hcells) Ht Hpt Hr.
  pose proof (Hrel t) as Hentry. rewrite Ht, Hpt in Hentry.
  destruct Hentry as (Hnc & Hc0 & xs & Hc & Hall).
  exists xs. split; [done|].
  set (h' := <[c := OList (xs ++ [HRef r])]> h).
  assert (Hkeep : ∀ l, l ≠ c → h' !! l = h !! l)
    by (intros l Hl; unfold h'; by rewrite list_lookup_insert_ne).
  assert (HS : ∀ l, S l → S l ∧ h' !! l = h !! l).
  { intros l Hl. split; [done|]. apply Hkeep. by intros ->. }
  split; [|split; [|split]].
  - rewrite Hkeep by lia. done.
  - intros k. destruct (decide (t = k)) as [<-|Hne].
    + rewrite Ht, lookup_insert_eq. cbn. split; [done|]. split; [done|].
      exists (xs ++ [HRef r]). split.
      { unfold h'. apply list_lookup_insert_eq. by eapply lookup_lt_Some. }
      apply Forall2_app.
      * eapply Forall2_impl; [done|]. intros x y. by apply hrepr_ext.
      * constructor; [|constructor]. by eapply hrepr_ext.
    + rewrite lookup_insert_ne by done.
      eapply entry_rel_mono; [apply Hrel|done|].
      intros c' xs' Hk Hc' Hns. split; [done|].
      rewrite Hkeep; [done|]. intros ->. by destruct (Hne (Hdist t k c Ht Hk Hnc)).
  - done.
  - intros l Hl. unfold h'. rewrite length_insert. by apply Hcells.
Qed.

(** The pure step, by cases on the entry under the tag. *)
Lemma add_child_None (pret : gmap string val) t dv :
  pret !! t = None → add_child pret (t, dv) = <[t := VDict dv]> pret.
Proof. intros Ht. unfold add_child. cbn [fst snd]. by rewrite Ht. Qed.

Lemma add_child_list (pret : gmap string val) t vs dv :
  pret !! t = Some (VList vs) →
  add_child pret (t, dv) = <[t := VList (vs ++ [VDict dv])]> pret.
Proof. intros Ht. unfold add_child. cbn [fst snd]. by rewrite Ht. Qed.

Lemma add_child_scalar (pret : gmap string val) t oldv dv :
  pret !! t = Some oldv → (∀ vs, oldv ≠ VList vs) →
  add_child pret (t, dv)
  = <[t := VList ([oldv] ++ [VDict dv])]> (<[t := VList [oldv]]> pret).
Proof.
  intros Ht Hscalar. unfold add_child. cbn [fst snd].
  rewrite Ht, insert_insert_eq.
  destruct oldv as [a|dv'|vs]; [done|done|]. by destruct (Hscalar vs).
Qed.

Lemma isinstance_list_scalar S h old oldv :
  entry_rel S h (Some old) (Some oldv) → (∀ vs, oldv ≠ VList vs) →
  isinstance_list old h = (Ok false, h).
Proof.
  intros Hrel Hscalar. apply entry_rel_scalar in Hrel; [|done].
  inversion Hrel; subst.
  - apply isinstance_list_atom.
  - by eapply isinstance_list_dict.
  - by destruct (Hscalar vs).
Qed.

Lemma wrap_run h d t old :
  h !! n0 = Some (ODict d) →
  (l ← alloc (OList [old]); dict_setitem n0 t (HRef l)) h
  = (Ok (), <[n0 := ODict (<[t := HRef (length h)]> d)]> (h ++ [OList [old]])).
Proof.
  intros Hd. unfold mbind at 1. unfold M_bind, alloc.
  apply dict_setitem_run. by apply lookup_app_l_Some.
Qed.

(** The statement of the refinement for calls with [fuel]. *)
Definition refines (fuel : nat) : Prop :=
  ∀ e l h, erepr h l e → (depth e ≤ fuel)%nat →
    post (process_xml_element fuel l) h
      (λ r h', ∃ a, r = Ok a
         ∧ hrepr (λ x, (length h ≤ x < length h')%nat) h' (HRef a)
             (VDict (UploadTestStats.process_xml_element e))).

Lemma call_child fuel h0 S h d pret cl ec :
  refines fuel →
  preserved h0 h → loop_inv S h d pret → erepr h0 cl ec → (depth ec ≤ fuel)%nat →
  post (process_xml_element fuel cl) h
    (λ r h', ∃ a S', r = Ok a ∧ preserved h h'
       ∧ loop_inv S' h' d pret
       ∧ hrepr S' h' (HRef a) (VDict (UploadTestStats.process_xml_element ec))).
Proof.
  intros IH Hp Hinv Hec Hdepth.
  eapply post_mono.
  { apply post_and; [apply (IH ec cl h); [|done]|apply process_xml_element_frame].
    by eapply erepr_preserved. }
  cbn beta. intros r h' [(a & -> & Hrepr) [Hp' _]].
  exists a, (λ l, S l ∨ (length h ≤ l < length h')%nat).
  split; [done|]. split; [done|]. split.
  - by eapply loop_inv_grow.
  - eapply hrepr_ext; [|done]. intros l Hl. split; [by right | done].
Qed.

Lemma visit_child_refines fuel h0 S h d pret cl ec :
  refines fuel → (length h0 ≤ n0)%nat →
  preserved h0 h → loop_inv S h d pret → erepr h0 cl ec → (depth ec ≤ fuel)%nat →
  post (visit_child fuel n0 cl) h
    (λ r h', r = Ok () ∧ preserved h0 h'
       ∧ ∃ S' d', loop_inv S' h' d'
           (add_child pret (tag ec, UploadTestStats.process_xml_element ec))).
Proof.
  intros IH Hn0 Hp Hinv Hec Hdepth.
  assert (∃ cs, h !! cl = Some (OElem (tag ec) (attrib ec) (text ec) (tail ec) cs))
    as [cs Hcl] by (inversion Hec; subst; eauto).
  unfold visit_child.
  eapply post_bind_run; [by apply read_elem_run|]. cbv beta iota.
  pose proof Hinv as (Hd & Hrel & _ & _).
  eapply post_bind_run; [by apply read_dict_run|].
  pose proof (Hrel (tag ec)) as Hentry.
  destruct (d !! tag ec) as [old|] eqn:Eold.
  - destruct (pret !! tag ec) as [oldv|] eqn:Epret; [|by destruct old].
    assert (Hcases : (∃ c vs, old = HRef c ∧ oldv = VList vs)
                     ∨ (∀ vs, oldv ≠ VList vs)).
    { destruct oldv as [b|dv0|vs]; [by right|by right|].
      destruct old as [a|c]; [done|]. left. eauto. }
    destruct Hcases as [(c & vs & -> & ->)|Hscalar].
    + (* the entry is a list already *)
      destruct Hentry as (Hnc & Hc0 & xs & Hc & Hall).
      eapply post_bind_run; [by eapply isinstance_list_list|]. cbv beta iota.
      eapply post_bind_run; [done|].
      eapply post_bind_run; [by eapply dict_getitem_run|].
      eapply post_bind_post; [by eapply call_child|].
      cbn beta. intros r h' (a & S' & -> & Hp' & Hinv' & Ha).
      destruct (loop_inv_append _ _ _ _ _ _ _ _ _ Hinv' Eold Epret Ha)
        as (xs' & Hc' & Hinv'').
      unfold post. rewrite (list_append_run _ _ _ _ Hc'). cbn [fst snd].
      split; [done|]. split.
      * apply preserved_write; [by eapply preserved_trans | lia].
      * exists S', d. by rewrite (add_child_list _ _ _ _ Epret).
    + (* the entry is wrapped into a new list first *)
      eapply post_bind_run; [by eapply isinstance_list_scalar|]. cbv beta iota.
      eapply post_bind_run; [by apply wrap_run|].
      pose proof (loop_inv_wrap _ _ _ _ _ _ _ Hinv Eold Epret Hscalar) as Hinv1.
      cbv zeta in Hinv1.
      set (h1 := <[n0 := ODict (<[tag ec := HRef (length h)]> d)]>
                   (h ++ [OList [old]])) in *.
      assert (Hp1 : preserved h0 h1).
      { apply preserved_write; [|done].
        eapply preserved_trans; [done|apply preserved_alloc]. }
      eapply post_bind_run.
      { eapply dict_getitem_run; [apply Hinv1|]. apply lookup_insert_eq. }
      eapply post_bind_post; [by eapply call_child|].
      cbn beta. intros r h' (a & S' & -> & Hp' & Hinv' & Ha).
      edestruct (loop_inv_append S' h') as (xs' & Hc' & Hinv'');
        [exact Hinv'|apply lookup_insert_eq|apply lookup_insert_eq|exact Ha|].
      unfold post. rewrite (list_append_run _ _ _ _ Hc'). cbn [fst snd].
      split; [done|]. split.
      * apply preserved_write; [by eapply preserved_trans|].
        apply lookup_lt_Some in Hd. apply preserved_length in Hp. lia.
      * exists S', (<[tag ec := HRef (length h)]> d).
        by rewrite (add_child_scalar _ _ _ _ Epret Hscalar).
  - (* a new key *)
    destruct (pret !! tag ec) as [oldv|] eqn:Epret; [done|].
    eapply post_bind_post; [by eapply call_child|].
    cbn beta. intros r h' (a & S' & -> & Hp' & Hinv' & Ha).
    pose proof (loop_inv_set_dict _ _ _ _ _ _ _ Hinv' Eold Ha) as Hinv''.
    unfold post. rewrite (dict_setitem_run _ _ d); [|apply Hinv'].
    cbn [fst snd]. split; [done|]. split.
    + apply preserved_write; [by eapply preserved_trans | done].
    + exists S', (<[tag ec := HRef a]> d). by rewrite (add_child_None _ _ _ Epret).
Qed.

End loop.

End store_refinement.

(** ** Further properties of the aggregators *)

Section sums.

Lemma forallb_elem {A} (f : A → bool) l x :
  forallb f l = true → x ∈ l → f x = true.
Proof.
  induction l as [|y l IH]; intros Hall Hx; [by apply elem_of_nil in Hx|].
  cbn in Hall. apply andb_prop in Hall as [Hy Hl].
  apply elem_of_cons in Hx as [->|Hx]; auto.
Qed.

Lemma omap_fmap_Some {A B C} (f : B → option C) (g : A → B) (h : A → C)
    (l : list A) :
  (∀ x, x ∈ l → f (g x) = Some (h x)) → omap f (g <$> l) = h <$> l.
Proof.
  induction l as [|x l IH]; intros Hf; [done|]. cbn.
  rewrite Hf by left. cbn. rewrite IH; [done|].
  intros y Hy. apply Hf. by right.
Qed.

Lemma omap_project {A K K'} (f : A → option K) (g : A → option K')
    (proj : K → K') (l : list A) :
  (∀ x, x ∈ l → ∃ k, f x = Some k ∧ g x = Some (proj k)) →
  omap g l = proj <$> omap f l.
Proof.
  induction l as [|x l IH]; intros Hl; [done|].
  destruct (Hl x) as (k & Hf & Hg); [left|]. cbn. rewrite Hf, Hg. cbn.
  rewrite IH; [done|]. intros y Hy. apply Hl. by right.
Qed.

(** Taking first occurrences before a projection does not change the
    first occurrences of the projected sequence. *)
Lemma first_occurrences_fmap {K K'} `{EqDecision K} `{EqDecision K'}
    (proj : K → K') (l : list K) :
  first_occurrences (proj <$> first_occurrences l) = first_occurrences (proj <$> l).
Proof.
  induction l as [|k l IH] using rev_ind; [done|].
  rewrite fmap_app. cbn [fmap list_fmap].
  rewrite (first_occurrences_snoc (proj <$> l)), <- IH.
  rewrite first_occurrences_snoc.
  destruct (decide (k ∈ first_occurrences l)) as [Hk|Hk].
  - rewrite decide_True; [done|].
    apply elem_of_first_occurrences, list_elem_of_fmap. eauto.
  - rewrite fmap_app. cbn [fmap list_fmap]. apply first_occurrences_snoc.
Qed.

End sums.

Section aggregator_properties.
Context `{FloatRuntime}.

Lemma stc_well_formed_key tc :
  stc_well_formed tc = true → is_Some (stc_key tc).
Proof.
  intros Hwf.
  assert (Hk : stc_keyed tc = true).
  { change (stc_keyed tc && has_addend tc "time" = true) in Hwf.
    by apply andb_prop in Hwf as [? _]. }
  destruct (stc_keyed_atoms tc Hk) as (a1 & a2 & a3 & a4 & a5 & a6 & _ & Hkey & _).
  unfold stc_key. rewrite Hkey. eauto.
Qed.

Lemma stc_keys_cover tcs :
  forallb stc_well_formed tcs = true →
  ∀ tc, tc ∈ tcs →
    ∃ k, stc_key tc = Some k ∧ k ∈ first_occurrences (omap stc_key tcs).
Proof.
  intros Hwf tc Htc.
  destruct (stc_well_formed_key tc) as [k Hk]; [by eapply forallb_elem|].
  exists k. split; [done|].
  apply elem_of_first_occurrences, list_elem_of_omap. eauto.
Qed.

Lemma summarize_test_cases_inv tcs out :
  summarize_test_cases tcs = Ok out → forallb stc_plain tcs = true →
  forallb stc_well_formed tcs = true
  ∧ out = stc_summary tcs <$> first_occurrences (omap stc_key tcs).
Proof.
  intros Hrun Hp.
  pose proof (summarize_test_cases_Ok_well_formed _ _ Hrun) as Hwf.
  rewrite (summarize_test_cases_total _ Hwf Hp) in Hrun. by injection Hrun as <-.
Qed.

Lemma summarize_test_cases_sums tcs out :
  summarize_test_cases tcs = Ok out → stc_sums out = stc_counts tcs.
Proof.
  intros Hrun. pose proof (summarize_test_cases_cases tcs) as Hcases.
  rewrite Hrun in Hcases. tauto.
Qed.

(** X1.  [summarize_test_cases] returns a result exactly when every test
    case has the keys [job_id], [workflow_id], [workflow_run_attempt] and
    [invoking_file] with hashable values, a [file] and a [classname] that
    are hashable or absent, and a [time] that is a float or an integer
    within the range of the floats; on any other input it raises. *)
Theorem summarize_test_cases_defined tcs :
  is_ok (summarize_test_cases tcs) = forallb stc_well_formed tcs.
Proof.
  pose proof (summarize_test_cases_cases tcs) as Hcases.
  destruct (summarize_test_cases tcs) as [out|err]; cbn [is_ok].
  - symmetry. tauto.
  - destruct Hcases as (good & bad & rest & -> & _ & Hbad & _).
    rewrite forallb_app. cbn [forallb]. rewrite Hbad.
    by rewrite andb_false_r.
Qed.

(** X2.  When no key field of a test case is a nan, the summaries that
    [summarize_test_cases] returns come in the order in which their
    composite keys first occur among the test cases, one summary per
    key; composite keys are compared as a dictionary compares them. *)
Theorem summarize_test_cases_order tcs out :
  summarize_test_cases tcs = Ok out →
  forallb stc_plain tcs = true →
  omap stc_key out = first_occurrences (omap stc_key tcs)
  ∧ NoDup (omap stc_key out)
  ∧ length out = length (first_occurrences (omap stc_key tcs)).
Proof.
  intros Hrun Hp. destruct (summarize_test_cases_inv _ _ Hrun Hp) as [Hwf ->].
  rewrite (omap_fmap_Some stc_key (stc_summary tcs) id)
    by apply stc_key_summary.
  rewrite list_fmap_id, length_fmap.
  split; [done|]. split; [apply NoDup_first_occurrences | done].
Qed.

(** X3.  Over all summaries, the [tests] counters add up to the number of
    test cases, and each outcome counter adds up to the number of test
    cases with that outcome: no test case is lost or counted twice. *)
Theorem summarize_test_cases_totals tcs out :
  summarize_test_cases tcs = Ok out →
  field_sum "tests" out = Z.of_nat (length tcs)
  ∧ field_sum "failures" out = count is_failure tcs
  ∧ field_sum "errors" out = count is_error tcs
  ∧ field_sum "skipped" out = count is_skipped tcs
  ∧ field_sum "successes" out = count is_success tcs.
Proof.
  intros Hsums%summarize_test_cases_sums.
  unfold stc_sums, stc_counts in Hsums.
  injection Hsums as Hn Hf He Hs Hu. repeat split; assumption.
Qed.

(** X4.  The first test case that [summarize_test_cases] cannot process
    decides the exception: after any number of processable test cases the
    call raises what the offending test case raises on its own, whatever
    follows it.  That is [KeyError] when one of the four indexed keys is
    missing, otherwise [TypeError] when a key field is not hashable,
    otherwise [KeyError] when there is no [time], [TypeError] when the
    [time] is not a number, and [OverflowError] when it is an integer
    beyond the range of the floats. *)
Theorem summarize_test_cases_first_error good bad rest :
  forallb stc_well_formed good = true →
  stc_well_formed bad = false →
  ∃ e,
    summarize_test_cases (good ++ bad :: rest) = Raise e
    ∧ summarize_test_cases [bad] = Raise e
    ∧ e = if negb (forallb (contains bad)
                     ["job_id"; "workflow_id"; "workflow_run_attempt";
                      "invoking_file"])
          then KeyError
          else if negb (forallb (has_atom bad)
                          ["job_id"; "workflow_id"; "workflow_run_attempt";
                           "invoking_file"]
                        && forallb (has_atom_or_nothing bad)
                             ["file"; "classname"])
          then TypeError
          else match bad !! "time" with
               | None => KeyError
               | Some t => if is_number t then OverflowError else TypeError
               end.
Proof.
  intros Hgood Hbad.
  assert (Hrun : ∀ good rest, forallb stc_well_formed good = true →
            summarize_test_cases (good ++ bad :: rest) = Raise (stc_error bad)).
  { clear good rest Hgood. intros good rest Hgood.
    unfold summarize_test_cases. rewrite foldM_app.
    pose proof (stc_fold_cases good [] ltac:(constructor)) as Hfold.
    destruct (foldM stc_step good []) as [ret|err].
    - destruct Hfold as (_ & Hshaped & _). rewrite res_bind_Ok. cbn [foldM].
      pose proof (stc_step_cases ret bad Hshaped) as Hstep.
      rewrite Hbad in Hstep. by rewrite Hstep.
    - destruct Hfold as (good1 & bad1 & rest1 & -> & _ & Hbad1 & _).
      rewrite forallb_app in Hgood. cbn [forallb] in Hgood.
      rewrite Hbad1, andb_false_r in Hgood. done. }
  exists (stc_error bad).
  split; [by apply Hrun|]. split; [by apply (Hrun [] [])|]. reflexivity.
Qed.

(** *** The two aggregators in sequence *)

(** The pair (invoking file, job id) inside a composite key without a
    nan. *)
Definition file_and_job
    (key : option nat * (atom * atom * atom * atom * atom * atom))
  : option nat * (atom * atom) := (None, (key.2.2, key.2.1.1.1.2)).

Lemma ift_key_of_stc_key tc key :
  stc_plain tc = true → stc_key tc = Some key →
  ift_key tc = Some (file_and_job key).
Proof.
  intros Hp Hkey. pose proof (stc_key_keyed tc key Hkey) as Hk.
  destruct (stc_keyed_atoms tc Hk)
    as (a1 & a2 & a3 & a4 & a5 & a6 & (E1 & E2 & E3 & E4 & E5 & E6) & Hhash & Hplain).
  unfold stc_key in Hkey. rewrite Hhash in Hkey. injection Hkey as <-.
  rewrite Hp in Hplain. symmetry in Hplain. apply negb_true_iff in Hplain.
  cbn [existsb] in Hplain.
  apply orb_false_elim in Hplain as [_ Hplain].
  apply orb_false_elim in Hplain as [_ Hplain].
  apply orb_false_elim in Hplain as [H3 Hplain].
  apply orb_false_elim in Hplain as [_ Hplain].
  apply orb_false_elim in Hplain as [_ Hplain].
  apply orb_false_elim in Hplain as [H6 _].
  unfold ift_key, ift_get_key, getitem. rewrite E3, E6.
  cbn [mbind res_bind ift_hash py_hash fst snd]. unfold tuple_key.
  cbn [existsb]. by rewrite H3, H6.
Qed.

Lemma ift_key_stc_record first n f e s u x :
  ift_key (stc_record first n f e s u x)
  = ift_key (<["invoking_file" := dict_get first "invoking_file"]>
               (<["job_id" := dict_get first "job_id"]> ∅)).
Proof. reflexivity. Qed.

(** The summary of a composite key that occurs, as an input of
    [get_invoking_file_times]. *)
Lemma stc_summary_ift tcs key :
  forallb stc_plain tcs = true →
  key ∈ first_occurrences (omap stc_key tcs) →
  ift_well_formed (stc_summary tcs key) = true
  ∧ ift_plain (stc_summary tcs key) = true
  ∧ ift_key (stc_summary tcs key) = Some (file_and_job key).
Proof.
  intros Hp (first & rest & Hg & Hfirst)%stc_group_nonempty.
  assert (Hin : first ∈ tcs).
  { assert (first ∈ stc_group tcs key) as Hin by (rewrite Hg; left).
    by apply list_elem_of_filter in Hin as [_ ?]. }
  pose proof (forallb_elem _ _ _ Hp Hin) as Hpf.
  pose proof (ift_key_of_stc_key first key Hpf Hfirst) as Hik.
  pose proof (stc_key_keyed first key Hfirst) as Hk.
  destruct (stc_keyed_atoms first Hk)
    as (a1 & a2 & a3 & a4 & a5 & a6 & (E1 & E2 & E3 & E4 & E5 & E6) & _ & Hplain).
  rewrite Hpf in Hplain. symmetry in Hplain. apply negb_true_iff in Hplain.
  cbn [existsb] in Hplain.
  apply orb_false_elim in Hplain as [_ Hplain].
  apply orb_false_elim in Hplain as [_ Hplain].
  apply orb_false_elim in Hplain as [H3 Hplain].
  apply orb_false_elim in Hplain as [_ Hplain].
  apply orb_false_elim in Hplain as [_ Hplain].
  apply orb_false_elim in Hplain as [H6 _].
  unfold stc_summary. rewrite Hg. cbn [head default from_option id].
  split; [|split].
  - unfold stc_record.
    rewrite (dict_get_lookup _ _ _ E3), (dict_get_lookup _ _ _ E6).
    reflexivity.
  - unfold stc_record.
    rewrite (dict_get_lookup _ _ _ E3), (dict_get_lookup _ _ _ E6).
    unfold ift_plain. cbn [forallb].
    change (negb (atom_is_nan a6) && (negb (atom_is_nan a3) && true) = true).
    by rewrite H3, H6.
  - rewrite <- Hik, ift_key_stc_record.
    unfold ift_key, ift_get_key, getitem.
    rewrite (dict_get_lookup _ _ _ E3), (dict_get_lookup _ _ _ E6), E3, E6.
    reflexivity.
Qed.

(** X5.  When no key field of a test case is a nan,
    [get_invoking_file_times] accepts the summaries that
    [summarize_test_cases] returns, whatever the pytest parallel times
    are, and yields one record per distinct pair (invoking file, job id)
    of the test cases, in the order in which the pairs first occur. *)
Theorem get_invoking_file_times_of_summaries tcs summaries
    (pytest_parallel_times : list (atom * atom * val)) :
  summarize_test_cases tcs = Ok summaries →
  forallb stc_plain tcs = true →
  ∃ records,
    get_invoking_file_times summaries pytest_parallel_times = Ok records
    ∧ omap ift_key records = first_occurrences (omap ift_key tcs)
    ∧ NoDup (omap ift_key records).
Proof.
  intros Hrun Hp. destruct (summarize_test_cases_inv _ _ Hrun Hp) as [Hwf ->].
  set (ks := first_occurrences (omap stc_key tcs)).
  assert (Hall : ∀ key, key ∈ ks →
            ift_well_formed (stc_summary tcs key) = true
            ∧ ift_plain (stc_summary tcs key) = true
            ∧ ift_key (stc_summary tcs key) = Some (file_and_job key))
    by (intros key Hkey; by apply stc_summary_ift).
  assert (Hsum : forallb ift_well_formed (stc_summary tcs <$> ks) = true
                 ∧ forallb ift_plain (stc_summary tcs <$> ks) = true).
  { clearbody ks. induction ks as [|k ks' IH]; [done|]. cbn [fmap list_fmap forallb].
    destruct (Hall k) as (-> & -> & _); [left|].
    apply IH. intros key Hkey. apply Hall. by right. }
  destruct Hsum as [Hsum Hplain].
  eexists. split; [by apply get_invoking_file_times_total|].
  rewrite (omap_fmap_Some ift_key _ id)
    by (intros key Hkey; by apply ift_key_record).
  rewrite list_fmap_id.
  split; [|apply NoDup_first_occurrences].
  rewrite (omap_fmap_Some ift_key (stc_summary tcs) file_and_job)
    by (intros key Hkey; by apply Hall).
  rewrite (omap_project stc_key ift_key file_and_job tcs).
  - apply first_occurrences_fmap.
  - intros tc Htc. destruct (stc_keys_cover tcs Hwf tc Htc) as (k & Hk & _).
    exists k. split; [done|]. apply ift_key_of_stc_key; [|done].
    by eapply forallb_elem.
Qed.

(** *** The failed test cases *)

Definition is_rerun_only (tc : gmap string val) : bool :=
  contains tc "rerun" && negb (contains tc "failure")
  && negb (contains tc "error").

Lemma failed_tests_cases_count tcs :
  Z.of_nat (length (failed_tests_cases tcs))
  = count is_failure tcs + count is_error tcs + count is_rerun_only tcs.
Proof.
  induction tcs as [|tc tcs IH]; [done|].
  rewrite !count_cons, <- Z.add_assoc. unfold failed_tests_cases in *.
  rewrite filter_cons.
  unfold is_failure, is_error, is_rerun_only in *.
  destruct (contains tc "rerun"), (contains tc "failure"),
    (contains tc "error"); cbn [orb andb negb];
    [rewrite decide_True by done; cbn [length] ..
    | rewrite decide_False by done]; lia.
Qed.

(** X6.  The test cases that the script separates out as failed are those
    that the summaries count as failures or errors, and in addition the
    test cases that only carry a [rerun] marker. *)
Theorem failed_tests_cases_summaries tcs out :
  summarize_test_cases tcs = Ok out →
  Z.of_nat (length (failed_tests_cases tcs))
  = field_sum "failures" out + field_sum "errors" out
    + count is_rerun_only tcs.
Proof.
  intros Hsums%summarize_test_cases_sums.
  unfold stc_sums, stc_counts in Hsums.
  injection Hsums as _ Hf He _ _.
  by rewrite failed_tests_cases_count, Hf, He.
Qed.

End aggregator_properties.

(** A test case without a [time] field. *)
Definition example_untimed_case : gmap string (val (H := RationalRuntime.runtime)) :=
  <["job_id" := VInt 1]> (<["workflow_id" := VInt 7]>
  (<["workflow_run_attempt" := VInt 1]> (<["invoking_file" := VStr "test_ops"]> ∅))).

Lemma summarize_test_cases_order_witness :
  let tcs := [example_failed_case; example_passed_case; example_failed_case] in
  ∃ out,
    summarize_test_cases tcs = Ok out
    ∧ omap stc_key out = first_occurrences (omap stc_key tcs)
    ∧ length out = 1%nat.
Proof.
  intros tcs. eexists. split; [reflexivity|].
  destruct (summarize_test_cases_order tcs _ eq_refl eq_refl) as (Hord & _ & Hlen).
  split; [exact Hord | reflexivity].
Defined.

Lemma summarize_test_cases_totals_witness :
  let tcs := [example_failed_case; example_passed_case; example_failed_case] in
  ∃ out,
    summarize_test_cases tcs = Ok out
    ∧ field_sum "tests" out = 3
    ∧ field_sum "failures" out = count is_failure tcs.
Proof.
  intros tcs. eexists. split; [reflexivity|].
  destruct (summarize_test_cases_totals tcs _ eq_refl) as (Htests & Hfail & _).
  split; [exact Htests | exact Hfail].
Defined.

Lemma summarize_test_cases_first_error_witness :
  summarize_test_cases
    [example_passed_case; example_untimed_case; example_failed_case]
  = Raise KeyError.
Proof.
  destruct (summarize_test_cases_first_error
              [example_passed_case] example_untimed_case [example_failed_case]
              eq_refl eq_refl) as (e & Hrun & _ & He).
  exact (eq_trans Hrun (f_equal Raise He)).
Defined.

Lemma get_invoking_file_times_of_summaries_witness :
  let tcs := [example_failed_case; example_passed_case] in
  ∃ summaries records,
    summarize_test_cases tcs = Ok summaries
    ∧ get_invoking_file_times summaries [] = Ok records
    ∧ omap ift_key records = first_occurrences (omap ift_key tcs).
Proof.
  intros tcs. eexists.
  destruct (get_invoking_file_times_of_summaries tcs _ [] eq_refl eq_refl)
    as (records & Hrun & Hkeys & _).
  exists records. split; [reflexivity|]. split; [exact Hrun | exact Hkeys].
Defined.

Lemma failed_tests_cases_summaries_witness :
  let tcs := [example_failed_case; example_passed_case; example_failed_case] in
  ∃ out,
    summarize_test_cases tcs = Ok out
    ∧ Z.of_nat (length (failed_tests_cases tcs))
      = field_sum "failures" out + field_sum "errors" out
        + count is_rerun_only tcs.
Proof.
  intros tcs. eexists. split; [reflexivity|].
  exact (failed_tests_cases_summaries tcs _ eq_refl).
Defined.

(** ** Further properties of the report parser *)

Section job_id_edges.

(** X7.  The job id at the edges: a path without components raises
    [IndexError]; a first component that ends in an underscore has nothing
    to convert and raises [ValueError]; a first component that is a
    decimal numeral without any underscore is converted as a whole. *)
Theorem get_job_id_edges :
  get_job_id [] = Raise IndexError
  ∧ (∀ p rest, get_job_id ((p +:+ "_") :: rest) = Raise ValueError)
  ∧ (∀ d rest, all_digits d = true → d ≠ "" →
       get_job_id (d :: rest) = Ok (decimal_value d)).
Proof.
  split; [done|]. split.
  - intros p rest. unfold get_job_id, parts. cbn [lookup list_lookup].
    pose proof (rpartition_last p "" eq_refl) as Hpart.
    change ("_" +:+ "") with "_" in Hpart. simpl. by rewrite Hpart.
  - intros d rest Hd Hne. unfold get_job_id, parts. cbn [lookup list_lookup].
    simpl. unfold PyStr.rpartition. rewrite (rpartition_aux_digits _ Hd).
    simpl. by rewrite (py_int_digits _ Hd Hne).
Qed.

End job_id_edges.

Section parser_properties.
Context `{FloatRuntime}.

(** *** The mapping before the children are visited *)

Lemma element_base_lookup e k :
  element_base e !! k
  = if decide (k = "tail" ∧ nonblank (tail e) = true)
    then Some (VStr (default "" (tail e)))
    else if decide (k = "text" ∧ nonblank (text e) = true)
         then Some (VStr (default "" (text e)))
         else coerce <$> attrib e !! k.
Proof.
  unfold element_base.
  destruct (nonblank (tail e)) eqn:Etail.
  - destruct (decide (k = "tail")) as [->|Hne].
    + rewrite decide_True by done. by rewrite lookup_insert_eq.
    + rewrite decide_False by naive_solver. rewrite lookup_insert_ne by done.
      destruct (nonblank (text e)) eqn:Etext.
      * destruct (decide (k = "text")) as [->|Hne'].
        -- rewrite decide_True by done. by rewrite lookup_insert_eq.
        -- rewrite decide_False by naive_solver.
           rewrite lookup_insert_ne by done. by rewrite lookup_fmap.
      * rewrite decide_False by naive_solver. by rewrite lookup_fmap.
  - rewrite decide_False by naive_solver.
    destruct (nonblank (text e)) eqn:Etext.
    + destruct (decide (k = "text")) as [->|Hne'].
      * rewrite decide_True by done. by rewrite lookup_insert_eq.
      * rewrite decide_False by naive_solver.
        rewrite lookup_insert_ne by done. by rewrite lookup_fmap.
    + rewrite decide_False by naive_solver. by rewrite lookup_fmap.
Qed.

Lemma coerce_atom v : ∃ a, coerce v = VAtom a.
Proof. rewrite coerce_cases. destruct (py_float v), (PyStr.py_int v); eauto. Qed.

Lemma element_base_scalar e k v :
  element_base e !! k = Some v → ∃ a, v = VAtom a.
Proof.
  rewrite element_base_lookup.
  destruct (decide _); [intros [= <-]; eauto|].
  destruct (decide _); [intros [= <-]; eauto|].
  destruct (attrib e !! k) as [s|]; [|done]. intros [= <-]. apply coerce_atom.
Qed.

Lemma element_base_is_Some_iff e k :
  is_Some (element_base e !! k)
  ↔ is_Some (attrib e !! k)
    ∨ (k = "text" ∧ nonblank (text e) = true)
    ∨ (k = "tail" ∧ nonblank (tail e) = true).
Proof.
  rewrite element_base_lookup.
  destruct (decide (k = "tail" ∧ _)) as [Htail|Htail]; [naive_solver|].
  destruct (decide (k = "text" ∧ _)) as [Htext|Htext]; [naive_solver|].
  rewrite fmap_is_Some. naive_solver.
Qed.

(** *** What the children add *)

Lemma merged_scalar a c cs :
  merged (Some (VAtom a)) (c :: cs)
  = Some (VList (VAtom a :: (VDict <$> c :: cs))).
Proof. cbn. by rewrite merged_list. Qed.

Lemma merged_is_Some seen cs :
  is_Some (merged seen cs) ↔ is_Some seen ∨ cs ≠ [].
Proof.
  revert seen. induction cs as [|c cs IH]; intros seen; cbn.
  - naive_solver.
  - rewrite IH. split; [naive_solver|]. intros _. left. eauto.
Qed.

Lemma process_xml_element_lookup e k :
  process_xml_element e !! k
  = merged (element_base e !! k)
      (process_xml_element <$> filter (λ c, tag c = k) (children e)).
Proof.
  rewrite process_xml_element_unfold, fold_add_child_lookup.
  by rewrite filter_children_tags.
Qed.

Lemma filter_tag_nil (k : string) (cs : list Element) :
  filter (λ c, tag c = k) cs = [] ↔ k ∉ tag <$> cs.
Proof.
  induction cs as [|c cs IH]; [by split; [intros _ ?%elem_of_nil|]|].
  rewrite filter_cons, fmap_cons, not_elem_of_cons.
  destruct (decide (tag c = k)) as [Hc|Hc]; [naive_solver|].
  rewrite IH. naive_solver.
Qed.

(** X8.  The keys of the mapping that [process_xml_element] returns are
    exactly the attribute names, [text] when the inner text is not blank,
    [tail] when the tail is not blank, and the tags of the children. *)
Theorem process_xml_element_keys e k :
  is_Some (process_xml_element e !! k)
  ↔ is_Some (attrib e !! k)
    ∨ (k = "text" ∧ nonblank (text e) = true)
    ∨ (k = "tail" ∧ nonblank (tail e) = true)
    ∨ k ∈ tag <$> children e.
Proof.
  rewrite process_xml_element_lookup, merged_is_Some, element_base_is_Some_iff.
  assert (process_xml_element <$> filter (λ c, tag c = k) (children e) ≠ []
          ↔ k ∈ tag <$> children e) as ->; [|naive_solver].
  destruct (filter (λ c, tag c = k) (children e)) as [|c cs] eqn:Hcs.
  - apply filter_tag_nil in Hcs. cbn. naive_solver.
  - cbn. split; [intros _|done].
    destruct (decide (k ∈ tag <$> children e)) as [|Hno]; [done|].
    apply filter_tag_nil in Hno. congruence.
Qed.

(** X9.  When the tag of one or more children is already a key of the
    mapping (an attribute of that name, or the key of the inner text or
    of the tail), the value under that key becomes a list: the scalar that
    was there first, followed by the converted children with the tag in
    document order. *)
Theorem process_xml_element_collision e t v c cs :
  element_base e !! t = Some v →
  filter (λ c, tag c = t) (children e) = c :: cs →
  (∃ a, v = VAtom a)
  ∧ process_xml_element e !! t
    = Some (VList (v :: ((λ c, VDict (process_xml_element c)) <$> c :: cs))).
Proof.
  intros Hbase Hcs. destruct (element_base_scalar _ _ _ Hbase) as [a ->].
  split; [eauto|].
  rewrite process_xml_element_lookup, Hbase, Hcs, fmap_cons, merged_scalar.
  by rewrite <- fmap_cons, <- list_fmap_compose.
Qed.

(** X10.  A non-blank inner text is stored under [text] as it is, neither
    stripped nor converted to a number, whatever the attributes are,
    unless a child element has the tag [text]; the same holds for the tail
    under [tail]. *)
Theorem process_xml_element_text e :
  (∀ s, text e = Some s → nonblank (text e) = true →
        "text" ∉ tag <$> children e →
        process_xml_element e !! "text" = Some (VStr s))
  ∧ (∀ s, tail e = Some s → nonblank (tail e) = true →
          "tail" ∉ tag <$> children e →
          process_xml_element e !! "tail" = Some (VStr s)).
Proof.
  split; intros s Hs Hblank Hchild.
  - apply filter_tag_nil in Hchild.
    rewrite process_xml_element_lookup, Hchild, element_base_lookup.
    rewrite decide_False by (by intros [? _]).
    rewrite decide_True by done. by rewrite Hs.
  - apply filter_tag_nil in Hchild.
    rewrite process_xml_element_lookup, Hchild, element_base_lookup.
    rewrite decide_True by done. by rewrite Hs.
Qed.

(** X11.  A list in the returned mapping always has at least two entries
    and stands under the tag of a child element; all its entries but
    possibly the first are converted children (mappings). *)
Theorem process_xml_element_lists e k l :
  process_xml_element e !! k = Some (VList l) →
  (2 ≤ length l)%nat
  ∧ k ∈ tag <$> children e
  ∧ ∀ i x, (1 ≤ i)%nat → l !! i = Some x → ∃ d, x = VDict d.
Proof.
  rewrite process_xml_element_lookup.
  destruct (filter (λ c, tag c = k) (children e)) as [|c1 cs] eqn:Hcs.
  { cbn. intros Hbase. by destruct (element_base_scalar _ _ _ Hbase). }
  assert (Hin : k ∈ tag <$> children e).
  { destruct (decide (k ∈ tag <$> children e)) as [|Hno]; [done|].
    apply filter_tag_nil in Hno. congruence. }
  assert (Hdicts : ∀ (ds : list (gmap string val)) i x,
            (VDict <$> ds) !! i = Some x → ∃ d, x = VDict d).
  { intros ds i x. rewrite list_lookup_fmap.
    destruct (ds !! i); [|done]. intros [= <-]. eauto. }
  destruct (element_base e !! k) as [v|] eqn:Hbase.
  - destruct (element_base_scalar _ _ _ Hbase) as [a ->].
    rewrite fmap_cons, merged_scalar. intros [= <-].
    split; [cbn; lia|]. split; [done|].
    intros [|i] x Hi Hx; [lia|].
    exact (Hdicts (process_xml_element c1 :: (process_xml_element <$> cs)) i x Hx).
  - destruct cs as [|c2 cs]; [done|].
    rewrite !fmap_cons, merged_fresh_many. intros [= <-].
    split; [cbn; lia|]. split; [done|]. intros i x _ Hx.
    exact (Hdicts (process_xml_element c1 :: process_xml_element c2
                     :: (process_xml_element <$> cs)) i x Hx).
Qed.

(** *** [parse_xml_report] *)

Context (ET_parse : Path → res Element).
Context (is_rerun_disabled_tests : Element → bool).

(** The keys that [parse_xml_report] sets on every test case. *)
Definition metadata_keys : list string :=
  ["workflow_id"; "workflow_run_attempt"; "job_id"; "invoking_file"].

Definition parsed_case (report : Path) (workflow_id workflow_run_attempt : val)
    (case : gmap string val) (element : Element) : Prop :=
  case !! "workflow_id" = Some workflow_id
  ∧ case !! "workflow_run_attempt" = Some workflow_run_attempt
  ∧ case !! "job_id" = Some match get_job_id report with
                            | Ok j => VInt j
                            | Raise _ => VNone
                            end
  ∧ case !! "invoking_file" = Some (VStr (name (parent report)))
  ∧ ∀ k, k ∉ metadata_keys → case !! k = process_xml_element element !! k.

Lemma parse_xml_report_inv tag report workflow_id workflow_run_attempt cases :
  parse_xml_report ET_parse is_rerun_disabled_tests tag report
    workflow_id workflow_run_attempt = Ok cases →
  ∃ root,
    ET_parse report = Ok root
    ∧ Forall2 (parsed_case report workflow_id workflow_run_attempt) cases
        (if is_rerun_disabled_tests root then [] else iter tag root).
Proof.
  unfold parse_xml_report. intros (root & Hroot & Hrun)%bind_Ok.
  exists root. split; [done|].
  destruct (is_rerun_disabled_tests root); injection Hrun as <-; [constructor|].
  apply Forall2_fmap_l, Forall_Forall2_diag, Forall_forall.
  intros test_case _. unfold parsed_case, metadata_keys.
  split; [by rewrite !lookup_insert_ne, lookup_insert_eq by done|].
  split; [by rewrite !lookup_insert_ne, lookup_insert_eq by done|].
  split; [by rewrite !lookup_insert_ne, lookup_insert_eq by done|].
  split; [by rewrite lookup_insert_eq|].
  intros k Hk. rewrite !not_elem_of_cons in Hk.
  destruct Hk as (? & ? & ? & ? & _). by rewrite !lookup_insert_ne by done.
Qed.

(** X12.  [parse_xml_report] returns one test case per element with the
    tag, in document order, and none for a report of rerun disabled tests.
    On every test case the keys [workflow_id], [workflow_run_attempt],
    [job_id] and [invoking_file] hold the values of the call, replacing an
    XML attribute or child element of the same name; every other key is
    as [process_xml_element] gives it.  Parsing errors are not caught. *)
Theorem parse_xml_report_cases tag report workflow_id workflow_run_attempt :
  match ET_parse report with
  | Raise e =>
      parse_xml_report ET_parse is_rerun_disabled_tests tag report
        workflow_id workflow_run_attempt = Raise e
  | Ok root =>
      ∃ cases,
        parse_xml_report ET_parse is_rerun_disabled_tests tag report
          workflow_id workflow_run_attempt = Ok cases
        ∧ Forall2 (parsed_case report workflow_id workflow_run_attempt) cases
            (if is_rerun_disabled_tests root then [] else iter tag root)
  end.
Proof.
  destruct (ET_parse report) as [root|e] eqn:Hroot.
  - destruct (parse_xml_report_ok ET_parse is_rerun_disabled_tests tag report
                workflow_id workflow_run_attempt root Hroot)
      as (cases & Hrun & _).
    exists cases. split; [done|].
    destruct (parse_xml_report_inv _ _ _ _ _ Hrun) as (root' & Hroot' & Hall).
    rewrite Hroot in Hroot'. injection Hroot' as <-. exact Hall.
  - unfold parse_xml_report. by rewrite Hroot.
Qed.

(** The four indexed keys of a test case that [parse_xml_report] returns
    are always there. *)
Lemma parsed_case_well_formed tag report a b cases :
  parse_xml_report ET_parse is_rerun_disabled_tests tag report
    (VAtom a) (VAtom b) = Ok cases →
  Forall (λ case,
            stc_well_formed case
            = has_atom_or_nothing case "file"
              && has_atom_or_nothing case "classname"
              && has_addend case "time") cases.
Proof.
  intros (root & _ & Hall)%parse_xml_report_inv.
  eapply Forall2_Forall_l; [exact Hall|]. apply Forall_forall.
  intros element _ case (Hw & Ha & Hj & Hi & _).
  unfold stc_well_formed, has_atom. cbn [forallb].
  rewrite Hw, Ha, Hj, Hi.
  destruct (get_job_id report); cbn [andb]; by rewrite andb_true_r.
Qed.

Lemma forallb_Forall_eq {A} (f g : A → bool) l :
  Forall (λ x, f x = g x) l → forallb f l = forallb g l.
Proof. induction 1 as [|x l Hx _ IH]; [done|]. cbn. by rewrite Hx, IH. Qed.

(** X13.  [summarize_test_cases] accepts the test cases that
    [parse_xml_report] returns, for scalar workflow arguments, exactly
    when on each of them [file] and [classname] are scalars or absent
    (attributes, not child elements) and [time] is a float or an integer
    within the range of the floats: the four indexed keys are always
    there. *)
Theorem parse_xml_report_summarizable tag report a b cases :
  parse_xml_report ET_parse is_rerun_disabled_tests tag report
    (VAtom a) (VAtom b) = Ok cases →
  is_ok (summarize_test_cases cases)
  = forallb (λ case,
               has_atom_or_nothing case "file"
               && has_atom_or_nothing case "classname"
               && has_addend case "time") cases.
Proof.
  intros Hparse%parsed_case_well_formed.
  rewrite <- (forallb_Forall_eq _ _ _ Hparse).
  pose proof (summarize_test_cases_cases cases) as Hcases.
  destruct (summarize_test_cases cases) as [out|err]; cbn [is_ok].
  - symmetry. tauto.
  - destruct Hcases as (good & bad & rest & -> & _ & Hbad & _).
    rewrite forallb_app. cbn [forallb]. rewrite Hbad.
    by rewrite andb_false_r.
Qed.

(** *** [get_pytest_parallel_times] *)

(** One round of the loop over the reports. *)
Definition pytest_step (pytest_parallel_times : list (atom * atom * val))
    (report : Path) : res (list (atom * atom * val)) :=
  let invoking_file := name (parent report) in
  root ← ET_parse report;
  if is_rerun_disabled_tests root then Ok pytest_parallel_times
  else
    match iter "testsuite" root with
    | [test_suite] =>
        match attrib test_suite !! "time" with
        | Some t =>
            job_id ← get_job_id report;
            Ok (od_set (AStr invoking_file, AInt job_id) (VStr t)
                  pytest_parallel_times)
        | None => Raise KeyError
        end
    | _ => Raise AssertionError
    end.

Lemma get_pytest_parallel_times_fold reports :
  get_pytest_parallel_times ET_parse is_rerun_disabled_tests reports
  = foldM pytest_step reports [].
Proof. reflexivity. Qed.

(** What a report contributes: nothing for rerun disabled tests, otherwise
    its key and the time of its only test suite. *)
Definition pytest_entry (report : Path) (entry : option (atom * atom * val)) : Prop :=
  ∃ root,
    ET_parse report = Ok root
    ∧ if is_rerun_disabled_tests root then entry = None
      else ∃ test_suite t job_id,
             iter "testsuite" root = [test_suite]
             ∧ attrib test_suite !! "time" = Some t
             ∧ get_job_id report = Ok job_id
             ∧ entry = Some (AStr (name (parent report)), AInt job_id, VStr t).

Lemma pytest_step_inv acc report acc' :
  pytest_step acc report = Ok acc' →
  ∃ entry,
    pytest_entry report entry
    ∧ acc' = match entry with
             | Some kv => od_set kv.1 kv.2 acc
             | None => acc
             end.
Proof.
  unfold pytest_step, pytest_entry. intros (root & Hroot & Hstep)%bind_Ok.
  destruct (is_rerun_disabled_tests root) eqn:Hrerun.
  - injection Hstep as <-. exists None. split; [|done].
    exists root. by rewrite Hrerun.
  - destruct (iter "testsuite" root) as [|suite [|]] eqn:Hiter; try done.
    destruct (attrib suite !! "time") as [t|] eqn:Htime; [|done].
    apply bind_Ok in Hstep as (job & Hjob & Hstep). injection Hstep as <-.
    exists (Some (AStr (name (parent report)), AInt job, VStr t)).
    split; [|done].
    exists root. rewrite Hrerun. split; [done|]. by exists suite, t, job.
Qed.

Lemma od_get_set {K V} `{EqDecision K} (k k' : K) (v : V) d :
  od_get k (od_set k' v d) = if decide (k = k') then Some v else od_get k d.
Proof.
  induction d as [|[k0 v0] d IH]; cbn.
  - by destruct (decide (k = k')).
  - destruct (decide (k' = k0)) as [->|Hne]; cbn.
    + destruct (decide (k = k0)); done.
    + rewrite IH. destruct (decide (k = k0)) as [->|]; [|done].
      by rewrite decide_False by done.
Qed.

(** X14.  [get_pytest_parallel_times] returns only if every report parses
    and is either a report of rerun disabled tests or has exactly one
    [testsuite] element, with a [time] attribute, and a path from which
    the job id can be read: unlike in [parse_xml_report], a job id that
    cannot be read is not caught.  Every such report has its key in the
    result. *)
Theorem get_pytest_parallel_times_reports reports times :
  get_pytest_parallel_times ET_parse is_rerun_disabled_tests reports = Ok times →
  Forall (λ report,
            ∃ entry, pytest_entry report entry
              ∧ ∀ kv, entry = Some kv → is_Some (od_get kv.1 times)) reports.
Proof.
  rewrite get_pytest_parallel_times_fold.
  generalize (@nil (atom * atom * val)) as acc. revert times.
  assert (Hkeep : ∀ rs acc times k,
            foldM pytest_step rs acc = Ok times →
            is_Some (od_get k acc) → is_Some (od_get k times)).
  { induction rs as [|r rs IH]; intros acc times k Hrun Hk.
    - by injection Hrun as <-.
    - cbn in Hrun. apply bind_Ok in Hrun as (acc' & Hstep & Hrest).
      eapply IH; [exact Hrest|].
      apply pytest_step_inv in Hstep as ([kv|] & _ & ->); [|done].
      rewrite od_get_set. by destruct (decide _). }
  induction reports as [|report reports IH]; intros times acc Hrun; [constructor|].
  cbn in Hrun. apply bind_Ok in Hrun as (acc' & Hstep & Hrest).
  constructor; [|by eapply IH].
  apply pytest_step_inv in Hstep as (entry & Hentry & ->).
  exists entry. split; [done|]. intros kv ->.
  eapply Hkeep; [exact Hrest|]. rewrite od_get_set. by rewrite decide_True.
Qed.

(** X15.  When several reports have the same invoking file and job id,
    the time of the last of them that is not a report of rerun disabled
    tests is the one that [get_pytest_parallel_times] records. *)
Theorem get_pytest_parallel_times_last before report after times key t :
  get_pytest_parallel_times ET_parse is_rerun_disabled_tests
    (before ++ report :: after) = Ok times →
  pytest_entry report (Some (key, t)) →
  Forall (λ later, ∀ t', ¬ pytest_entry later (Some (key, t'))) after →
  od_get key times = Some t.
Proof.
  rewrite get_pytest_parallel_times_fold, foldM_app.
  intros (acc & _ & Hrun)%bind_Ok Hentry Hafter.
  cbn in Hrun. apply bind_Ok in Hrun as (acc' & Hstep & Hrest).
  assert (Hacc' : od_get key acc' = Some t).
  { apply pytest_step_inv in Hstep as (entry & Hentry' & ->).
    destruct Hentry as (root & Hroot & Hentry).
    destruct Hentry' as (root' & Hroot' & Hentry').
    rewrite Hroot in Hroot'. injection Hroot' as <-.
    destruct (is_rerun_disabled_tests root); [done|].
    destruct Hentry as (s1 & t1 & j1 & Hs1 & Ht1 & Hj1 & ?).
    destruct Hentry' as (s2 & t2 & j2 & Hs2 & Ht2 & Hj2 & ->). simplify_eq.
    rewrite Hs1 in Hs2. injection Hs2 as <-.
    rewrite Ht1 in Ht2. injection Ht2 as <-.
    rewrite Hj1 in Hj2. injection Hj2 as <-.
    cbn [fst snd]. rewrite od_get_set. by rewrite decide_True. }
  clear Hstep Hentry. revert acc' Hacc' Hrest.
  induction Hafter as [|later after Hlater _ IH]; intros acc' Hacc' Hrest.
  - by injection Hrest as <-.
  - cbn in Hrest. apply bind_Ok in Hrest as (acc'' & Hstep & Hrest).
    eapply IH; [|exact Hrest].
    apply pytest_step_inv in Hstep as ([[key' t']|] & Hentry' & ->); [|done].
    cbn [fst snd]. rewrite od_get_set.
    destruct (decide (key = key')) as [<-|Hne]; [|done].
    by destruct (Hlater t').
Qed.

(** *** [get_tests_for_circleci] *)

Context (glob : string → list Path).

(** X16.  Every test case that [get_tests_for_circleci] returns carries
    the workflow run id and attempt of the call, a [job_id] (possibly
    [None]) and the name of the directory of its report as
    [invoking_file]; the pytest parallel times that it returns are
    attribute strings. *)
Theorem get_tests_for_circleci_cases workflow_run_id workflow_run_attempt
    test_cases pytest_parallel_times :
  get_tests_for_circleci ET_parse is_rerun_disabled_tests glob
    workflow_run_id workflow_run_attempt = Ok (test_cases, pytest_parallel_times) →
  Forall (λ case : gmap string val,
            case !! "workflow_id" = Some workflow_run_id
            ∧ case !! "workflow_run_attempt" = Some workflow_run_attempt
            ∧ is_Some (case !! "job_id")
            ∧ ∃ report,
                report ∈ glob "**/test/test-reports/**/*.xml"
                ∧ case !! "invoking_file" = Some (VStr (name (parent report))))
         test_cases
  ∧ Forall (λ v, ∃ s, v = VStr s) (od_values pytest_parallel_times).
Proof.
  unfold get_tests_for_circleci.
  intros (cases & Hcases & Hrest)%bind_Ok.
  apply bind_Ok in Hrest as (times & Htimes & [= <- <-]).
  split; [|by eapply get_pytest_parallel_times_strings].
  revert Hcases.
  generalize (glob "**/test/test-reports/**/*.xml") as reports. intros reports.
  assert (Hgen : ∀ (seen rs : list Path) acc out,
    Forall (λ case : gmap string val,
              case !! "workflow_id" = Some workflow_run_id
              ∧ case !! "workflow_run_attempt" = Some workflow_run_attempt
              ∧ is_Some (case !! "job_id")
              ∧ ∃ report, report ∈ seen ++ rs
                  ∧ case !! "invoking_file" = Some (VStr (name (parent report))))
           acc →
    foldM (λ test_cases xml_report,
             cs ← parse_xml_report ET_parse is_rerun_disabled_tests "testcase"
                    xml_report workflow_run_id workflow_run_attempt;
             Ok (test_cases ++ cs)) rs acc = Ok out →
    Forall (λ case : gmap string val,
              case !! "workflow_id" = Some workflow_run_id
              ∧ case !! "workflow_run_attempt" = Some workflow_run_attempt
              ∧ is_Some (case !! "job_id")
              ∧ ∃ report, report ∈ seen ++ rs
                  ∧ case !! "invoking_file" = Some (VStr (name (parent report))))
           out).
  { intros seen rs. revert seen.
    induction rs as [|r rs IH]; intros seen acc out Hacc Hrun.
    - by injection Hrun as <-.
    - cbn in Hrun. apply bind_Ok in Hrun as (acc' & Hstep & Hrun).
      apply bind_Ok in Hstep as (cs & Hcs & [= <-]).
      specialize (IH (seen ++ [r])). rewrite <- app_assoc in IH.
      eapply IH; [|exact Hrun]. apply Forall_app. split; [done|].
      apply parse_xml_report_inv in Hcs as (root & _ & Hall).
      eapply Forall2_Forall_l; [exact Hall|]. apply Forall_forall.
      intros element _ case (Hw & Ha & Hj & Hi & _).
      split; [done|]. split; [done|]. split; [by rewrite Hj|].
      exists r. split; [|done]. rewrite elem_of_app. right. left. }
  intros Hcases. by apply (Hgen [] reports [] cases).
Qed.

End parser_properties.

(** A report with one test suite, and the file system that holds it twice. *)
Definition example_suite (time : string) : Element :=
  mkElement "testsuite" {[ "time" := time ]} None None
    [mkElement "testcase" {[ "name" := "test_foo"; "time" := "0.5" ]} None None []].

Definition example_report (attempt : string) : Path :=
  ["reports_12"; "python-pytest"; "test_ops"; attempt].

Definition example_parse (report : Path) : res Element :=
  if decide (report = example_report "a.xml") then Ok (example_suite "1.5")
  else if decide (report = example_report "b.xml") then Ok (example_suite "2.5")
  else Raise RuntimeError.

Lemma get_job_id_edges_witness :
  get_job_id ["5596745227"; "test"] = Ok 5596745227
  ∧ get_job_id ["unzipped-test-reports-foo_"; "test"] = Raise ValueError.
Proof.
  destruct get_job_id_edges as (_ & Hunder & Hdigits). split.
  - apply (Hdigits "5596745227"); [reflexivity | discriminate].
  - apply (Hunder "unzipped-test-reports-foo").
Defined.

Lemma process_xml_element_collision_witness :
  let foo := mkElement "foo" ∅ None None [] in
  let e := mkElement "testcase" {[ "foo" := "x" ]} None None [foo; foo] in
  process_xml_element (H := RationalRuntime.runtime) e !! "foo"
  = Some (VList [VStr "x"; VDict ∅; VDict ∅]).
Proof.
  intros foo e.
  destruct (process_xml_element_collision (H := RationalRuntime.runtime)
              e "foo" (VStr "x") foo [foo] eq_refl eq_refl) as [_ Hlist].
  exact Hlist.
Defined.

Lemma process_xml_element_text_witness :
  let e := mkElement "testcase" {[ "text" := "5" ]} (Some " 12 ") None [] in
  process_xml_element (H := RationalRuntime.runtime) e !! "text"
  = Some (VStr " 12 ").
Proof.
  intros e.
  destruct (process_xml_element_text (H := RationalRuntime.runtime) e) as [Htext _].
  apply Htext; [reflexivity | reflexivity |]. cbn. apply not_elem_of_nil.
Defined.

Lemma process_xml_element_lists_witness :
  let foo := mkElement "foo" ∅ None None [] in
  let e := mkElement "testcase" {[ "foo" := "x" ]} None None [foo; foo] in
  ∃ l, process_xml_element (H := RationalRuntime.runtime) e !! "foo" = Some (VList l)
       ∧ (2 ≤ length l)%nat.
Proof.
  intros foo e. eexists. split; [reflexivity|].
  eapply (process_xml_element_lists (H := RationalRuntime.runtime) e "foo").
  reflexivity.
Defined.

Lemma parse_xml_report_summarizable_witness :
  ∃ cases,
    parse_xml_report (H := RationalRuntime.runtime) example_parse (λ _, false)
      "testcase" (example_report "a.xml") (VInt 7) (VInt 1) = Ok cases
    ∧ is_ok (summarize_test_cases cases)
      = forallb (λ case,
                   has_atom_or_nothing case "file"
                   && has_atom_or_nothing case "classname"
                   && has_addend case "time") cases.
Proof.
  eexists. split; [reflexivity|].
  eapply (parse_xml_report_summarizable (H := RationalRuntime.runtime)
            example_parse (λ _, false) "testcase" (example_report "a.xml")).
  reflexivity.
Defined.

Lemma get_pytest_parallel_times_reports_witness :
  ∃ times,
    get_pytest_parallel_times (H := RationalRuntime.runtime) example_parse (λ _, false)
      [example_report "a.xml"; example_report "b.xml"] = Ok times
    ∧ Forall (λ report,
                ∃ entry, pytest_entry example_parse (λ _, false) report entry
                  ∧ ∀ kv, entry = Some kv → is_Some (od_get kv.1 times))
        [example_report "a.xml"; example_report "b.xml"].
Proof.
  eexists. split; [reflexivity|].
  apply (get_pytest_parallel_times_reports (H := RationalRuntime.runtime)).
  reflexivity.
Defined.

Lemma get_pytest_parallel_times_last_witness :
  ∃ times,
    get_pytest_parallel_times (H := RationalRuntime.runtime) example_parse (λ _, false)
      [example_report "a.xml"; example_report "b.xml"] = Ok times
    ∧ od_get (AStr "test_ops", AInt 12) times = Some (VStr "2.5").
Proof.
  eexists. split; [reflexivity|].
  apply (get_pytest_parallel_times_last (H := RationalRuntime.runtime)
           example_parse (λ _, false)
           [example_report "a.xml"] (example_report "b.xml") []).
  - reflexivity.
  - exists (example_suite "2.5"). split; [reflexivity|].
    cbn. by exists (example_suite "2.5"), "2.5", 12.
  - constructor.
Defined.

Lemma get_tests_for_circleci_cases_witness :
  let glob := λ pattern : string,
    if decide (pattern = "**/python-pytest/**/*.xml") then []
    else [example_report "a.xml"; example_report "b.xml"] in
  ∃ test_cases times,
    get_tests_for_circleci (H := RationalRuntime.runtime) example_parse (λ _, false)
      glob (VInt 7) (VInt 1) = Ok (test_cases, times)
    ∧ length test_cases = 2%nat
    ∧ Forall (λ case : gmap string val, case !! "workflow_id" = Some (VInt 7))
        test_cases.
Proof.
  intros glob. do 2 eexists. split; [reflexivity|]. split; [reflexivity|].
  destruct (get_tests_for_circleci_cases (H := RationalRuntime.runtime)
              example_parse (λ _, false) glob (VInt 7) (VInt 1) _ _ eq_refl)
    as [Hcases _].
  eapply Forall_impl; [exact Hcases|]. by intros case (Hw & _).
Defined.

(** ** Further properties of [torch.cuda.random] *)

Section cuda_properties.
Import CudaRandom.
Implicit Types (st : Cuda) (cb : callback).
Context (torch_device_of_str : string → res torch_device).

(** *** A deferred call and the initialisation that runs it *)

Lemma lazy_init_initialized st : initialized st = true → _lazy_init st = Ok st.
Proof. intros Hinit. unfold _lazy_init. by rewrite Hinit. Qed.

Lemma lazy_init_Ok st st' :
  _lazy_init st = Ok st' →
  initialized st' = true
  ∧ cur_device st' = cur_device st
  ∧ tensors st' = tensors st
  ∧ length (default_generators st') = length (default_generators st)
  ∧ (initialized st = true → st' = st).
Proof.
  unfold _lazy_init. destruct (initialized st) eqn:Hinit.
  - intros [= <-]. by repeat split.
  - destruct (bool_decide _); [done|].
    intros (sB & Hrun & [= <-])%bind_Ok.
    apply run_queue_frame in Hrun as (_ & _ & Hc & Ht & _ & Hl).
    by repeat split.
Qed.

(** A call handed to [_lazy_call] has run, as the last of the deferred
    calls, once [_lazy_init] has returned. *)
Lemma lazy_call_init cb kind st st1 st2 :
  _lazy_call cb kind st = Ok st1 → _lazy_init st1 = Ok st2 →
  ∃ sA sB,
    run_callback cb sA = Ok sB
    ∧ cur_device sA = cur_device st
    ∧ tensors sA = tensors st
    ∧ length (default_generators sA) = length (default_generators st)
    ∧ (initialized st = true → sA = st)
    ∧ default_generators st2 = default_generators sB
    ∧ cur_device st2 = cur_device st
    ∧ tensors st2 = tensors st.
Proof.
  unfold _lazy_call. destruct (initialized st) eqn:Hinit.
  - intros Hrun Hlazy.
    pose proof (run_callback_frame _ _ _ Hrun) as (Hi & _ & Hc & Ht & _ & Hl).
    rewrite lazy_init_initialized in Hlazy by congruence.
    injection Hlazy as <-. exists st, st1. by repeat split.
  - intros [= <-]. unfold _lazy_init. cbn [initialized set_queued_calls].
    rewrite Hinit. destruct (bool_decide _); [done|].
    intros (sB & Hrun & [= <-])%bind_Ok.
    cbn [queued_calls set_queued_calls] in Hrun.
    rewrite foldM_app in Hrun. apply bind_Ok in Hrun as (sA & HqA & Hlast).
    cbn [foldM fst] in Hlast. apply bind_Ok in Hlast as (sB' & Hlast & [= ->]).
    apply run_queue_frame in HqA as (_ & _ & HcA & HtA & _ & HlA).
    pose proof (run_callback_frame _ _ _ Hlast) as (_ & _ & HcB & HtB & _ & HlB).
    exists sA, sB. split; [done|]. cbn in *.
    repeat split; try done; congruence.
Qed.

(** *** Seeds *)

(** X17.  [initial_seed] returns the seed that the last [manual_seed] has
    set, whether the runtime was initialised at the call of [manual_seed]
    or the call was deferred. *)
Theorem manual_seed_initial_seed (s : Z) st st1 r st2 :
  manual_seed s st = Ok st1 → initial_seed st1 = Ok (r, st2) → r = s.
Proof.
  unfold manual_seed, initial_seed. intros Hcall Hseed.
  apply bind_Ok in Hseed as (st' & Hlazy & Hseed).
  apply bind_Ok in Hseed as (r' & Hseed & [= <- <-]).
  destruct (lazy_call_init _ _ _ _ _ Hcall Hlazy)
    as (sA & sB & Hrun & HcA & _ & _ & _ & Hg2 & Hc2 & _).
  cbn [run_callback] in Hrun. unfold with_generator, current_device in Hrun.
  destruct (default_generators sA !! cur_device sA) as [g|] eqn:Hg; [|done].
  injection Hrun as <-.
  unfold generator_initial_seed, current_device in Hseed.
  rewrite Hg2, Hc2, <- HcA in Hseed. cbn in Hseed.
  rewrite list_lookup_alter_eq, Hg in Hseed. cbn in Hseed. by injection Hseed as <-.
Qed.

Lemma manual_seed_all_loop (s : Z) m :
  ∀ k st, (k + m ≤ device_count st)%nat →
  ∃ st',
    foldM (λ st i, with_generator i (gen_manual_seed s) st) (seq k m) st = Ok st'
    ∧ frame st st'
    ∧ ∀ j, default_generators st' !! j
           = if decide (k ≤ j < k + m)%nat
             then gen_manual_seed s <$> default_generators st !! j
             else default_generators st !! j.
Proof.
  induction m as [|m IH]; intros k st Hlen.
  - exists st. split; [done|]. split; [apply frame_refl|].
    intros j. by rewrite decide_False by lia.
  - assert (is_Some (default_generators st !! k)) as [g Hg]
      by (apply lookup_lt_is_Some_2; unfold device_count in Hlen; lia).
    cbn [seq foldM]. rewrite (with_generator_Some _ _ _ _ Hg).
    cbn [mbind res_bind].
    set (st1 := set_generators _ st).
    destruct (IH (S k) st1) as (st' & Hrun & Hframe & Hgens).
    { unfold device_count, st1. cbn. rewrite length_alter.
      unfold device_count in Hlen. lia. }
    exists st'. split; [done|]. split.
    + eapply frame_trans; [|done]. repeat split. cbn. by rewrite length_alter.
    + intros j. rewrite Hgens. unfold st1. simpl (default_generators _).
      destruct (decide (k = j)) as [<-|Hne].
      * rewrite decide_False by lia. rewrite decide_True by lia.
        by rewrite list_lookup_alter_eq.
      * rewrite list_lookup_alter_ne by done.
        destruct (decide (S k ≤ j < S k + m)%nat);
          [rewrite decide_True by lia | rewrite decide_False by lia]; done.
Qed.

Lemma manual_seed_all_callback (s : Z) st :
  ∃ st',
    run_callback (cb_manual_seed_all s) st = Ok st'
    ∧ frame st st'
    ∧ default_generators st' = gen_manual_seed s <$> default_generators st.
Proof.
  destruct (manual_seed_all_loop s (device_count st) 0 st) as (st' & Hrun & Hf & Hg);
    [lia|].
  exists st'. split; [done|]. split; [done|].
  apply list_eq. intros j. rewrite Hg, list_lookup_fmap.
  destruct (decide (0 ≤ j < 0 + device_count st)%nat) as [Hj|Hj]; [done|].
  rewrite lookup_ge_None_2; [done|]. unfold device_count in Hj. lia.
Qed.

(** X18.  [manual_seed_all] sets the seed of the generator of every
    device, and adds or removes no generator: at once when the runtime is
    initialised, and otherwise by the time the initialisation has run the
    deferred calls. *)
Theorem manual_seed_all_seeds (s : Z) st st1 :
  manual_seed_all s st = Ok st1 →
  (initialized st = true →
   device_count st1 = device_count st
   ∧ ∀ i g, default_generators st1 !! i = Some g → gen_initial_seed g = s)
  ∧ (∀ st2 i g,
       _lazy_init st1 = Ok st2 → default_generators st2 !! i = Some g →
       gen_initial_seed g = s).
Proof.
  unfold manual_seed_all. intros Hcall. split.
  - intros Hinit. unfold _lazy_call in Hcall. rewrite Hinit in Hcall.
    destruct (manual_seed_all_callback s st) as (st' & Hrun & _ & Hg).
    rewrite Hrun in Hcall. injection Hcall as <-. unfold device_count.
    rewrite Hg. split; [by rewrite length_fmap|].
    intros i g. rewrite list_lookup_fmap.
    destruct (default_generators st !! i); [|done]. by intros [= <-].
  - intros st2 i g Hlazy.
    destruct (lazy_call_init _ _ _ _ _ Hcall Hlazy)
      as (sA & sB & Hrun & _ & _ & _ & _ & Hg2 & _).
    destruct (manual_seed_all_callback s sA) as (st' & Hrun' & _ & Hg).
    rewrite Hrun in Hrun'. injection Hrun' as <-.
    rewrite Hg2, Hg, list_lookup_fmap.
    destruct (default_generators sA !! i); [|done]. by intros [= <-].
Qed.

(** *** The setters for one device *)

Lemma with_generator_others idx f st st' :
  with_generator idx f st = Ok st' →
  ∀ i, i ≠ idx → default_generators st' !! i = default_generators st !! i.
Proof.
  unfold with_generator. destruct (default_generators st !! idx); [|done].
  intros [= <-] i Hi. cbn. by rewrite list_lookup_alter_ne.
Qed.

Lemma get_generator_index device st idx :
  get_generator device st = Ok idx →
  idx = default (cur_device st) (dev_index device).
Proof.
  unfold get_generator, current_device.
  destruct (dev_index device) as [i|]; cbn;
    destruct (default_generators st !! _); by intros [= <-].
Qed.

(** The device whose generator a call selects. *)
Definition selected (device : device_arg) st : res nat :=
  final_device ← get_device torch_device_of_str device;
  Ok (default (cur_device st) (dev_index final_device)).

(** X19.  On an initialised runtime, [manual_seed] and [seed] change the
    generator of the current device only, and [set_rng_state] and
    [set_rng_state_offset] the generator of the device that their
    argument selects: the generators of all other devices stay as they
    are. *)
Theorem single_device_setters st st' :
  initialized st = true →
  (∀ (s : Z) i,
     manual_seed s st = Ok st' → i ≠ current_device st →
     default_generators st' !! i = default_generators st !! i)
  ∧ (∀ i,
       seed st = Ok st' → i ≠ current_device st →
       default_generators st' !! i = default_generators st !! i)
  ∧ (∀ new_state device i,
       set_rng_state torch_device_of_str new_state device st = Ok st' →
       selected device st ≠ Ok i →
       default_generators st' !! i = default_generators st !! i)
  ∧ (∀ offset device i,
       set_rng_state_offset torch_device_of_str offset device st = Ok st' →
       selected device st ≠ Ok i →
       default_generators st' !! i = default_generators st !! i).
Proof.
  intros Hinit. repeat split.
  - intros s i. unfold manual_seed, _lazy_call. rewrite Hinit.
    cbn [run_callback]. intros Hrun Hi. by eapply with_generator_others.
  - intros i. unfold seed, _lazy_call. rewrite Hinit.
    cbn [run_callback]. unfold generator_seed.
    intros (st1 & Hrun & [= <-])%bind_Ok Hi. cbn.
    by eapply with_generator_others.
  - intros new_state device i. unfold set_rng_state, clone, selected.
    destruct (tensors st !! new_state) as [bytes|]; [|done]. cbn.
    destruct (get_device torch_device_of_str device) as [fd|]; [|done]. cbn.
    unfold _lazy_call. cbn [initialized set_tensors]. rewrite Hinit.
    cbn [run_callback]. intros (idx & Hidx & Hrun)%bind_Ok Hi.
    destruct (tensors _ !! _); [|done].
    apply get_generator_index in Hidx. cbn in Hidx.
    apply (with_generator_others _ _ _ _ Hrun). congruence.
  - intros offset device i. unfold set_rng_state_offset, selected.
    destruct (get_device torch_device_of_str device) as [fd|]; [|done]. cbn.
    unfold _lazy_call. rewrite Hinit.
    cbn [run_callback]. intros (idx & Hidx & Hrun)%bind_Ok Hi.
    apply get_generator_index in Hidx.
    apply (with_generator_others _ _ _ _ Hrun). congruence.
Qed.

End cuda_properties.

Lemma manual_seed_initial_seed_witness :
  ∃ st1 st2,
    CudaRandom.manual_seed 7 (example_cuda 2) = Ok st1
    ∧ CudaRandom.initial_seed st1 = Ok (7, st2).
Proof.
  assert (∃ st1, CudaRandom.manual_seed 7 (example_cuda 2) = Ok st1) as [st1 Hset]
    by (eexists; reflexivity).
  assert (∃ r st2, CudaRandom.initial_seed st1 = Ok (r, st2)) as (r & st2 & Hget)
    by (injection Hset as <-; eexists _, _; reflexivity).
  exists st1, st2. split; [exact Hset|].
  rewrite <- (manual_seed_initial_seed 7 (example_cuda 2) st1 r st2 Hset Hget).
  exact Hget.
Defined.

Lemma manual_seed_all_seeds_witness :
  ∃ st1 st2,
    CudaRandom.manual_seed_all 9 (example_cuda 2) = Ok st1
    ∧ CudaRandom._lazy_init st1 = Ok st2
    ∧ ∀ i g, CudaRandom.default_generators st2 !! i = Some g →
             CudaRandom.gen_initial_seed g = 9.
Proof.
  assert (∃ st1, CudaRandom.manual_seed_all 9 (example_cuda 2) = Ok st1) as [st1 Hset]
    by (eexists; reflexivity).
  assert (∃ st2, CudaRandom._lazy_init st1 = Ok st2) as [st2 Hinit]
    by (injection Hset as <-; eexists; reflexivity).
  exists st1, st2. split; [exact Hset|]. split; [exact Hinit|].
  intros i g.
  exact (proj2 (manual_seed_all_seeds 9 (example_cuda 2) st1 Hset) st2 i g Hinit).
Defined.

Lemma single_device_setters_witness :
  let st := CudaRandom.set_initialized true (example_cuda 2) in
  ∃ st',
    CudaRandom.manual_seed 5 st = Ok st'
    ∧ CudaRandom.default_generators st' !! 1%nat
      = CudaRandom.default_generators st !! 1%nat.
Proof.
  intros st.
  assert (∃ st', CudaRandom.manual_seed 5 st = Ok st') as [st' Hset]
    by (eexists; reflexivity).
  exists st'. split; [exact Hset|].
  refine (proj1 (single_device_setters (λ _, Raise ValueError) st st' eq_refl)
            5 1%nat Hset _).
  intros E. discriminate E.
Defined.

(** ** Saving and restoring generator states *)

Section cuda_state.
Import CudaRandom.
Implicit Types (st : Cuda) (cb : callback).
Context (torch_device_of_str : string → res torch_device).

Lemma get_rng_state_inv device st t st2 :
  get_rng_state torch_device_of_str device st = Ok (t, st2) →
  ∃ st1 final_device g,
    _lazy_init st = Ok st1
    ∧ get_device torch_device_of_str device = Ok final_device
    ∧ default_generators st1 !! default (cur_device st1) (dev_index final_device)
      = Some g
    ∧ t = fresh (dom (tensors st1))
    ∧ st2 = set_tensors (<[t := g_state g]> (tensors st1)) st1.
Proof.
  unfold get_rng_state.
  intros (st1 & Hlazy & Hrest)%bind_Ok.
  apply bind_Ok in Hrest as (fd & Hdev & Hrest).
  apply bind_Ok in Hrest as (idx & Hidx & Hrest).
  pose proof (get_generator_index _ _ _ Hidx) as ->.
  destruct (default_generators st1 !! _) as [g|] eqn:Hg; [|done].
  injection Hrest as <- <-. by exists st1, fd, g.
Qed.

Lemma fresh_tensor (ts : gmap nat (list byte)) : ts !! fresh (dom ts) = None.
Proof. apply not_elem_of_dom, is_fresh. Qed.

(** X20.  Reading the state of a device back after [set_rng_state] gives a
    new tensor with the contents of the tensor that was set, whether the
    runtime was initialised at the call of [set_rng_state] or not; the
    tensor that was set keeps its contents. *)
Theorem set_get_rng_state new_state device st st1 t st2 :
  set_rng_state torch_device_of_str new_state device st = Ok st1 →
  get_rng_state torch_device_of_str device st1 = Ok (t, st2) →
  is_Some (tensors st !! new_state)
  ∧ tensors st !! t = None
  ∧ tensors st2 !! t = tensors st !! new_state
  ∧ tensors st2 !! new_state = tensors st !! new_state.
Proof.
  unfold set_rng_state, clone.
  destruct (tensors st !! new_state) as [bytes|] eqn:Hbytes; [|done].
  cbn [mbind res_bind].
  destruct (get_device torch_device_of_str device) as [fd|] eqn:Hdev; [|done].
  cbn [mbind res_bind]. set (copy := fresh (dom (tensors st))).
  set (stc := set_tensors _ st). intros Hcall Hget.
  apply get_rng_state_inv in Hget as (st1' & fd' & g & Hlazy & Hdev' & Hg & -> & ->).
  rewrite Hdev in Hdev'. injection Hdev' as <-.
  destruct (lazy_call_init _ _ _ _ _ Hcall Hlazy)
    as (sA & sB & Hrun & HcA & HtA & _ & _ & Hg2 & Hc2 & Ht2).
  cbn [run_callback] in Hrun. apply bind_Ok in Hrun as (idx & Hidx & Hrun).
  apply get_generator_index in Hidx.
  assert (tensors stc = <[copy := bytes]> (tensors st)) as Hstc by done.
  rewrite HtA, Hstc, lookup_insert_eq in Hrun.
  unfold with_generator in Hrun.
  destruct (default_generators sA !! idx) as [g0|] eqn:Hg0; [|done].
  injection Hrun as <-.
  rewrite Hg2, Hc2, <- HcA, <- Hidx in Hg. cbn in Hg.
  rewrite list_lookup_alter_eq, Hg0 in Hg. injection Hg as <-.
  assert (copy ≠ new_state) as Hcopy.
  { intros E. pose proof (fresh_tensor (tensors st)) as Hf.
    fold copy in Hf. rewrite E in Hf. congruence. }
  pose proof (fresh_tensor (tensors st1')) as Hfresh.
  rewrite Ht2, Hstc in Hfresh. rewrite Ht2, Hstc.
  set (t := fresh (dom (<[copy := bytes]> (tensors st)))) in *.
  assert (t ≠ copy) as Ht by (intros E; by rewrite E, lookup_insert_eq in Hfresh).
  rewrite lookup_insert_ne in Hfresh by done.
  assert (t ≠ new_state) as Ht' by congruence.
  split; [eauto|]. split; [done|]. cbn [tensors set_tensors]. split.
  - by rewrite lookup_insert_eq.
  - rewrite lookup_insert_ne by done. rewrite lookup_insert_ne by done. done.
Qed.

(** *** The states of all devices *)

Definition get_all_step (acc : list nat * Cuda) (i : nat) : res (list nat * Cuda) :=
  let '(results, st) := acc in
  '(t, st) ← get_rng_state torch_device_of_str (DevInt i) st;
  Ok (results ++ [t], st).

Lemma foldM_ext {A B} (body body' : B → A → res B) l acc :
  (∀ acc x, body acc x = body' acc x) → foldM body l acc = foldM body' l acc.
Proof.
  intros Hbody. revert acc. induction l as [|x l IH]; intros acc; [done|].
  cbn. rewrite Hbody. destruct (body' acc x); [apply IH | done].
Qed.

Lemma get_rng_state_all_fold st :
  get_rng_state_all torch_device_of_str st
  = foldM get_all_step (seq 0 (device_count st)) ([], st).
Proof. apply foldM_ext. by intros [results st0] i. Qed.

Lemma get_rng_state_initialized i g st :
  initialized st = true → default_generators st !! i = Some g →
  get_rng_state torch_device_of_str (DevInt i) st
  = Ok (fresh (dom (tensors st)),
        set_tensors (<[fresh (dom (tensors st)) := g_state g]> (tensors st)) st).
Proof.
  intros Hinit Hg. unfold get_rng_state. rewrite (lazy_init_initialized _ Hinit).
  cbn [mbind res_bind get_device]. unfold get_generator. cbn [dev_index].
  rewrite Hg. cbn [mbind res_bind]. by rewrite Hg.
Qed.

Lemma get_all_loop m :
  ∀ k rs st,
    initialized st = true → (k + m ≤ device_count st)%nat →
    ∃ ts st',
      foldM get_all_step (seq k m) (rs, st) = Ok (rs ++ ts, st')
      ∧ initialized st' = true
      ∧ default_generators st' = default_generators st
      ∧ cur_device st' = cur_device st
      ∧ tensors st ⊆ tensors st'
      ∧ NoDup ts
      ∧ (∀ t, t ∈ ts → tensors st !! t = None)
      ∧ length ts = m
      ∧ ∀ j t, ts !! j = Some t →
               ∃ g, default_generators st !! (k + j)%nat = Some g
                    ∧ tensors st' !! t = Some (g_state g).
Proof.
  induction m as [|m IH]; intros k rs st Hinit Hlen.
  - exists [], st. rewrite app_nil_r. repeat split; try done.
    + apply NoDup_nil_2.
    + by intros t ?%elem_of_nil.
  - assert (is_Some (default_generators st !! k)) as [g Hg]
      by (apply lookup_lt_is_Some_2; unfold device_count in Hlen; lia).
    cbn [seq foldM get_all_step].
    rewrite (get_rng_state_initialized _ _ _ Hinit Hg). cbn [mbind res_bind].
    set (t := fresh (dom (tensors st))). set (st1 := set_tensors _ st).
    pose proof (fresh_tensor (tensors st)) as Hfresh. fold t in Hfresh.
    destruct (IH (S k) (rs ++ [t]) st1) as
      (ts & st' & Hrun & Hi & Hgens & Hcur & Hsub & Hnd & Hnew & Hl & Hts);
      [done | unfold device_count in *; cbn; lia |].
    assert (tensors st1 = <[t := g_state g]> (tensors st)) as Ht1 by done.
    exists (t :: ts), st'. rewrite Hrun, <- app_assoc. split; [done|].
    split; [done|]. split; [done|]. split; [done|]. split.
    { etrans; [|exact Hsub]. rewrite Ht1. by apply insert_subseteq. }
    split.
    { apply NoDup_cons. split; [|done]. intros Hin. apply Hnew in Hin.
      by rewrite Ht1, lookup_insert_eq in Hin. }
    split.
    { intros t' [->|Hin]%elem_of_cons; [done|]. apply Hnew in Hin.
      rewrite Ht1 in Hin. apply lookup_insert_None in Hin. tauto. }
    split; [cbn; lia|].
    intros [|j] t' Hj.
    + injection Hj as <-. exists g. rewrite Nat.add_0_r. split; [done|].
      eapply lookup_weaken; [|exact Hsub]. by rewrite Ht1, lookup_insert_eq.
    + cbn in Hj. destruct (Hts j t' Hj) as (g' & Hg' & Ht').
      exists g'. split; [|done]. by rewrite <- Nat.add_succ_comm.
Qed.

Lemma get_rng_state_all_initialized st :
  initialized st = true →
  ∃ ts st',
    get_rng_state_all torch_device_of_str st = Ok (ts, st')
    ∧ initialized st' = true
    ∧ default_generators st' = default_generators st
    ∧ tensors st ⊆ tensors st'
    ∧ NoDup ts
    ∧ (∀ t, t ∈ ts → tensors st !! t = None)
    ∧ Forall2 (λ t g, tensors st' !! t = Some (g_state g)) ts (default_generators st).
Proof.
  intros Hinit.
  destruct (get_all_loop (device_count st) 0 [] st Hinit) as
    (ts & st' & Hrun & Hi & Hgens & _ & Hsub & Hnd & Hnew & Hl & Hts); [lia|].
  exists ts, st'. rewrite get_rng_state_all_fold. repeat split; try done.
  apply Forall2_same_length_lookup. split; [done|].
  intros i t g Ht Hg. destruct (Hts i t Ht) as (g' & Hg' & Ht').
  cbn in Hg'. congruence.
Qed.

(** X21.  [get_rng_state_all] returns one new tensor per device, in the
    order of the devices and pairwise distinct, each holding the state of
    the generator of its device, and changes no generator.  On a runtime
    that is not initialised, with some device present, it initialises
    first (and fails where the initialisation fails); without any device it
    returns the empty list and initialises nothing. *)
Theorem get_rng_state_all_states st :
  (device_count st = 0%nat → get_rng_state_all torch_device_of_str st = Ok ([], st))
  ∧ (device_count st ≠ 0%nat →
     get_rng_state_all torch_device_of_str st
     = st0 ← _lazy_init st; get_rng_state_all torch_device_of_str st0)
  ∧ (initialized st = true →
     ∃ ts st',
       get_rng_state_all torch_device_of_str st = Ok (ts, st')
       ∧ default_generators st' = default_generators st
       ∧ tensors st ⊆ tensors st'
       ∧ NoDup ts
       ∧ (∀ t, t ∈ ts → tensors st !! t = None)
       ∧ Forall2 (λ t g, tensors st' !! t = Some (g_state g))
           ts (default_generators st)).
Proof.
  split; [|split].
  - intros Hnone. rewrite get_rng_state_all_fold, Hnone. done.
  - intros Hsome. destruct (_lazy_init st) as [st0|e] eqn:Hlazy.
    + destruct (lazy_init_Ok _ _ Hlazy) as (Hi & _ & _ & Hl & _).
      cbn [mbind res_bind]. rewrite !get_rng_state_all_fold.
      unfold device_count in *. rewrite Hl.
      destruct (length (default_generators st)) as [|n]; [done|].
      cbn [seq foldM get_all_step]. unfold get_rng_state.
      rewrite Hlazy, (lazy_init_initialized _ Hi). done.
    + cbn [mbind res_bind]. rewrite get_rng_state_all_fold.
      destruct (device_count st) as [|n]; [done|].
      cbn [seq foldM get_all_step]. unfold get_rng_state. by rewrite Hlazy.
  - intros Hinit.
    destruct (get_rng_state_all_initialized st Hinit)
      as (ts & st' & Hrun & _ & Hgens & Hsub & Hnd & Hnew & Hts).
    by exists ts, st'.
Qed.

(** *** Restoring *)

Lemma set_rng_state_initialized new_state i st bytes g :
  initialized st = true →
  tensors st !! new_state = Some bytes →
  default_generators st !! i = Some g →
  set_rng_state torch_device_of_str new_state (DevInt i) st
  = Ok (set_generators (alter (gen_set_state bytes) i (default_generators st))
          (set_tensors (<[fresh (dom (tensors st)) := bytes]> (tensors st)) st)).
Proof.
  intros Hinit Hbytes Hg. unfold set_rng_state, clone. rewrite Hbytes.
  cbn [mbind res_bind get_device]. unfold _lazy_call.
  cbn [initialized set_tensors]. rewrite Hinit. cbn [run_callback].
  unfold get_generator. cbn [dev_index default_generators set_tensors].
  rewrite Hg. cbn [mbind res_bind tensors set_tensors].
  rewrite lookup_insert_eq. unfold with_generator.
  cbn [default_generators set_tensors]. by rewrite Hg.
Qed.

Lemma set_all_loop new_states :
  ∀ k st,
    initialized st = true →
    (k + length new_states ≤ device_count st)%nat →
    (∀ t, t ∈ new_states → is_Some (tensors st !! t)) →
    ∃ st',
      foldM (λ st '(i, state), set_rng_state torch_device_of_str state (DevInt i) st)
        (imap (λ j, pair (k + j)%nat) new_states) st = Ok st'
      ∧ initialized st' = true
      ∧ length (default_generators st') = length (default_generators st)
      ∧ tensors st ⊆ tensors st'
      ∧ ∀ i g', default_generators st' !! i = Some g' →
          (∀ t, new_states !! (i - k)%nat = Some t → (k ≤ i)%nat →
                tensors st !! t = Some (g_state g'))
          ∧ (¬ (k ≤ i < k + length new_states)%nat →
             default_generators st !! i = Some g').
Proof.
  induction new_states as [|t ts IH]; intros k st Hinit Hlen Hts.
  - exists st. by repeat split.
  - assert (is_Some (default_generators st !! k)) as [g Hg]
      by (apply lookup_lt_is_Some_2; unfold device_count in Hlen; cbn in Hlen; lia).
    destruct (Hts t) as [bytes Hbytes]; [left|].
    rewrite imap_cons. cbn [foldM]. rewrite Nat.add_0_r.
    rewrite (set_rng_state_initialized _ _ _ _ _ Hinit Hbytes Hg).
    cbn [mbind res_bind].
    set (st1 := set_generators _ _).
    assert (tensors st ⊆ tensors st1) as Hsub1
      by (apply insert_subseteq, fresh_tensor).
    destruct (IH (S k) st1) as (st' & Hrun & Hi & Hl & Hsub & Hgens).
    { done. }
    { unfold device_count in *. cbn in *. rewrite length_alter. lia. }
    { intros t' Ht'. destruct (Hts t') as [b Hb]; [by right|].
      exists b. by eapply lookup_weaken. }
    exists st'. split.
    { rewrite <- Hrun. f_equal. apply imap_ext. intros j x _. cbn.
      by rewrite Nat.add_succ_r. }
    split; [done|]. split.
    { rewrite Hl. cbn. by rewrite length_alter. }
    split; [by etrans|].
    intros i g' Hg'. destruct (Hgens i g' Hg') as [Hin Hout]. split.
    + intros t' Ht' Hki. destruct (decide (i = k)) as [->|Hne].
      * rewrite Nat.sub_diag in Ht'. injection Ht' as <-.
        assert (default_generators st1 !! k = Some g') as Hk
          by (apply Hout; lia).
        unfold st1 in Hk. cbn in Hk. rewrite list_lookup_alter_eq, Hg in Hk.
        injection Hk as <-. done.
      * assert (i - k = S (i - S k))%nat as E by lia.
        rewrite E in Ht'. cbn in Ht'.
        specialize (Hin t' Ht' ltac:(lia)).
        destruct (Hts t') as [b Hb];
          [right; by eapply list_elem_of_lookup_2|].
        rewrite Hb. rewrite <- Hin. symmetry. by eapply lookup_weaken.
    + intros Hrange. cbn [length] in Hrange.
      assert (default_generators st1 !! i = Some g') as Hi1 by (apply Hout; lia).
      unfold st1 in Hi1. cbn in Hi1.
      rewrite list_lookup_alter_ne in Hi1 by lia. done.
Qed.

(** X22.  Save and restore: on an initialised runtime, the tensors that
    [get_rng_state_all] returned, given back to [set_rng_state_all] after
    the generators have changed in any way, make the state of the generator
    of every device what it was at the call of [get_rng_state_all],
    provided that the saved tensors still have their contents and the
    devices are the same. *)
Theorem rng_state_all_restore st saved st1 st2 :
  initialized st = true →
  get_rng_state_all torch_device_of_str st = Ok (saved, st1) →
  initialized st2 = true →
  length (default_generators st2) = length (default_generators st) →
  (∀ t, t ∈ saved → tensors st2 !! t = tensors st1 !! t) →
  ∃ st3,
    set_rng_state_all torch_device_of_str saved st2 = Ok st3
    ∧ g_state <$> default_generators st3 = g_state <$> default_generators st.
Proof.
  intros Hinit Hget Hinit2 Hlen2 Hkept.
  destruct (get_rng_state_all_initialized st Hinit)
    as (ts & st1' & Hrun & _ & _ & _ & _ & _ & Hts).
  rewrite Hget in Hrun. injection Hrun as <- <-.
  pose proof (Forall2_length _ _ _ Hts) as Hl.
  destruct (set_all_loop saved 0 st2 Hinit2) as (st3 & Hset & _ & Hl3 & _ & Hgens).
  { unfold device_count. lia. }
  { intros t Ht. rewrite (Hkept t Ht).
    apply list_elem_of_lookup in Ht as [i Hi].
    destruct (Forall2_lookup_l _ _ _ _ _ Hts Hi) as (g & _ & Hg). eauto. }
  exists st3. split; [exact Hset|].
  apply list_eq_same_length with (length (default_generators st)).
  { by rewrite length_fmap. }
  { by rewrite length_fmap, Hl3. }
  intros i x y Hi. rewrite !list_lookup_fmap.
  destruct (default_generators st3 !! i) as [g3|] eqn:Hg3; [|done].
  destruct (default_generators st !! i) as [g|] eqn:Hg; [|done].
  intros [= <-] [= <-].
  destruct (Forall2_lookup_r _ _ _ _ _ Hts Hg) as (t & Ht & Hstate).
  destruct (Hgens i g3 Hg3) as [Hin _].
  rewrite Nat.sub_0_r in Hin. specialize (Hin t Ht ltac:(lia)).
  rewrite (Hkept t) in Hin by (by eapply list_elem_of_lookup_2). congruence.
Qed.

(** *** A device that does not exist *)

(** X23.  With the index of a device that does not exist, [set_rng_state]
    and [set_rng_state_offset] raise [IndexError] at the call when the
    runtime is initialised; when it is not, the call returns normally and
    the error surfaces later: the initialisation that runs the deferred
    call cannot succeed. *)
Theorem setters_missing_device new_state bytes offset i st :
  tensors st !! new_state = Some bytes →
  (device_count st ≤ i)%nat →
  (initialized st = true →
   set_rng_state torch_device_of_str new_state (DevInt i) st = Raise IndexError
   ∧ set_rng_state_offset torch_device_of_str offset (DevInt i) st = Raise IndexError)
  ∧ (initialized st = false →
     ∃ st1 st1',
       set_rng_state torch_device_of_str new_state (DevInt i) st = Ok st1
       ∧ set_rng_state_offset torch_device_of_str offset (DevInt i) st = Ok st1'
       ∧ (∀ st2, _lazy_init st1 ≠ Ok st2)
       ∧ (∀ st2, _lazy_init st1' ≠ Ok st2)).
Proof.
  intros Hbytes Hi.
  assert (∀ sA, length (default_generators sA) = length (default_generators st) →
                get_generator (mk_device "cuda" (Some i)) sA = Raise IndexError)
    as Hmissing.
  { intros sA HlA. unfold get_generator. cbn [dev_index].
    rewrite lookup_ge_None_2; [done|]. unfold device_count in Hi. lia. }
  split.
  - intros Hinit. split.
    + unfold set_rng_state, clone. rewrite Hbytes.
      cbn [mbind res_bind get_device]. unfold _lazy_call.
      cbn [initialized set_tensors]. rewrite Hinit. cbn [run_callback].
      by rewrite Hmissing.
    + unfold set_rng_state_offset. cbn [mbind res_bind get_device].
      unfold _lazy_call. rewrite Hinit. cbn [run_callback].
      by rewrite Hmissing.
  - intros Hinit.
    assert (∃ st1, set_rng_state torch_device_of_str new_state (DevInt i) st = Ok st1)
      as [st1 Hset].
    { unfold set_rng_state, clone. rewrite Hbytes.
      cbn [mbind res_bind get_device]. unfold _lazy_call.
      cbn [initialized set_tensors]. rewrite Hinit. eauto. }
    assert (∃ st1', set_rng_state_offset torch_device_of_str offset (DevInt i) st
                    = Ok st1') as [st1' Hset'].
    { unfold set_rng_state_offset. cbn [mbind res_bind get_device].
      unfold _lazy_call. rewrite Hinit. eauto. }
    exists st1, st1'. split; [done|]. split; [done|]. split.
    + intros st2 Hlazy. unfold set_rng_state, clone in Hset.
      rewrite Hbytes in Hset. cbn [mbind res_bind get_device] in Hset.
      destruct (lazy_call_init _ _ _ _ _ Hset Hlazy)
        as (sA & sB & Hrun & _ & _ & HlA & _).
      cbn [run_callback] in Hrun. by rewrite Hmissing in Hrun.
    + intros st2 Hlazy. unfold set_rng_state_offset in Hset'.
      cbn [mbind res_bind get_device] in Hset'.
      destruct (lazy_call_init _ _ _ _ _ Hset' Hlazy)
        as (sA & sB & Hrun & _ & _ & HlA & _).
      cbn [run_callback] in Hrun. by rewrite Hmissing in Hrun.
Qed.

End cuda_state.

Lemma set_get_rng_state_witness :
  let parse := λ _ : string, Raise ValueError in
  ∃ st1 t st2,
    CudaRandom.set_rng_state parse 0 (CudaRandom.DevInt 1) (example_cuda 2) = Ok st1
    ∧ CudaRandom.get_rng_state parse (CudaRandom.DevInt 1) st1 = Ok (t, st2)
    ∧ CudaRandom.tensors st2 !! t = Some [x01; x02; x03]%byte.
Proof.
  intros parse.
  assert (∃ st1, CudaRandom.set_rng_state parse 0 (CudaRandom.DevInt 1)
                   (example_cuda 2) = Ok st1) as [st1 Hset]
    by (eexists; reflexivity).
  assert (∃ t st2, CudaRandom.get_rng_state parse (CudaRandom.DevInt 1) st1
                   = Ok (t, st2)) as (t & st2 & Hget)
    by (injection Hset as <-; eexists _, _; vm_compute; reflexivity).
  exists st1, t, st2. split; [exact Hset|]. split; [exact Hget|].
  exact (proj1 (proj2 (proj2 (set_get_rng_state parse 0 (CudaRandom.DevInt 1)
                                (example_cuda 2) st1 t st2 Hset Hget)))).
Defined.

Lemma get_rng_state_all_states_witness :
  let parse := λ _ : string, Raise ValueError in
  let st := CudaRandom.set_initialized true (example_cuda 2) in
  ∃ ts st',
    CudaRandom.get_rng_state_all parse st = Ok (ts, st')
    ∧ NoDup ts
    ∧ Forall2 (λ t g, CudaRandom.tensors st' !! t = Some (CudaRandom.g_state g))
        ts (CudaRandom.default_generators st).
Proof.
  intros parse st.
  destruct (proj2 (proj2 (get_rng_state_all_states parse st)) eq_refl)
    as (ts & st' & Hrun & _ & _ & Hnd & _ & Hts).
  exists ts, st'. split; [exact Hrun|]. split; [exact Hnd | exact Hts].
Defined.

Lemma rng_state_all_restore_witness :
  let parse := λ _ : string, Raise ValueError in
  let st := CudaRandom.set_initialized true (example_cuda 2) in
  ∃ saved st1 st3,
    CudaRandom.get_rng_state_all parse st = Ok (saved, st1)
    ∧ CudaRandom.set_rng_state_all parse saved
        (CudaRandom.set_generators
           (replicate 2 (CudaRandom.mk_generator 1 [xff]%byte 3 (λ _, ([], 0)))) st1) = Ok st3
    ∧ CudaRandom.g_state <$> CudaRandom.default_generators st3 = [[]; []].
Proof.
  intros parse st.
  destruct (get_rng_state_all_initialized parse st eq_refl)
    as (saved & st1 & Hrun & Hinit & _).
  destruct (rng_state_all_restore parse st saved st1
              (CudaRandom.set_generators
                 (replicate 2 (CudaRandom.mk_generator 1 [xff]%byte 3 (λ _, ([], 0)))) st1)
              eq_refl Hrun) as (st3 & Hset & Hstates).
  - exact Hinit.
  - reflexivity.
  - reflexivity.
  - exists saved, st1, st3. split; [exact Hrun|]. split; [exact Hset | exact Hstates].
Defined.

Lemma setters_missing_device_witness :
  let parse := λ _ : string, Raise ValueError in
  CudaRandom.set_rng_state parse 0 (CudaRandom.DevInt 1)
    (CudaRandom.set_initialized true (example_cuda 1)) = Raise IndexError
  ∧ ∃ st1,
      CudaRandom.set_rng_state parse 0 (CudaRandom.DevInt 1) (example_cuda 1) = Ok st1
      ∧ ∀ st2, CudaRandom._lazy_init st1 ≠ Ok st2.
Proof.
  intros parse. split.
  - exact (proj1 (proj1 (setters_missing_device parse 0 [x01; x02; x03]%byte 0 1
                           (CudaRandom.set_initialized true (example_cuda 1))
                           eq_refl (le_n 1)) eq_refl)).
  - destruct (proj2 (setters_missing_device parse 0 [x01; x02; x03]%byte 0 1
                       (example_cuda 1) eq_refl (le_n 1)) eq_refl)
      as (st1 & _ & Hset & _ & Hinit & _).
    exists st1. split; [exact Hset | exact Hinit].
Defined.

(** ** The object store and the functional model agree *)

Section store_agreement.
Import Store.
Context `{FloatRuntime}.
Implicit Types (h : list obj) (S : nat → Prop).

(** The dictionary in the store before the children are visited. *)
Definition store_base (e : Element) : gmap string hval :=
  let ret := (λ v, match v with
                   | HAtom (AStr s) => HAtom (Store.coerce_atom s)
                   | _ => v
                   end) <$> (((λ v, HAtom (AStr v)) <$> attrib e) ∪ ∅) in
  let ret := if nonblank (text e)
             then <["text" := HAtom (AStr (default "" (text e)))]> ret else ret in
  if nonblank (tail e)
  then <["tail" := HAtom (AStr (default "" (tail e)))]> ret else ret.

Lemma store_base_lookup e k :
  match store_base e !! k with
  | Some (HAtom a) => element_base e !! k = Some (VAtom a)
  | Some (HRef _) => False
  | None => element_base e !! k = None
  end.
Proof.
  assert (Hattrs :
    match ((λ v, match v with
                 | HAtom (AStr s) => HAtom (Store.coerce_atom s)
                 | _ => v
                 end) <$> (((λ v, HAtom (AStr v)) <$> attrib e) ∪ ∅)) !! k with
    | Some (HAtom a) => (coerce <$> attrib e) !! k = Some (VAtom a)
    | Some (HRef _) => False
    | None => (coerce <$> attrib e) !! k = None
    end).
  { rewrite (right_id_L ∅ (∪)), !lookup_fmap.
    destruct (attrib e !! k) as [s|]; cbn; [|done].
    by rewrite coerce_coerce_atom. }
  unfold store_base, element_base. cbv zeta.
  destruct (nonblank (text e)), (nonblank (tail e));
    repeat (match goal with
            | |- context [<[?j := _]> _ !! k] =>
                destruct (decide (j = k)) as [<-|?];
                [rewrite !lookup_insert_eq | rewrite !(lookup_insert_ne _ j k) by done]
            end); done.
Qed.

Lemma base_run e l h cs :
  h !! l = Some (OElem (tag e) (attrib e) (text e) (tail e) cs) →
  ∃ h1,
    h1 !! length h = Some (ODict (store_base e))
    ∧ preserved h h1
    ∧ ∀ fuel (Q : res nat → list obj → Prop),
        post (_ ← for_each (visit_child fuel (length h)) cs; mret (length h)) h1 Q →
        post (process_xml_element (Datatypes.S fuel) l) h Q.
Proof.
  intros Hl. set (n0 := length h).
  set (d1 := ((λ v, HAtom (AStr v)) <$> attrib e) ∪ (∅ : gmap string hval)).
  set (d2 := (λ v, match v with
                   | HAtom (AStr s) => HAtom (Store.coerce_atom s)
                   | _ => v
                   end) <$> d1).
  set (d3 := if nonblank (text e)
             then <["text" := HAtom (AStr (default "" (text e)))]> d2 else d2).
  assert (Hstep : ∀ hk dk d', hk !! n0 = Some (ODict dk) → preserved h hk →
            <[n0 := ODict d']> hk !! n0 = Some (ODict d')
            ∧ preserved h (<[n0 := ODict d']> hk)).
  { intros hk dk d' Hk Hp. split.
    - apply list_lookup_insert_eq. by eapply lookup_lt_Some.
    - by apply preserved_write. }
  assert (H0 : (h ++ [ODict ∅]) !! n0 = Some (ODict ∅)).
  { unfold n0. by rewrite lookup_app_r, Nat.sub_diag. }
  pose proof (preserved_alloc h (ODict ∅)) as Hp0.
  destruct (Hstep _ _ d1 H0 Hp0) as [H1 Hp1].
  destruct (Hstep _ _ d2 H1 Hp1) as [H2 Hp2].
  set (h2 := <[n0 := ODict d2]> (<[n0 := ODict d1]> (h ++ [ODict ∅]))) in *.
  set (h3 := if nonblank (text e) then <[n0 := ODict d3]> h2 else h2).
  assert (H3 : h3 !! n0 = Some (ODict d3) ∧ preserved h h3).
  { unfold h3, d3. destruct (nonblank (text e)); [by eapply Hstep | done]. }
  destruct H3 as [H3 Hp3].
  set (h4 := if nonblank (tail e)
             then <[n0 := ODict (store_base e)]> h3 else h3).
  assert (H4 : h4 !! n0 = Some (ODict (store_base e)) ∧ preserved h h4).
  { unfold h4. destruct (nonblank (tail e)) eqn:Etail; [by eapply Hstep|].
    split; [|done]. unfold store_base. cbv zeta. by rewrite Etail. }
  destruct H4 as [H4 Hp4].
  exists h4. split; [done|]. split; [done|].
  intros fuel Q HQ. cbn [process_xml_element].
  eapply post_bind_run; [by apply read_elem_run|]. cbv beta iota.
  eapply post_bind_run; [reflexivity|]. fold n0.
  eapply post_bind_run; [by apply read_dict_run|].
  eapply post_bind_run; [by eapply write_run|].
  eapply post_bind_run; [by apply read_dict_run|].
  eapply post_bind_run; [by eapply write_run|].
  eapply (post_bind_run _ _ _ () h3).
  { unfold h3, d3. destruct (nonblank (text e)); [|done].
    by apply dict_setitem_run. }
  eapply (post_bind_run _ _ _ () h4).
  { unfold h4. destruct (nonblank (tail e)) eqn:Etail; [|done].
    rewrite (dict_setitem_run _ _ _ _ _ H3). unfold store_base. cbv zeta.
    by rewrite Etail. }
  exact HQ.
Qed.

Lemma children_refine n0 fuel h0 :
  refines fuel → (length h0 ≤ n0)%nat →
  ∀ cs es,
    Forall2 (erepr h0) cs es →
    Forall (λ e, (depth e ≤ fuel)%nat) es →
    ∀ S h d pret,
      preserved h0 h → loop_inv n0 S h d pret →
      post (for_each (visit_child fuel n0) cs) h
        (λ r h', r = Ok () ∧ preserved h0 h'
           ∧ ∃ S' d', loop_inv n0 S' h' d'
               (fold_left add_child
                  (map (λ c, (tag c, UploadTestStats.process_xml_element c)) es)
                  pret)).
Proof.
  intros IH Hn0 cs es Hces.
  induction Hces as [|c e cs es Hc Hcs IHl]; intros Hdepth S h d pret Hp Hinv.
  - apply post_ret. split; [done|]. split; [done|]. by exists S, d.
  - apply Forall_cons in Hdepth as [Hd Hds]. cbn [for_each map fold_left].
    eapply post_bind_post; [by eapply visit_child_refines|].
    cbn beta. intros r h' (-> & Hp' & S' & d' & Hinv'). by eapply IHl.
Qed.

Lemma depth_children (es : list Element) n :
  (foldr (λ c, Nat.max (depth c)) 0 es ≤ n)%nat →
  Forall (λ e, (depth e ≤ n)%nat) es.
Proof.
  induction es as [|e es IH]; intros Hmax; [done|]. cbn in Hmax.
  constructor; [lia|]. apply IH. lia.
Qed.

Lemma depth_unfold e :
  depth e = Datatypes.S (foldr (λ c, Nat.max (depth c)) 0%nat (children e)).
Proof. by destruct e. Qed.

Lemma loop_inv_result n0 S h d pret n :
  loop_inv n0 S h d pret → (n ≤ n0)%nat →
  hrepr (λ x, (n ≤ x < length h)%nat) h (HRef n0) (VDict pret).
Proof.
  intros (Hd & Hrel & _ & Hcells) Hn.
  assert (Hext : ∀ hv v, hrepr S h hv v → hrepr (λ x, (n ≤ x < length h)%nat) h hv v).
  { apply hrepr_ext. intros l Hl. split; [|done].
    destruct (Hcells l Hl). lia. }
  apply hrepr_dict with d; [|done|].
  { apply lookup_lt_Some in Hd. lia. }
  intros k. specialize (Hrel k). unfold entry_rel in Hrel.
  destruct (d !! k) as [[a|c]|], (pret !! k) as [[b|dv|vs]|];
    try done; constructor.
  - subst. constructor.
  - by apply Hext.
  - destruct Hrel as (_ & Hc & xs & Hxs & Hall).
    apply hrepr_list with xs; [|done|].
    + apply lookup_lt_Some in Hxs. lia.
    + eapply Forall2_impl; [done|]. apply Hext.
Qed.

Lemma refines_all fuel : refines fuel.
Proof.
  induction fuel as [|fuel IH]; intros e l h He Hdepth.
  { rewrite depth_unfold in Hdepth. lia. }
  inversion He as [l' e' cs Hl Hcs]; subst l' e'.
  destruct (base_run e l h cs Hl) as (h1 & H1 & Hp1 & Hrun).
  apply Hrun. clear Hrun.
  assert (loop_inv (length h) (λ _, False) h1 (store_base e) (element_base e))
    as Hinv.
  { split; [done|]. split; [|split].
    - intros k. pose proof (store_base_lookup e k) as Hk. unfold entry_rel.
      destruct (store_base e !! k) as [[a|c]|]; [|done|].
      + rewrite Hk. done.
      + rewrite Hk. done.
    - intros k k' c Hk. pose proof (store_base_lookup e k) as Hk'.
      by rewrite Hk in Hk'.
    - done. }
  eapply post_bind_post.
  { eapply (children_refine (length h) fuel h); [done|done|exact Hcs| |done|exact Hinv].
    apply depth_children. rewrite depth_unfold in Hdepth. lia. }
  cbn beta. intros r h' (-> & Hp' & S' & d' & Hinv').
  apply post_ret. exists (length h). split; [done|].
  rewrite process_xml_element_unfold. by eapply loop_inv_result.
Qed.

(** X24.  The imperative [process_xml_element], run on a store that holds
    an element tree, returns (when the recursion may go as deep as the
    tree) a new dictionary that represents exactly the mapping of the
    functional reading of the function, through objects that the call has
    created; every object that was in the store before the call, the
    element tree included, is unchanged. *)
Theorem process_xml_element_store e l h fuel :
  erepr h l e → (depth e ≤ fuel)%nat →
  ∃ a h',
    process_xml_element fuel l h = (Ok a, h')
    ∧ preserved h h'
    ∧ erepr h' l e
    ∧ (length h ≤ a < length h')%nat
    ∧ hrepr (λ x, (length h ≤ x < length h')%nat) h' (HRef a)
        (VDict (UploadTestStats.process_xml_element e)).
Proof.
  intros He Hdepth.
  pose proof (refines_all fuel e l h He Hdepth) as Hrefines.
  pose proof (process_xml_element_frame fuel l h) as Hframe.
  unfold post in *.
  destruct (process_xml_element fuel l h) as [r h'] eqn:Hrun. cbn [fst snd] in *.
  destruct Hrefines as (a & -> & Hrepr). destruct Hframe as [Hp Hfresh].
  exists a, h'. split; [done|]. split; [done|].
  split; [by eapply erepr_preserved|]. split; [by apply Hfresh | done].
Qed.

(** X25.  Whatever the store holds and whether the call returns or raises,
    the imperative [process_xml_element] changes no object that existed
    before the call; what it returns is an object it has created. *)
Theorem process_xml_element_no_mutation fuel element h r h' :
  process_xml_element fuel element h = (r, h') →
  preserved h h' ∧ ∀ a, r = Ok a → (length h ≤ a < length h')%nat.
Proof.
  intros Hrun. pose proof (process_xml_element_frame fuel element h) as Hframe.
  unfold post in Hframe. by rewrite Hrun in Hframe.
Qed.

(** X26.  Whatever the store holds and whether the call returns or raises,
    the imperative [summarize_test_cases] changes no object that existed
    before the call, neither the list of test cases nor a test case; the
    list it returns is an object it has created. *)
Theorem summarize_test_cases_no_mutation test_cases h r h' :
  summarize_test_cases test_cases h = (r, h') →
  preserved h h' ∧ ∀ a, r = Ok a → (length h ≤ a < length h')%nat.
Proof.
  intros Hrun. pose proof (summarize_test_cases_frame test_cases h) as Hframe.
  unfold post in Hframe. by rewrite Hrun in Hframe.
Qed.

End store_agreement.

(** A store that holds the tree of [example_suite "1.5"] at cell 1, and a
    list of one test case at cell 3. *)
Definition example_store : list (Store.obj (H := RationalRuntime.runtime)) :=
  [ Store.OElem "testcase" {[ "name" := "test_foo"; "time" := "0.5" ]} None None [];
    Store.OElem "testsuite" {[ "time" := "1.5" ]} None None [0%nat];
    Store.ODict (<["job_id" := Store.HAtom (AInt 1)]>
                 (<["workflow_id" := Store.HAtom (AInt 7)]>
                 (<["workflow_run_attempt" := Store.HAtom (AInt 1)]>
                 (<["invoking_file" := Store.HAtom (AStr "test_ops")]>
                 (<["time" := Store.HAtom (AInt 2)]> ∅)))));
    Store.OList [Store.HRef 2] ].

Lemma process_xml_element_store_witness :
  ∃ a h',
    Store.process_xml_element 2 1 example_store = (Ok a, h')
    ∧ Store.preserved example_store h'
    ∧ Store.hrepr (λ x, (4 ≤ x < length h')%nat) h' (Store.HRef a)
        (VDict (process_xml_element (example_suite "1.5"))).
Proof.
  destruct (process_xml_element_store (example_suite "1.5") 1 example_store 2)
    as (a & h' & Hrun & Hp & _ & _ & Hrepr).
  - apply Store.erepr_elem with [0%nat]; [reflexivity|].
    constructor; [|constructor].
    apply Store.erepr_elem with []; [reflexivity | constructor].
  - exact (le_n 2).
  - exists a, h'. split; [exact Hrun|]. split; [exact Hp | exact Hrepr].
Defined.

Lemma process_xml_element_no_mutation_witness :
  Store.preserved example_store (Store.process_xml_element 1 1 example_store).2.
Proof.
  exact (proj1 (process_xml_element_no_mutation 1 1 example_store _ _
                  (surjective_pairing _))).
Defined.

Lemma summarize_test_cases_no_mutation_witness :
  Store.preserved example_store
    (Store.summarize_test_cases (Store.HRef 3) example_store).2.
Proof.
  exact (proj1 (summarize_test_cases_no_mutation (Store.HRef 3) example_store _ _
                  (surjective_pairing _))).
Defined.
